(** * Verification of [src/lib/dashboard-forecast-data.ts]

    A shallow embedding of the synthetic forecast generator and the proofs of
    the properties stated about it.

    Conventions of the embedding.

    - A JavaScript [number] that carries a measurement is an IEEE 754 binary64
      value: [spec_float] at precision 53 and maximal exponent 1024, with the
      correctly rounded operations of [SpecFloat].  There is one NaN.
    - A JavaScript [number] that the program uses as a counter or a length
      ([trainingDays], the loop indices, the seed) is a mathematical integer
      ([nat] or [Z]).  Arrays are lists of unbounded length.  Integers are
      converted to binary64 ([Z2num]) at the places where the program does
      floating-point arithmetic on them.
    - The result of [parseInt], and so the number of days of the horizon, is
      a binary64 value: NaN, a zero of either sign, an integer rounded to the
      nearest binary64 value, or an infinity.
    - Strings are [string]; a character stands for one code unit in the
      Latin-1 range.
    - [Math.sin] is implementation-approximated in ECMAScript: it is a
      parameter [Math_sin] of the development.
    - The closure returned by [mulberry32] owns one mutable 32-bit cell; the
      cell is threaded explicitly through every call of [random()].  Where a
      property is about what an invocation may read or change, the cells of
      all the closures form one store ([Cells]) and the generator is written
      over that store. *)

From Stdlib Require Import ZArith List String Ascii Bool Lia DecimalString.
From Stdlib Require Import QArith Qpower Qround Lqa.
From Stdlib Require Import Floats.SpecFloat.
Import ListNotations.
Open Scope Z_scope.

(** ** Binary64 numbers *)

Module JS.

Definition number := spec_float.

Definition prec : Z := 53.
Definition emax : Z := 1024.

Definition NaN : number := S754_nan.
Definition Infinity : number := S754_infinity false.
Definition neg_Infinity : number := S754_infinity true.

Definition add : number -> number -> number := SFadd prec emax.
Definition sub : number -> number -> number := SFsub prec emax.
Definition mul : number -> number -> number := SFmul prec emax.
Definition div : number -> number -> number := SFdiv prec emax.

(** [x < y], [x > y] and [x <= y] of JavaScript: false as soon as one side is NaN. *)
Definition ltb : number -> number -> bool := SFltb.
Definition gtb (x y : number) : bool := SFltb y x.
Definition leb : number -> number -> bool := SFleb.

(** The binary64 value nearest to an integer (ties to even). *)
Definition Z2num (z : Z) : number := binary_normalize prec emax z 0 false.

(** The value of the decimal literal [m / 10^k]: both operands are exact
    (they are below 2^53), so the correctly rounded quotient is the binary64
    value nearest to the literal. *)
Definition dec (m : Z) (k : Z) : number := div (Z2num m) (Z2num (10 ^ k)).

Definition Math_PI : number := S754_finite false 7074237752028440 (-51).

Definition Math_abs : number -> number := SFabs.

(** [Math.max] and [Math.min] of two arguments: NaN is contagious and
    [-0] is smaller than [+0]. *)
Definition Math_max (x y : number) : number :=
  match SFcompare x y with
  | None => NaN
  | Some Lt => y
  | Some Gt => x
  | Some Eq => match x with S754_zero true => y | _ => x end
  end.

Definition Math_min (x y : number) : number :=
  match SFcompare x y with
  | None => NaN
  | Some Lt => x
  | Some Gt => y
  | Some Eq => match y with S754_zero true => y | _ => x end
  end.

(** [Math.max(...xs)] and [Math.min(...xs)]. *)
Definition Math_max_list (xs : list number) : number :=
  fold_left Math_max xs neg_Infinity.

Definition Math_min_list (xs : list number) : number :=
  fold_left Math_min xs Infinity.

(** The integer nearest to [(-1)^s * m * 2^e], ties towards +infinity. *)
Definition round_half_up (s : bool) (m : positive) (e : Z) : Z :=
  match e with
  | Zneg p =>
      let d := 2 ^ Zpos p in
      let half := 2 ^ (Zpos p - 1) in
      if s then - ((Zpos m - half + d - 1) / d) else (Zpos m + half) / d
  | _ => cond_Zopp s (Zpos m * 2 ^ e)
  end.

(** [Math.round]: the nearest integral number, ties towards +infinity; the
    sign of a zero result is the sign of the argument. *)
Definition Math_round (x : number) : number :=
  match x with
  | S754_finite s m e =>
      let n := round_half_up s m e in
      if n =? 0 then S754_zero s else Z2num n
  | _ => x
  end.

End JS.

(** ** Strings and conversions between numbers and strings *)

Module Str.

Open Scope string_scope.
Open Scope Z_scope.

Definition String_endsWith (s suffix : string) : bool :=
  let n := String.length s in
  let k := String.length suffix in
  (k <=? n)%nat && String.eqb (substring (n - k) k s) suffix.

Fixpoint String_includes (s pat : string) : bool :=
  prefix pat s ||
  match s with
  | EmptyString => false
  | String _ r => String_includes r pat
  end.

(** [s.slice(0, -1)]. *)
Definition slice_init (s : string) : string :=
  substring 0 (String.length s - 1) s.

(** The decimal digits of an integer, as [ToString] prints an integral
    number below 10^21. *)
Definition Z_toString (z : Z) : string := NilEmpty.string_of_int (Z.to_int z).

Definition nat_toString (n : nat) : string := Z_toString (Z.of_nat n).

(** *** [parseInt(s)] with no radix argument *)

Definition is_white_space (c : ascii) : bool :=
  let n := N_of_ascii c in
  ((n =? 9) || (n =? 10) || (n =? 11) || (n =? 12) || (n =? 13) || (n =? 32) || (n =? 160))%N.

Fixpoint trim_start (s : string) : string :=
  match s with
  | String c r => if is_white_space c then trim_start r else s
  | EmptyString => s
  end.

Definition digit_value (c : ascii) : option Z :=
  let n := Z.of_N (N_of_ascii c) in
  if (48 <=? n) && (n <=? 57) then Some (n - 48)
  else if (97 <=? n) && (n <=? 122) then Some (n - 87)
  else if (65 <=? n) && (n <=? 90) then Some (n - 55)
  else None.

(** The longest prefix of radix-[radix] digits, as an integer; [acc] is
    [None] until a digit has been read. *)
Fixpoint parse_digits (radix : Z) (s : string) (acc : option Z) : option Z :=
  match s with
  | EmptyString => acc
  | String c r =>
      match digit_value c with
      | Some d =>
          if d <? radix
          then parse_digits radix r (Some (radix * match acc with Some a => a | None => 0 end + d))
          else acc
      | None => acc
      end
  end.

(** The sign and the mathematical integer that [parseInt] reads: leading
    white space is skipped, then a sign, then the prefix [0x] or [0X] of a
    hexadecimal integer, then the longest prefix of digits.  The result is
    [None] when no digit is read. *)
Definition parse_integer (s : string) : option (bool * Z) :=
  let s1 := trim_start s in
  let '(neg, s2) :=
    match s1 with
    | String "-"%char r => (true, r)
    | String "+"%char r => (false, r)
    | _ => (false, s1)
    end in
  let '(radix, s3) :=
    match s2 with
    | String "0"%char (String "x"%char r) => (16, r)
    | String "0"%char (String "X"%char r) => (16, r)
    | _ => (10, s2)
    end in
  match parse_digits radix s3 None with
  | None => None
  | Some n => Some (neg, n)
  end.

(** [parseInt(s)]: NaN when no digit is read, a zero of the sign read when
    the integer is zero, and else the binary64 value nearest to the signed
    integer (ties to even, an infinity beyond the largest finite value).
    Every digit counts: an implementation may ignore the decimal digits
    after the twentieth significant one, the model does not. *)
Definition parseInt (s : string) : JS.number :=
  match parse_integer s with
  | None => JS.NaN
  | Some (neg, n) =>
      if n =? 0 then S754_zero neg else JS.Z2num (if neg then - n else n)
  end.

(** *** [Number::toString] and [Number.prototype.toFixed] *)

Fixpoint zeros (n : nat) : string :=
  match n with
  | O => ""
  | S k => String "0"%char (zeros k)
  end.

(** Comparison of [a * 10^j] with the rational [n / d] ([d > 0]). *)
Definition cmp_dec (a j n d : Z) : comparison :=
  Z.compare (a * 10 ^ Z.max j 0 * d) (n * 10 ^ Z.max (- j) 0).

(** The least [n] from [n0] on with [xn / xd < 10^n]. *)
Fixpoint decimal_exponent (fuel : nat) (n0 xn xd : Z) : Z :=
  match fuel with
  | O => n0
  | S f =>
      match cmp_dec 1 n0 xn xd with
      | Gt => n0
      | _ => decimal_exponent f (n0 + 1) xn xd
      end
  end.

(** The shortest decimal that reads back as the binary64 value [m * 2^e]:
    integers [(s, n)] with [s] of [k] digits, [k] least, such that
    [s * 10^(n - k)] lies in the rounding interval of the value; among two
    candidates the nearer one, and the even one on a tie. *)
Fixpoint shortest_digits (fuel : nat) (k : Z) (n0 xn lo hi d : Z) (incl : bool) : Z * Z :=
  let j := n0 - k in
  let s_lo := (xn * 10 ^ Z.max (- j) 0) / (d * 10 ^ Z.max j 0) in
  let s_hi := s_lo + 1 in
  let inside a :=
    match cmp_dec a j lo d, cmp_dec a j hi d with
    | Gt, Lt => true
    | Eq, Lt | Gt, Eq => incl
    | _, _ => false
    end in
  let pick s := if s =? 10 ^ k then (s / 10, n0 + 1) else (s, n0) in
  match fuel with
  | O => pick s_lo
  | S f =>
      match inside s_lo, inside s_hi with
      | true, true =>
          match cmp_dec (s_lo + s_hi) j (2 * xn) d with
          | Gt => pick s_lo
          | Lt => pick s_hi
          | Eq => if Z.even s_lo then pick s_lo else pick s_hi
          end
      | true, false => pick s_lo
      | false, true => pick s_hi
      | false, false => shortest_digits f (k + 1) n0 xn lo hi d incl
      end
  end.

(** [Number::toString] of the positive finite value [m * 2^e]. *)
Definition positive_toString (m : positive) (e : Z) : string :=
  let p := e - 2 in
  let up := 2 ^ Z.max p 0 in
  let d := 2 ^ Z.max (- p) 0 in
  let xn := 4 * Zpos m * up in
  let lo := (if (Zpos m =? 2 ^ 52) && (-1074 <? e) then 4 * Zpos m - 1 else 4 * Zpos m - 2) * up in
  let hi := (4 * Zpos m + 2) * up in
  let n0 := decimal_exponent 700 (-330) xn d in
  let '(s, n) := shortest_digits 17 1 n0 xn lo hi d (Z.even (Zpos m)) in
  let digits := Z_toString s in
  let k := Z.of_nat (String.length digits) in
  if (k <=? n) && (n <=? 21) then digits ++ zeros (Z.to_nat (n - k))
  else if (0 <? n) && (n <=? 21) then
    substring 0 (Z.to_nat n) digits ++ "." ++ substring (Z.to_nat n) (Z.to_nat (k - n)) digits
  else if (-6 <? n) && (n <=? 0) then "0." ++ zeros (Z.to_nat (- n)) ++ digits
  else
    let ex := n - 1 in
    let tail := "e" ++ (if ex <? 0 then "-" else "+") ++ Z_toString (Z.abs ex) in
    if k =? 1 then digits ++ tail
    else substring 0 1 digits ++ "." ++ substring 1 (Z.to_nat (k - 1)) digits ++ tail.

Definition Number_toString (x : JS.number) : string :=
  match x with
  | S754_nan => "NaN"
  | S754_zero _ => "0"
  | S754_infinity false => "Infinity"
  | S754_infinity true => "-Infinity"
  | S754_finite s m e => (if s then "-" else "") ++ positive_toString m e
  end.

(** The integer [n] printed with [f] digits after the decimal point. *)
Definition fixed_digits (f : nat) (n : Z) : string :=
  let digits := Z_toString n in
  let padded := zeros (S f - String.length digits) ++ digits in
  let k := String.length padded in
  match f with
  | O => padded
  | _ => substring 0 (k - f) padded ++ "." ++ substring (k - f) f padded
  end.

(** [x.toFixed(f)]. *)
Definition toFixed (x : JS.number) (f : nat) : string :=
  match x with
  | S754_finite s m e =>
      let n := Zpos m * 2 ^ Z.max e 0 in
      let d := 2 ^ Z.max (- e) 0 in
      (if s then "-" else "") ++
      (if 10 ^ 21 * d <=? n then positive_toString m e
       else fixed_digits f ((2 * n * 10 ^ Z.of_nat f + d) / (2 * d)))
  | S754_zero _ => fixed_digits f 0
  | _ => Number_toString x
  end.

End Str.

(** ** The seeded generator [mulberry32] *)

Module Prng.

(** 32-bit conversions and operators of JavaScript on integral numbers. *)
Definition ToInt32 (z : Z) : Z := (z + 2 ^ 31) mod 2 ^ 32 - 2 ^ 31.
Definition ToUint32 (z : Z) : Z := z mod 2 ^ 32.

Definition bit_or (x y : Z) : Z := Z.lor (ToInt32 x) (ToInt32 y).
Definition bit_xor (x y : Z) : Z := Z.lxor (ToInt32 x) (ToInt32 y).
Definition ushr (x n : Z) : Z := Z.shiftr (ToUint32 x) (n mod 32).
Definition Math_imul (x y : Z) : Z := ToInt32 (ToUint32 x * ToUint32 y).

(** One call of the closure returned by [mulberry32]: from the cell [a] to
    the number returned and the new content of the cell. *)
Definition mulberry32_next (a : Z) : JS.number * Z :=
  let a := bit_or a 0 in
  let a := bit_or (a + 1831565813) 0 in
  let t := Math_imul (bit_xor a (ushr a 15)) (bit_or 1 a) in
  let t := bit_xor (t + Math_imul (bit_xor t (ushr t 7)) (bit_or 61 t)) t in
  (JS.div (JS.Z2num (ushr (bit_xor t (ushr t 14)) 0)) (JS.Z2num 4294967296), a).

(** [mulberry32(seed)]: the initial content of the cell. *)
Definition mulberry32 (seed : Z) : Z := seed.

End Prng.

(** The cells of the closures returned by [mulberry32], all in one store:
    each call of [mulberry32] allocates a cell, and a call of the closure
    reads and writes the cell of that closure. *)
Module Cells.

Definition store := list Z.

Definition read (c : nat) (s : store) : Z := nth c s 0.

Fixpoint write (c : nat) (a : Z) (s : store) : store :=
  match s, c with
  | [], _ => []
  | _ :: r, O => a :: r
  | x :: r, S c' => x :: write c' a r
  end.

(** [mulberry32(seed)]: the closure returned is known by its cell. *)
Definition mulberry32 (seed : Z) (s : store) : nat * store :=
  (List.length s, s ++ [seed]).

(** One call [random()] of the closure of cell [c]. *)
Definition random (c : nat) (s : store) : JS.number * store :=
  let '(r, a) := Prng.mulberry32_next (read c s) in
  (r, write c a s).

End Cells.

(** ** Data model *)

Inductive ForecastVariable :=
  | temperature | salinity | ph | oxygen | chlorophyll
  | nitrate | bbp700 | cdom | downwelling_par.

Definition ForecastVariable_eqb (a b : ForecastVariable) : bool :=
  match a, b with
  | temperature, temperature | salinity, salinity | ph, ph | oxygen, oxygen
  | chlorophyll, chlorophyll | nitrate, nitrate | bbp700, bbp700 | cdom, cdom
  | downwelling_par, downwelling_par => true
  | _, _ => false
  end.

Definition ARGO_RANGES (v : ForecastVariable) : JS.number * JS.number :=
  match v with
  | temperature => (JS.dec 2651 2, JS.dec 2927 2)
  | salinity => (JS.dec 3528 2, JS.dec 3570 2)
  | ph => (JS.dec 79297 4, JS.dec 80356 4)
  | oxygen => (JS.dec 54508 4, JS.dec 61149 4)
  | chlorophyll => (JS.dec 94599 5, JS.dec 127193 5)
  | nitrate => (JS.dec 163915 5, JS.dec 208097 5)
  | bbp700 => (JS.dec 3708 6, JS.dec 24895 6)
  | cdom => (JS.dec 25337 5, JS.dec 31673 5)
  | downwelling_par => (JS.dec 16858 2, JS.dec 22657 2)
  end.

Inductive PointType := historical | forecast.

Record ForecastDataPoint := {
  day : string;
  value : JS.number;
  type : PointType;
  confidence : option (JS.number * JS.number)
}.

Record ForecastStats := {
  stats_min : JS.number;
  stats_max : JS.number;
  stats_trend : JS.number;
  stats_confidence : JS.number;
  stats_narrative : string
}.

Record ForecastResult := {
  variable : ForecastVariable;
  data : list ForecastDataPoint;
  stats : ForecastStats;
  range : JS.number * JS.number
}.

Record ForecastParams := {
  trainingDays : nat;
  horizon : string;
  variables : list ForecastVariable
}.

Record ForecastData := {
  params : ForecastParams;
  results : list ForecastResult;
  narrative : string
}.

(** ** The generators *)

Declare Scope js_scope.
Delimit Scope js_scope with js.
Infix "+" := JS.add : js_scope.
Infix "-" := JS.sub : js_scope.
Infix "*" := JS.mul : js_scope.
Infix "/" := JS.div : js_scope.

(** Integer literals and decimal literals [m / 10^k] of the source. *)
Abbreviation int := JS.Z2num.
Abbreviation dec := JS.dec.

Definition getHorizonInDays (horizon : string) : JS.number :=
  if Str.String_endsWith horizon "d" then Str.parseInt (Str.slice_init horizon)
  else if Str.String_includes horizon "month" then int 30
  else int 30.

(** The integer that a number holds: none for NaN, for an infinity and for
    a number with a fractional part. *)
Definition integer_value (x : JS.number) : option Z :=
  match x with
  | S754_zero _ => Some 0
  | S754_finite s m e =>
      match e with
      | Zneg k =>
          if Zpos m mod 2 ^ Zpos k =? 0
          then Some (cond_Zopp s (Zpos m / 2 ^ Zpos k))
          else None
      | _ => Some (cond_Zopp s (Zpos m * 2 ^ e))
      end
  | _ => None
  end.

(** The number of iterations of [for (let i = 0; i < h; i++)], the index
    [i] being an integer: the number of naturals below [h], none when [h] is
    NaN, zero or negative.  A loop bounded by [+Infinity] does not end; the
    model follows it for 2^1024 iterations, beyond every finite bound. *)
Definition iterations (h : JS.number) : nat :=
  match h with
  | S754_finite false m e =>
      match e with
      | Zneg k => Z.to_nat ((Zpos m + 2 ^ Zpos k - 1) / 2 ^ Zpos k)
      | _ => Z.to_nat (Zpos m * 2 ^ e)
      end
  | S754_infinity false => Z.to_nat (2 ^ 1024)
  | _ => O
  end.

Definition clamp (lo hi x : JS.number) : JS.number :=
  JS.Math_max lo (JS.Math_min hi x).

Section Generator.

(** [Math.sin]. *)
Variable Math_sin : JS.number -> JS.number.

Section SingleForecast.

Variable variable0 : ForecastVariable.
Variable params0 : ForecastParams.

Let t : nat := trainingDays params0.
Let T : JS.number := int (Z.of_nat t).
Let min : JS.number := fst (ARGO_RANGES variable0).
Let max : JS.number := snd (ARGO_RANGES variable0).
Let range0 : JS.number := (max - min)%js.

(** The body of the historical loop at index [i], from the cell [a]. *)
Definition historical_point (i : nat) (a : Z) : ForecastDataPoint * Z :=
  let I := int (Z.of_nat i) in
  let sinusoidal :=
    (Math_sin (I / int 365 * JS.Math_PI * int 2) * dec 25 2
     + Math_sin (I / int 30 * JS.Math_PI * int 2) * dec 25 2)%js in
  let '(r, a) := Prng.mulberry32_next a in
  let noise := ((r - dec 5 1) * dec 1 1)%js in
  let normalizedValue := (dec 5 1 + dec 5 1 * (sinusoidal + noise))%js in
  let v := (min + normalizedValue * range0)%js in
  ({| day := "D-" ++ Str.nat_toString (t - i);
      value := clamp min max v;
      type := historical;
      confidence := None |}, a).

(** [n] iterations of the historical loop from index [i]. *)
Fixpoint historical_loop (n i : nat) (a : Z) : list ForecastDataPoint * Z :=
  match n with
  | O => ([], a)
  | S n' =>
      let '(p, a) := historical_point i a in
      let '(ps, a) := historical_loop n' (S i) a in
      (p :: ps, a)
  end.

(** [xs[i]?.value] for an integral index [i]. *)
Definition value_at (xs : list ForecastDataPoint) (i : Z) : option JS.number :=
  if i <? 0 then None else option_map value (nth_error xs (Z.to_nat i)).

Definition seasonalAmplitude : JS.number :=
  if (30 <? t)%nat then (T / int 100 * dec 5 1)%js else int 0.

(** The factor [(1 - trainingDays / 120)]. *)
Definition shrink : JS.number := (int 1 - T / int 120)%js.

Definition confidenceRange : JS.number := (range0 * dec 15 2 * shrink)%js.

(** The body of the forecast loop at index [i]. *)
Definition forecast_point (historicalData : list ForecastDataPoint) (trend : JS.number)
    (i : nat) (lastVal : JS.number) (a : Z) : ForecastDataPoint * Z :=
  let seasonalVal :=
    if (t <=? 20)%nat then
      (match value_at historicalData
               (Z.of_nat (List.length historicalData) - (30 - Z.of_nat i mod 30)) with
       | Some v => v
       | None => lastVal
       end - lastVal)%js
    else
      (Math_sin ((int (Z.of_nat (t + i))) / int 365 * JS.Math_PI * int 2)
       * range0 * dec 1 1 * seasonalAmplitude)%js in
  let '(r, a) := Prng.mulberry32_next a in
  let uncertaintyNoise := ((r - dec 5 1) * range0 * dec 2 1 * shrink)%js in
  let nextVal := (lastVal + seasonalVal + trend + uncertaintyNoise)%js in
  let nextVal := clamp min max nextVal in
  let lower := JS.Math_max min (nextVal - confidenceRange)%js in
  let upper := JS.Math_min max (nextVal + confidenceRange)%js in
  ({| day := "D+" ++ Str.nat_toString (i + 1);
      value := nextVal;
      type := forecast;
      confidence := Some (lower, upper) |}, a).

Fixpoint forecast_loop (historicalData : list ForecastDataPoint) (trend : JS.number)
    (n i : nat) (lastVal : JS.number) (a : Z) : list ForecastDataPoint :=
  match n with
  | O => []
  | S n' =>
      let '(p, a) := forecast_point historicalData trend i lastVal a in
      p :: forecast_loop historicalData trend n' (S i) (value p) a
  end.

(** [xs[i]] read as a number: [undefined] becomes NaN in arithmetic. *)
Definition number_at (xs : list JS.number) (i : Z) : JS.number :=
  if i <? 0 then JS.NaN else nth (Z.to_nat i) xs JS.NaN.

Definition single_narrative (conf forecastMin forecastMax forecastTrend : JS.number) : string :=
  let c := Str.Number_toString conf in
  ((if (t <=? 20)%nat then
      "High uncertainty (" ++ c ++ "% confidence) due to short training period. Bands are wide. "
    else if (t <=? 50)%nat then
      "Balanced confidence (" ++ c ++ "%) with some seasonal patterns emerging. "
    else
      "Strong confidence (" ++ c ++ "%) with clear seasonal cycle. Bands are narrow. ")
   ++ "Forecast shows values between " ++ Str.toFixed forecastMin 2
   ++ " and " ++ Str.toFixed forecastMax 2 ++ ". "
   ++ (if JS.gtb (JS.Math_abs (forecastTrend * int 100)%js) (dec 1 2) then
         "A " ++ (if JS.gtb forecastTrend (int 0) then "warming" else "cooling")
         ++ " trend of approx. " ++ Str.toFixed forecastTrend 3 ++ "/day is detected."
       else "The trend appears stable."))%string.

Definition generateSingleForecast (seed : Z) : ForecastResult :=
  let random := Prng.mulberry32 seed in
  let horizonDays := getHorizonInDays (horizon params0) in
  let '(historicalData, random) := historical_loop t 0 random in
  let lastVal :=
    match value_at historicalData (Z.of_nat (List.length historicalData) - 1) with
    | Some v => v
    | None => (min + range0 / int 2)%js
    end in
  let '(trend, random) :=
    if (30 <? t)%nat then
      let '(r, a) := Prng.mulberry32_next random in
      (((r - dec 5 1) * (range0 * dec 1 2))%js, a)
    else ((int 0), random) in
  let forecastData :=
    forecast_loop historicalData trend (iterations horizonDays) 0 lastVal random in
  let fullData := historicalData ++ forecastData in
  let forecastSlice := map value forecastData in
  let forecastMin := JS.Math_min_list forecastSlice in
  let forecastMax := JS.Math_max_list forecastSlice in
  let forecastTrend :=
    ((number_at forecastSlice (Z.of_nat (List.length forecastSlice) - 1)
      - number_at forecastSlice 0) / horizonDays)%js in
  let conf := JS.Math_round (T / int 100 * int 80 + int 20)%js in
  {| variable := variable0;
     data := fullData;
     stats := {| stats_min := forecastMin;
                 stats_max := forecastMax;
                 stats_trend := forecastTrend;
                 stats_confidence := conf;
                 stats_narrative := single_narrative conf forecastMin forecastMax forecastTrend |};
     range := (min, max) |}.

(** *** The generator over the store of cells

    The same function, run from a store that holds the cells of the closures
    made so far: the result and the store it leaves. *)

Definition historical_point_cells (random : nat) (i : nat) (s : Cells.store)
    : ForecastDataPoint * Cells.store :=
  let I := int (Z.of_nat i) in
  let sinusoidal :=
    (Math_sin (I / int 365 * JS.Math_PI * int 2) * dec 25 2
     + Math_sin (I / int 30 * JS.Math_PI * int 2) * dec 25 2)%js in
  let '(r, s) := Cells.random random s in
  let noise := ((r - dec 5 1) * dec 1 1)%js in
  let normalizedValue := (dec 5 1 + dec 5 1 * (sinusoidal + noise))%js in
  let v := (min + normalizedValue * range0)%js in
  ({| day := "D-" ++ Str.nat_toString (t - i);
      value := clamp min max v;
      type := historical;
      confidence := None |}, s).

Fixpoint historical_loop_cells (random : nat) (n i : nat) (s : Cells.store)
    : list ForecastDataPoint * Cells.store :=
  match n with
  | O => ([], s)
  | S n' =>
      let '(p, s) := historical_point_cells random i s in
      let '(ps, s) := historical_loop_cells random n' (S i) s in
      (p :: ps, s)
  end.

Definition forecast_point_cells (random : nat) (historicalData : list ForecastDataPoint)
    (trend : JS.number) (i : nat) (lastVal : JS.number) (s : Cells.store)
    : ForecastDataPoint * Cells.store :=
  let seasonalVal :=
    if (t <=? 20)%nat then
      (match value_at historicalData
               (Z.of_nat (List.length historicalData) - (30 - Z.of_nat i mod 30)) with
       | Some v => v
       | None => lastVal
       end - lastVal)%js
    else
      (Math_sin ((int (Z.of_nat (t + i))) / int 365 * JS.Math_PI * int 2)
       * range0 * dec 1 1 * seasonalAmplitude)%js in
  let '(r, s) := Cells.random random s in
  let uncertaintyNoise := ((r - dec 5 1) * range0 * dec 2 1 * shrink)%js in
  let nextVal := (lastVal + seasonalVal + trend + uncertaintyNoise)%js in
  let nextVal := clamp min max nextVal in
  let lower := JS.Math_max min (nextVal - confidenceRange)%js in
  let upper := JS.Math_min max (nextVal + confidenceRange)%js in
  ({| day := "D+" ++ Str.nat_toString (i + 1);
      value := nextVal;
      type := forecast;
      confidence := Some (lower, upper) |}, s).

Fixpoint forecast_loop_cells (random : nat) (historicalData : list ForecastDataPoint)
    (trend : JS.number) (n i : nat) (lastVal : JS.number) (s : Cells.store)
    : list ForecastDataPoint * Cells.store :=
  match n with
  | O => ([], s)
  | S n' =>
      let '(p, s) := forecast_point_cells random historicalData trend i lastVal s in
      let '(ps, s) := forecast_loop_cells random historicalData trend n' (S i) (value p) s in
      (p :: ps, s)
  end.

Definition generateSingleForecast_cells (seed : Z) (s : Cells.store)
    : ForecastResult * Cells.store :=
  let '(random, s) := Cells.mulberry32 seed s in
  let horizonDays := getHorizonInDays (horizon params0) in
  let '(historicalData, s) := historical_loop_cells random t 0 s in
  let lastVal :=
    match value_at historicalData (Z.of_nat (List.length historicalData) - 1) with
    | Some v => v
    | None => (min + range0 / int 2)%js
    end in
  let '(trend, s) :=
    if (30 <? t)%nat then
      let '(r, s) := Cells.random random s in
      (((r - dec 5 1) * (range0 * dec 1 2))%js, s)
    else ((int 0), s) in
  let '(forecastData, s) :=
    forecast_loop_cells random historicalData trend (iterations horizonDays) 0 lastVal s in
  let fullData := historicalData ++ forecastData in
  let forecastSlice := map value forecastData in
  let forecastMin := JS.Math_min_list forecastSlice in
  let forecastMax := JS.Math_max_list forecastSlice in
  let forecastTrend :=
    ((number_at forecastSlice (Z.of_nat (List.length forecastSlice) - 1)
      - number_at forecastSlice 0) / horizonDays)%js in
  let conf := JS.Math_round (T / int 100 * int 80 + int 20)%js in
  ({| variable := variable0;
      data := fullData;
      stats := {| stats_min := forecastMin;
                  stats_max := forecastMax;
                  stats_trend := forecastTrend;
                  stats_confidence := conf;
                  stats_narrative := single_narrative conf forecastMin forecastMax forecastTrend |};
      range := (min, max) |}, s).

End SingleForecast.

Definition nl : string := String "010"%char "".

Definition find_variable (v : ForecastVariable) (rs : list ForecastResult) : option ForecastResult :=
  find (fun r => ForecastVariable_eqb (variable r) v) rs.

Definition generateOverallNarrative (rs : list ForecastResult) (p : ForecastParams) : string :=
  let narrative :=
    ("This forecast for the next **" ++ horizon p ++ "**, based on **"
     ++ Str.nat_toString (trainingDays p)
     ++ " days** of historical data, suggests the following key trends:" ++ nl ++ nl)%string in
  let narrative :=
    match find_variable temperature rs with
    | Some tempResult =>
        (narrative ++ "*   **Temperature:** A "
         ++ (if JS.gtb (stats_trend (stats tempResult)) (int 0)
             then "gradual increase" else "slight decrease")
         ++ " is anticipated, with values remaining within the historical range. Peak temperature is expected around the end of the forecast period." ++ nl)%string
    | None => narrative
    end in
  let narrative :=
    match find_variable chlorophyll rs with
    | Some chloroResult =>
        (narrative ++ "*   **Chlorophyll:** We expect a "
         ++ (if JS.gtb (stats_trend (stats chloroResult)) (int 0)
             then "modest rise" else "slight decline")
         ++ " in chlorophyll, consistent with seasonal patterns. No significant bloom events are forecasted." ++ nl)%string
    | None => narrative
    end in
  let narrative :=
    match find_variable oxygen rs with
    | Some _ =>
        (narrative ++ "*   **Oxygen:** Oxygen levels are projected to remain stable, with minor fluctuations potentially linked to temperature shifts. Overall ocean health appears steady." ++ nl)%string
    | None => narrative
    end in
  let narrative :=
    match find_variable salinity rs with
    | Some salinityResult =>
        if JS.ltb (JS.Math_abs (stats_trend (stats salinityResult))) (dec 1 3) then
          (narrative ++ "*   **Salinity & pH:** Both salinity and pH are expected to show minimal variation, indicating stable chemical conditions." ++ nl)%string
        else narrative
    | None => narrative
    end in
  (narrative ++ nl ++ "**Confidence:** The overall confidence in this forecast is **"
   ++ Str.Number_toString
        (JS.Math_round
           (fold_left (fun acc r => (acc + stats_confidence (stats r))%js) rs (int 0)
            / (int (Z.of_nat (List.length rs))))%js)
   ++ "%**. Longer training periods generally yield higher confidence.")%string.

(** [xs.map((x, index) => f(x, index))], the indices counted from [i]. *)
Fixpoint map_index {A B : Type} (f : A -> nat -> B) (i : nat) (xs : list A) : list B :=
  match xs with
  | [] => []
  | x :: r => f x i :: map_index f (S i) r
  end.

Definition generateAllForecasts (p : ForecastParams) : ForecastData :=
  let rs :=
    map_index
      (fun v index => generateSingleForecast v p (Z.of_nat (trainingDays p + index)))
      0%nat (variables p) in
  let narrative := generateOverallNarrative rs p in
  {| params := p; results := rs; narrative := narrative |}.

End Generator.

(** * Properties *)

(** The arithmetic is never unfolded by simplification: values are computed
    on closed terms only. *)
Arguments JS.add : simpl never.
Arguments JS.sub : simpl never.
Arguments JS.mul : simpl never.
Arguments JS.div : simpl never.
Arguments JS.Z2num : simpl never.
Arguments JS.dec : simpl never.
Arguments JS.Math_max : simpl never.
Arguments JS.Math_min : simpl never.
Arguments JS.Math_round : simpl never.
Arguments JS.Math_abs : simpl never.
Arguments JS.ltb : simpl never.
Arguments JS.gtb : simpl never.
Arguments clamp : simpl never.
Arguments ARGO_RANGES : simpl never.
Arguments Prng.mulberry32_next : simpl never.
Arguments Str.nat_toString : simpl never.
Arguments Str.Number_toString : simpl never.
Arguments Str.toFixed : simpl never.
Arguments Str.parseInt : simpl never.
Arguments single_narrative : simpl never.
Arguments getHorizonInDays : simpl never.
Arguments historical_point : simpl never.
Arguments forecast_point : simpl never.

(** ** Strings *)

Module StrFacts.

Import Str.
Open Scope string_scope.

Lemma substring_0_app (s r : string) :
  substring 0 (String.length s) (s ++ r) = s.
Proof.
  induction s as [|c s IH]; simpl.
  - destruct r; reflexivity.
  - now rewrite IH.
Qed.

Lemma substring_full (r : string) : substring 0 (String.length r) r = r.
Proof. induction r as [|c r IH]; simpl; [reflexivity|now rewrite IH]. Qed.

Lemma substring_skip_app (s r : string) :
  substring (String.length s) (String.length r) (s ++ r) = r.
Proof.
  induction s as [|c s IH]; simpl; [apply substring_full|exact IH].
Qed.

Lemma length_app (s r : string) :
  String.length (s ++ r) = (String.length s + String.length r)%nat.
Proof. induction s as [|c s IH]; simpl; [reflexivity|now rewrite IH]. Qed.

Lemma endsWith_app (s suffix : string) :
  String_endsWith (s ++ suffix) suffix = true.
Proof.
  unfold String_endsWith.
  rewrite length_app.
  replace (String.length s + String.length suffix - String.length suffix)%nat
    with (String.length s) by lia.
  rewrite substring_skip_app, String.eqb_refl, andb_true_r.
  apply Nat.leb_le; lia.
Qed.

Lemma slice_init_app (s : string) (c : ascii) :
  slice_init (s ++ String c "") = s.
Proof.
  unfold slice_init.
  rewrite length_app; simpl.
  replace (String.length s + 1 - 1)%nat with (String.length s) by lia.
  apply substring_0_app.
Qed.

Lemma append_assoc (a b c : string) : (a ++ b) ++ c = a ++ b ++ c.
Proof. induction a as [|x a IH]; simpl; [reflexivity|now rewrite IH]. Qed.

End StrFacts.

(** ** Horizon resolution *)

Lemma getHorizonInDays_d (lead : string) :
  getHorizonInDays (lead ++ "d") = Str.parseInt lead.
Proof.
  unfold getHorizonInDays.
  now rewrite StrFacts.endsWith_app, StrFacts.slice_init_app.
Qed.

Lemma getHorizonInDays_other (h : string) :
  Str.String_endsWith h "d" = false -> getHorizonInDays h = int 30.
Proof.
  unfold getHorizonInDays; intros ->.
  now destruct (Str.String_includes h "month").
Qed.

Lemma to_nat_nonpos (z : Z) : z <= 0 -> Z.to_nat z = 0%nat.
Proof. destruct z; intros H; try reflexivity; lia. Qed.

(** A loop bounded by a number that holds the integer [z] runs [z] times,
    and not at all when [z] is negative. *)
Lemma iterations_integer (h : JS.number) (z : Z) :
  integer_value h = Some z -> iterations h = Z.to_nat z.
Proof.
  destruct h as [s|s| |s m e]; cbn [integer_value iterations]; try discriminate.
  - now intros [= <-].
  - destruct e as [|k|k].
    + intros E. assert (Ez : z = cond_Zopp s (Zpos m * 2 ^ 0)) by congruence.
      subst z. destruct s; cbn [cond_Zopp]; [|reflexivity].
      symmetry. apply to_nat_nonpos. change (2 ^ 0) with 1. lia.
    + intros E. assert (Ez : z = cond_Zopp s (Zpos m * 2 ^ Zpos k)) by congruence.
      subst z. destruct s; cbn [cond_Zopp]; [|reflexivity].
      assert (0 < 2 ^ Zpos k) by (apply Z.pow_pos_nonneg; lia).
      assert (0 < Zpos m * 2 ^ Zpos k) by (apply Z.mul_pos_pos; lia).
      symmetry. apply to_nat_nonpos. lia.
    + assert (Hd : 0 < 2 ^ Zpos k) by (apply Z.pow_pos_nonneg; lia).
      destruct (Z.eqb_spec (Zpos m mod 2 ^ Zpos k) 0) as [E|E]; [|discriminate].
      intros E'. assert (Ez : z = cond_Zopp s (Zpos m / 2 ^ Zpos k)) by congruence.
      subst z.
      pose proof (Z.div_mod (Zpos m) (2 ^ Zpos k) ltac:(lia)) as D. rewrite E in D.
      destruct s; cbn [cond_Zopp].
      * symmetry. apply to_nat_nonpos.
        pose proof (Z.div_pos (Zpos m) (2 ^ Zpos k) ltac:(lia) Hd). lia.
      * f_equal. symmetry. apply (Z.div_unique _ _ _ (2 ^ Zpos k - 1)); [lia|].
        lia.
Qed.

(** ** The shape of the generated series *)

Section Shape.

Variable Math_sin : JS.number -> JS.number.
Variable v : ForecastVariable.
Variable p : ForecastParams.

Abbreviation hist_loop := (historical_loop Math_sin v p).
Abbreviation fore_loop := (forecast_loop Math_sin v p).

Definition historical_label (k : nat) : string := "D-" ++ Str.nat_toString k.
Definition forecast_label (k : nat) : string := "D+" ++ Str.nat_toString k.

Lemma historical_point_shape (i : nat) (a : Z) :
  day (fst (historical_point Math_sin v p i a)) = historical_label (trainingDays p - i)
  /\ type (fst (historical_point Math_sin v p i a)) = historical
  /\ confidence (fst (historical_point Math_sin v p i a)) = None.
Proof.
  unfold historical_point.
  destruct (Prng.mulberry32_next a); cbn [fst day type confidence]; auto.
Qed.

Lemma historical_loop_length (n i : nat) (a : Z) :
  List.length (fst (hist_loop n i a)) = n.
Proof.
  revert i a; induction n as [|n IH]; intros i a; cbn [historical_loop]; [reflexivity|].
  destruct (historical_point Math_sin v p i a) as [q a1].
  specialize (IH (S i) a1).
  destruct (hist_loop n (S i) a1) as [qs a2]; cbn [fst List.length] in *; now rewrite IH.
Qed.

Lemma historical_loop_shape (n i : nat) (a : Z) :
  map (fun q => (type q, day q)) (fst (hist_loop n i a))
  = map (fun k => (historical, historical_label (trainingDays p - k))) (seq i n).
Proof.
  revert i a; induction n as [|n IH]; intros i a; cbn [historical_loop]; [reflexivity|].
  pose proof (historical_point_shape i a) as (Hd & Ht & _).
  destruct (historical_point Math_sin v p i a) as [q a1].
  specialize (IH (S i) a1).
  destruct (hist_loop n (S i) a1) as [qs a2]; cbn [fst map seq] in *.
  now rewrite IH, Hd, Ht.
Qed.

Lemma forecast_point_shape (hd : list ForecastDataPoint) (tr : JS.number)
    (i : nat) (lv : JS.number) (a : Z) :
  day (fst (forecast_point Math_sin v p hd tr i lv a)) = forecast_label (i + 1)
  /\ type (fst (forecast_point Math_sin v p hd tr i lv a)) = forecast.
Proof.
  unfold forecast_point.
  destruct (Prng.mulberry32_next a); cbn [fst day type]; auto.
Qed.

Lemma forecast_loop_length (hd : list ForecastDataPoint) (tr : JS.number)
    (n i : nat) (lv : JS.number) (a : Z) :
  List.length (fore_loop hd tr n i lv a) = n.
Proof.
  revert i lv a; induction n as [|n IH]; intros i lv a; cbn [forecast_loop]; [reflexivity|].
  destruct (forecast_point Math_sin v p hd tr i lv a) as [q a1].
  cbn [List.length]; now rewrite IH.
Qed.

Lemma forecast_loop_shape (hd : list ForecastDataPoint) (tr : JS.number)
    (n i : nat) (lv : JS.number) (a : Z) :
  map (fun q => (type q, day q)) (fore_loop hd tr n i lv a)
  = map (fun k => (forecast, forecast_label (k + 1))) (seq i n).
Proof.
  revert i lv a; induction n as [|n IH]; intros i lv a; cbn [forecast_loop]; [reflexivity|].
  pose proof (forecast_point_shape hd tr i lv a) as (Hd & Ht).
  destruct (forecast_point Math_sin v p hd tr i lv a) as [q a1].
  cbn [fst map seq] in *; now rewrite IH, Hd, Ht.
Qed.

(** The series of a result: the historical loop followed by the forecast
    loop run from some last value, trend and generator state. *)
Lemma data_decomposition (seed : Z) :
  exists tr lv a,
    data (generateSingleForecast Math_sin v p seed)
    = fst (hist_loop (trainingDays p) 0 (Prng.mulberry32 seed))
      ++ fore_loop (fst (hist_loop (trainingDays p) 0 (Prng.mulberry32 seed))) tr
           (iterations (getHorizonInDays (horizon p))) 0 lv a.
Proof.
  unfold generateSingleForecast.
  destruct (hist_loop (trainingDays p) 0 (Prng.mulberry32 seed)) as [hd a1].
  destruct (30 <? trainingDays p)%nat.
  - destruct (Prng.mulberry32_next a1) as [r a2]; cbn [data fst]; eauto.
  - cbn [data fst]; eauto.
Qed.

Lemma data_length (seed : Z) :
  List.length (data (generateSingleForecast Math_sin v p seed))
  = (trainingDays p + iterations (getHorizonInDays (horizon p)))%nat.
Proof.
  destruct (data_decomposition seed) as (tr & lv & a & ->).
  now rewrite length_app, historical_loop_length, forecast_loop_length.
Qed.

End Shape.

(** ** Binary64 arithmetic rounds correctly

    The operations of [SpecFloat] at precision 53 return the float nearest to
    the exact result (ties to even).  This is stated through a relation
    [Rnd r x] between a rational [r] and the float [x] it rounds to; rounding
    is monotone, and the order of valid floats is the order of their values. *)

Module B64.

(** Powers of two, with any integer exponent. *)
Definition P2 (e : Z) : Q := Qpower 2 e.

Lemma P2_pos e : (0 < P2 e)%Q.
Proof. apply Qpower_0_lt; reflexivity. Qed.

Lemma P2_add a b : (P2 (a + b) == P2 a * P2 b)%Q.
Proof. apply Qpower_plus; discriminate. Qed.

Lemma P2_S e : (P2 (e + 1) == 2 * P2 e)%Q.
Proof. rewrite P2_add. change (P2 1) with 2%Q. ring. Qed.

Definition inb (q : Q) (m : Z) (l : location) : Prop :=
  match l with
  | loc_Exact => (q == inject_Z m)%Q
  | loc_Inexact Lt => (inject_Z m < q /\ q < inject_Z m + (1#2))%Q
  | loc_Inexact Eq => (q == inject_Z m + (1#2))%Q
  | loc_Inexact Gt => (inject_Z m + (1#2) < q /\ q < inject_Z m + 1)%Q
  end.

Definition inbr (q : Q) (mrs : shr_record) : Prop :=
  inb q (shr_m mrs) (loc_of_shr_record mrs).

Lemma inject_xO p : (inject_Z (Zpos p~0) == 2 * inject_Z (Zpos p))%Q.
Proof. rewrite Pos2Z.inj_xO, inject_Z_mult. reflexivity. Qed.
Lemma inject_xI p : (inject_Z (Zpos p~1) == 2 * inject_Z (Zpos p) + 1)%Q.
Proof. rewrite Pos2Z.inj_xI, inject_Z_plus, inject_Z_mult. reflexivity. Qed.

Lemma shr_1_inbr (q : Q) (mrs : shr_record) :
  0 <= shr_m mrs -> inbr q mrs -> inbr (q * (1#2)) (shr_1 mrs).
Proof.
  destruct mrs as [m r s]; unfold inbr; cbn [shr_m].
  intros Hm.
  destruct m as [|[p|p|]|p]; try lia;
  destruct r, s; cbn [shr_1 loc_of_shr_record shr_m orb inb];
  try rewrite !inject_xO; try rewrite !inject_xI;
  change (inject_Z 0) with 0%Q; change (inject_Z 1) with 1%Q;
  intros H; try lra.
Qed.

Lemma P2_neg1 : (P2 (-1) == 1#2)%Q.
Proof. reflexivity. Qed.

Lemma P2_nonneg e : 0 <= e -> (P2 e == inject_Z (2 ^ e))%Q.
Proof. intros H. unfold P2. rewrite Zpower_Qpower by assumption. reflexivity. Qed.

Lemma P2_le a b : a <= b -> (P2 a <= P2 b)%Q.
Proof.
  intros H. replace b with (a + (b - a)) by lia.
  rewrite P2_add, (P2_nonneg (b - a)) by lia.
  assert (1 <= inject_Z (2 ^ (b - a)))%Q.
  { change 1%Q with (inject_Z 1). rewrite <- Zle_Qle.
    assert (0 < 2 ^ (b - a)) by (apply Z.pow_pos_nonneg; lia). lia. }
  pose proof (P2_pos a). nra.
Qed.

(** The real [r] seen at the exponent [e]. *)
Definition sc (r : Q) (e : Z) : Q := (r * P2 (- e))%Q.

Lemma sc_add r e n : (sc r (e + n) == sc r e * P2 (- n))%Q.
Proof. unfold sc. replace (- (e + n)) with (- e + - n) by lia. rewrite P2_add. ring. Qed.

Lemma inb_ext q q' m l : (q == q')%Q -> inb q m l -> inb q' m l.
Proof. intros E; destruct l as [|[]]; cbn [inb]; rewrite E; trivial. Qed.

Lemma shr_1_m mrs : 0 <= shr_m mrs -> shr_m (shr_1 mrs) = shr_m mrs / 2.
Proof.
  destruct mrs as [m r s]; cbn [shr_m]; intros Hm.
  destruct m as [|[p|p|]|p]; try lia; cbn [shr_1 shr_m]; try reflexivity.
  - rewrite Pos2Z.inj_xI. apply Z.div_unique with 1; lia.
  - rewrite Pos2Z.inj_xO. apply Z.div_unique with 0; lia.
Qed.

Lemma iter_shr (p : positive) : forall mrs q,
  0 <= shr_m mrs -> inbr q mrs ->
  inbr (q * P2 (- Zpos p)) (iter_pos shr_1 p mrs)
  /\ shr_m (iter_pos shr_1 p mrs) = shr_m mrs / 2 ^ Zpos p.
Proof.
  assert (Hpos : forall t, 0 <= t -> 0 <= t / 2) by (intros; apply Z.div_pos; lia).
  assert (Hpp : forall t k, 0 <= t -> 0 <= t / 2 ^ Zpos k)
    by (intros; apply Z.div_pos; [lia|apply Z.pow_pos_nonneg; lia]).
  induction p as [p IH|p IH|]; intros mrs q Hm Hq; cbn [iter_pos].
  - pose proof (shr_1_inbr q mrs Hm Hq) as H1.
    pose proof (shr_1_m mrs Hm) as E1.
    destruct (IH (shr_1 mrs) _ ltac:(rewrite E1; auto) H1) as [H2 E2].
    destruct (IH (iter_pos shr_1 p (shr_1 mrs)) _ ltac:(rewrite E2, E1; auto) H2) as [H3 E3].
    split.
    + eapply inb_ext; [|exact H3].
      rewrite Pos2Z.inj_xI. replace (- (2 * Zpos p + 1)) with (-1 + (- Zpos p + - Zpos p)) by lia.
      rewrite !P2_add, P2_neg1. ring.
    + assert (Hp2 : 0 < 2 ^ Zpos p) by (apply Z.pow_pos_nonneg; lia).
      replace (Zpos p~1) with (1 + Zpos p + Zpos p) by lia.
      rewrite !Z.pow_add_r by lia. change (2 ^ 1) with 2.
      rewrite E3, E2, E1, !Z.div_div by lia. f_equal; ring.
  - destruct (IH mrs _ Hm Hq) as [H2 E2].
    destruct (IH (iter_pos shr_1 p mrs) _ ltac:(rewrite E2; auto) H2) as [H3 E3].
    split.
    + eapply inb_ext; [|exact H3].
      rewrite Pos2Z.inj_xO. replace (- (2 * Zpos p)) with (- Zpos p + - Zpos p) by lia.
      rewrite !P2_add. ring.
    + assert (Hp2 : 0 < 2 ^ Zpos p) by (apply Z.pow_pos_nonneg; lia).
      replace (Zpos p~0) with (Zpos p + Zpos p) by lia.
      rewrite !Z.pow_add_r by lia.
      rewrite E3, E2, !Z.div_div by lia. f_equal; ring.
  - split; [|rewrite shr_1_m by assumption; reflexivity].
    eapply inb_ext; [|apply shr_1_inbr; eassumption].
    reflexivity.
Qed.

Lemma digits2_pos_spec (p : positive) :
  2 ^ (Zpos (digits2_pos p) - 1) <= Zpos p < 2 ^ Zpos (digits2_pos p).
Proof.
  induction p as [p IH|p IH|]; cbn [digits2_pos]; [| |cbn; lia];
    rewrite Pos2Z.inj_succ;
    replace (Z.succ (Zpos (digits2_pos p)) - 1) with (Zpos (digits2_pos p) - 1 + 1) by lia;
    rewrite Z.pow_succ_r, Z.pow_add_r by lia; change (2 ^ 1) with 2; lia.
Qed.

Lemma Zdigits2_spec (m : Z) : 0 < m -> 2 ^ (Zdigits2 m - 1) <= m < 2 ^ Zdigits2 m.
Proof. destruct m as [|p|p]; try lia; intros _; apply digits2_pos_spec. Qed.

Lemma Zdigits2_nonneg (m : Z) : 0 <= Zdigits2 m.
Proof. destruct m; cbn; lia. Qed.

Abbreviation fexp64 := (fexp 53 1024).

Lemma fexp64_eq e : fexp64 e = Z.max (e - 53) (-1074).
Proof. reflexivity. Qed.

Lemma loc_of_shr_record_of_loc m l : loc_of_shr_record (shr_record_of_loc m l) = l.
Proof. destruct l as [|[]]; reflexivity. Qed.

Lemma shr_m_of_loc m l : shr_m (shr_record_of_loc m l) = m.
Proof. destruct l as [|[]]; reflexivity. Qed.

Lemma shr_fexp_spec m e l r :
  0 <= m -> inb (sc r e) m l -> e <= fexp64 (Zdigits2 m + e) ->
  exists mrs,
    shr_fexp 53 1024 m e l = (mrs, fexp64 (Zdigits2 m + e))
    /\ inbr (sc r (fexp64 (Zdigits2 m + e))) mrs
    /\ shr_m mrs = m / 2 ^ (fexp64 (Zdigits2 m + e) - e).
Proof.
  intros Hm Hin He. unfold shr_fexp, shr.
  remember (fexp64 (Zdigits2 m + e)) as E eqn:HE.
  destruct (E - e) as [|p|p] eqn:Hn; try lia.
  - assert (E = e) by lia; subst e.
    exists (shr_record_of_loc m l). repeat split.
    + unfold inbr. now rewrite loc_of_shr_record_of_loc, shr_m_of_loc.
    + rewrite shr_m_of_loc, Z.div_1_r. reflexivity.
  - assert (HEp : E = e + Zpos p) by lia.
    exists (iter_pos shr_1 p (shr_record_of_loc m l)).
    destruct (iter_shr p (shr_record_of_loc m l) (sc r e)) as [H1 H2].
    + now rewrite shr_m_of_loc.
    + unfold inbr. now rewrite loc_of_shr_record_of_loc, shr_m_of_loc.
    + repeat split.
      * f_equal; lia.
      * eapply inb_ext; [|exact H1]. rewrite HEp, sc_add. reflexivity.
      * rewrite H2, shr_m_of_loc, <- Hn. reflexivity.
Qed.

Lemma canonical_shift m e :
  0 <= m -> e <= fexp64 (Zdigits2 m + e) ->
  let E := fexp64 (Zdigits2 m + e) in
  let m' := m / 2 ^ (E - e) in
  0 <= m' < 2 ^ 53 /\ -1074 <= E /\ (-1074 < E -> 2 ^ 52 <= m').
Proof.
  intros Hm He E m'.
  assert (HE : E = Z.max (Zdigits2 m + e - 53) (-1074)) by reflexivity.
  assert (Hp : 0 < 2 ^ (E - e)) by (apply Z.pow_pos_nonneg; lia).
  assert (Hd := Zdigits2_nonneg m).
  split; [split|split].
  - apply Z.div_pos; lia.
  - apply Z.div_lt_upper_bound; [lia|].
    rewrite <- Z.pow_add_r by lia.
    destruct (Z.eq_dec m 0) as [->|Hm0]; [apply Z.pow_pos_nonneg; lia|].
    eapply Z.lt_le_trans; [apply Zdigits2_spec; lia|].
    apply Z.pow_le_mono_r; lia.
  - lia.
  - intros HEm.
    assert (Hm0 : 0 < m) by (destruct m; cbn in *; lia).
    apply Z.div_le_lower_bound; [lia|].
    rewrite <- Z.pow_add_r by lia.
    eapply Z.le_trans; [|apply Zdigits2_spec; lia].
    apply Z.pow_le_mono_r; lia.
Qed.

Lemma rne_bounds m l : m <= round_nearest_even m l <= m + 1.
Proof. destruct l as [|[]]; cbn; try lia. destruct (Z.even m); lia. Qed.

(** The float of mantissa [M] (at most [2^53]) and exponent [E]. *)
Definition pack (s : bool) (M E : Z) : spec_float :=
  match M with
  | Zpos p =>
      if M =? 2 ^ 53 then
        if E + 1 <=? 971 then S754_finite s (2 ^ 52) (E + 1) else S754_infinity s
      else if E <=? 971 then S754_finite s p E else S754_infinity s
  | Z0 => S754_zero s
  | Zneg _ => S754_nan
  end.

Lemma Zdigits2_le_53 M : 0 < M < 2 ^ 53 -> Zdigits2 M <= 53.
Proof.
  intros H. pose proof (Zdigits2_spec M ltac:(lia)) as [H1 _].
  assert (2 ^ (Zdigits2 M - 1) < 2 ^ 53) by lia.
  apply Z.pow_lt_mono_r_iff in H0; lia.
Qed.

Lemma normalize_pack s M E :
  0 <= M <= 2 ^ 53 -> -1074 <= E ->
  (let '(mrs, e) := shr_fexp 53 1024 M E loc_Exact in
   match shr_m mrs with
   | Z0 => S754_zero s
   | Zpos m => if e <=? 971 then S754_finite s m e else S754_infinity s
   | Zneg _ => S754_nan
   end) = pack s M E.
Proof.
  intros HM HE. unfold shr_fexp, shr.
  destruct (Z.eq_dec M (2 ^ 53)) as [->|Hne].
  - replace (fexp64 (Zdigits2 (2 ^ 53) + E) - E) with 1
      by (rewrite fexp64_eq; change (Zdigits2 (2 ^ 53)) with 54; lia).
    cbn [iter_pos shr_record_of_loc shr_1 shr_m]. reflexivity.
  - destruct M as [|p|p]; try lia.
    + replace (fexp64 (Zdigits2 0 + E) - E) with (Z.max (E - 53) (-1074) - E) by reflexivity.
      destruct (Z.max (E - 53) (-1074) - E) eqn:Hn; try lia; reflexivity.
    + pose proof (Zdigits2_le_53 (Zpos p) ltac:(lia)) as Hd.
      rewrite fexp64_eq.
      destruct (Z.max (Zdigits2 (Zpos p) + E - 53) (-1074) - E) eqn:Hn; try lia;
        cbn [shr_record_of_loc shr_m pack];
        destruct (Z.eqb_spec (Zpos p) (2 ^ 53)); try lia; reflexivity.
Qed.

Definition good (r : Q) (m E : Z) (l : location) : Prop :=
  inb (sc r E) m l /\ 0 <= m < 2 ^ 53 /\ -1074 <= E /\ (-1074 < E -> 2 ^ 52 <= m).

Lemma bra_spec s m e l r :
  0 <= m -> inb (sc r e) m l -> e <= fexp64 (Zdigits2 m + e) ->
  exists E m' l',
    binary_round_aux 53 1024 s m e l = pack s (round_nearest_even m' l') E
    /\ good r m' E l'.
Proof.
  intros Hm Hin He.
  destruct (shr_fexp_spec m e l r Hm Hin He) as (mrs & E1 & H1 & H2).
  destruct (canonical_shift m e Hm He) as (Hb & HE & Hn).
  exists (fexp64 (Zdigits2 m + e)), (shr_m mrs), (loc_of_shr_record mrs).
  split.
  - unfold binary_round_aux. rewrite E1.
    change (Z.sub 1024 53) with 971.
    apply normalize_pack; [|exact HE].
    pose proof (rne_bounds (shr_m mrs) (loc_of_shr_record mrs)). rewrite H2 in *. lia.
  - split; [exact H1|]. rewrite H2. exact (conj Hb (conj HE Hn)).
Qed.

(** ** Monotonicity of rounding *)

Definition fle (x y : spec_float) : Prop := SFleb x y = true.

Lemma inb_floor q m l : inb q m l -> (inject_Z m <= q /\ q < inject_Z m + 1)%Q.
Proof. destruct l as [|[]]; cbn [inb]; intros H; lra. Qed.

Lemma rne_mono q1 q2 m1 l1 m2 l2 :
  inb q1 m1 l1 -> inb q2 m2 l2 -> (q1 <= q2)%Q ->
  round_nearest_even m1 l1 <= round_nearest_even m2 l2.
Proof.
  intros H1 H2 Hq.
  pose proof (inb_floor _ _ _ H1) as F1. pose proof (inb_floor _ _ _ H2) as F2.
  assert (Hm : m1 < m2 + 1).
  { rewrite Zlt_Qlt, inject_Z_plus. change (inject_Z 1) with 1%Q. lra. }
  destruct (Z.eq_dec m1 m2) as [->|Hne].
  - destruct l1 as [|[]], l2 as [|[]]; cbn [inb round_nearest_even] in *;
      try destruct (Z.even m2); try lia; exfalso; lra.
  - pose proof (rne_bounds m1 l1). pose proof (rne_bounds m2 l2). lia.
Qed.

Lemma P2_inv e : (P2 (- e) * P2 e == 1)%Q.
Proof. rewrite <- P2_add. replace (- e + e) with 0 by lia. reflexivity. Qed.

Lemma inb_bounds r E m l :
  inb (sc r E) m l -> (inject_Z m * P2 E <= r /\ r < (inject_Z m + 1) * P2 E)%Q.
Proof.
  intros H. apply inb_floor in H. unfold sc in H.
  pose proof (P2_pos E) as HE. pose proof (P2_pos (- E)) as HE'. pose proof (P2_inv E) as HI.
  assert (Hr : (r == r * P2 (- E) * P2 E)%Q) by (rewrite <- Qmult_assoc, HI; ring).
  split; rewrite Hr at 1.
  - apply Qmult_le_compat_r; [tauto|lra].
  - apply Qmult_lt_compat_r; [lra|tauto].
Qed.

Lemma SFleb_pos m1 e1 m2 e2 :
  fle (S754_finite false m1 e1) (S754_finite false m2 e2)
  <-> e1 < e2 \/ (e1 = e2 /\ (m1 <= m2)%positive).
Proof.
  unfold fle, SFleb, SFcompare.
  destruct (Z.compare_spec e1 e2) as [->|H|H].
  - change (Pos.compare_cont Eq m1 m2) with (Pos.compare m1 m2).
    destruct (Pos.compare_spec m1 m2); split; intros; try discriminate; try lia;
      try reflexivity.
  - split; intros; [lia|reflexivity].
  - split; intros; [discriminate|lia].
Qed.

Lemma pack_not_nan s M E : 0 <= M -> pack s M E <> S754_nan.
Proof.
  intros H; unfold pack; destruct M as [|p|p]; try lia; try discriminate.
  destruct (Z.pos p =? 2 ^ 53), (E + 1 <=? 971), (E <=? 971); discriminate.
Qed.

(** The packed float as a case analysis. *)
Lemma pack_cases M E :
  0 <= M <= 2 ^ 53 ->
  (M = 0 /\ pack false M E = S754_zero false)
  \/ (0 < M < 2 ^ 53 /\ E <= 971 /\ pack false M E = S754_finite false (Z.to_pos M) E)
  \/ (M = 2 ^ 53 /\ E + 1 <= 971 /\ pack false M E = S754_finite false (2 ^ 52) (E + 1))
  \/ (0 < M /\ (971 < E \/ (M = 2 ^ 53 /\ 971 <= E)) /\ pack false M E = S754_infinity false).
Proof.
  intros H. unfold pack. destruct M as [|p|p]; try lia; [now left|].
  destruct (Z.eqb_spec (Zpos p) (2 ^ 53)) as [e|n].
  - destruct (Z.leb_spec (E + 1) 971); [right; right; left|right; right; right]; repeat split;
      try lia.
  - destruct (Z.leb_spec E 971); [right; left|right; right; right]; repeat split; try lia.
Qed.

Lemma pack_mono_aux M1 E1 M2 E2 :
  0 <= M1 <= 2 ^ 53 -> 0 <= M2 <= 2 ^ 53 ->
  (E1 = E2 /\ M1 <= M2) \/ (E1 < E2 /\ 2 ^ 52 <= M2) ->
  fle (pack false M1 E1) (pack false M2 E2).
Proof.
  intros H1 H2 H.
  destruct (pack_cases M1 E1 H1) as [(A1 & ->)|[(A1 & B1 & ->)|[(A1 & B1 & ->)|(A1 & B1 & ->)]]];
  destruct (pack_cases M2 E2 H2) as [(A2 & ->)|[(A2 & B2 & ->)|[(A2 & B2 & ->)|(A2 & B2 & ->)]]];
    try reflexivity; try (exfalso; lia);
    try (apply SFleb_pos; change (2 ^ 52)%positive with (Z.to_pos (2 ^ 52)); lia).
Qed.

Lemma pack_mono r1 m1 E1 l1 r2 m2 E2 l2 :
  good r1 m1 E1 l1 -> good r2 m2 E2 l2 -> (r1 <= r2)%Q ->
  fle (pack false (round_nearest_even m1 l1) E1) (pack false (round_nearest_even m2 l2) E2).
Proof.
  intros (I1 & B1 & L1 & N1) (I2 & B2 & L2 & N2) Hr.
  pose proof (rne_bounds m1 l1) as R1. pose proof (rne_bounds m2 l2) as R2.
  apply pack_mono_aux; try lia.
  destruct (Z.lt_trichotomy E1 E2) as [Hlt|[->|Hgt]].
  - right; lia.
  - left; split; [reflexivity|].
    eapply rne_mono; [exact I1|exact I2|].
    unfold sc. apply Qmult_le_compat_r; [exact Hr|]. pose proof (P2_pos (- E2)); lra.
  - exfalso.
    apply inb_bounds in I1. apply inb_bounds in I2.
    pose proof (P2_pos E2) as P. pose proof (P2_le (E2 + 1) E1 ltac:(lia)) as PL.
    rewrite P2_S in PL.
    assert (A1 : (inject_Z (2 ^ 52) <= inject_Z m1)%Q) by (rewrite <- Zle_Qle; lia).
    assert (A2 : (inject_Z m2 + 1 <= inject_Z (2 ^ 53))%Q).
    { change 1%Q with (inject_Z 1). rewrite <- inject_Z_plus, <- Zle_Qle. lia. }
    change (inject_Z (2 ^ 52)) with (4503599627370496 # 1)%Q in A1.
    change (inject_Z (2 ^ 53)) with (9007199254740992 # 1)%Q in A2.
    nra.
Qed.

(** ** Correct rounding of a real *)

Definition nonneg (x : spec_float) : Prop :=
  match x with
  | S754_zero _ | S754_finite false _ _ | S754_infinity false => True
  | _ => False
  end.

Lemma pack_nonneg M E : 0 <= M -> nonneg (pack false M E).
Proof.
  intros H; unfold pack; destruct M as [|p|p]; [exact I| |lia].
  destruct (Z.pos p =? 2 ^ 53), (E + 1 <=? 971), (E <=? 971); exact I.
Qed.

Lemma pack_opp s M E : SFopp (pack s M E) = pack (negb s) M E.
Proof.
  unfold pack; destruct M as [|p|p]; try reflexivity.
  destruct (Z.pos p =? 2 ^ 53), (E + 1 <=? 971), (E <=? 971); reflexivity.
Qed.

Lemma SFcompare_opp x y : SFcompare (SFopp x) (SFopp y) = SFcompare y x.
Proof.
  destruct x as [sx|sx| |sx mx ex], y as [sy|sy| |sy my ey]; try destruct sx; try destruct sy;
    cbn [SFopp SFcompare negb]; try reflexivity;
    rewrite (Z.compare_antisym ex ey); destruct (ex ?= ey); cbn [CompOpp]; try reflexivity;
    change (Pos.compare_cont Eq my mx) with (Pos.compare my mx);
    change (Pos.compare_cont Eq mx my) with (Pos.compare mx my);
    rewrite (Pos.compare_antisym mx my); destruct (mx ?= my)%positive; reflexivity.
Qed.

Lemma fle_opp x y : fle (SFopp x) (SFopp y) <-> fle y x.
Proof. unfold fle, SFleb. now rewrite SFcompare_opp. Qed.

Lemma fle_zero_nonneg s x : nonneg x -> fle (S754_zero s) x.
Proof. destruct x as [sx|[]| |[] mx ex]; cbn; intros H; try tauto; reflexivity. Qed.

Lemma fle_neg_nonneg x y : nonneg x -> nonneg y -> fle (SFopp x) y.
Proof.
  destruct x as [sx|[]| |[] mx ex], y as [sy|[]| |[] my ey]; cbn; intros H1 H2; try tauto;
    reflexivity.
Qed.

Definition Rnd (r : Q) (x : spec_float) : Prop :=
  ((r == 0)%Q /\ exists s, x = S754_zero s)
  \/ ((0 < r)%Q /\ exists m E l, good r m E l /\ x = pack false (round_nearest_even m l) E)
  \/ ((r < 0)%Q /\ exists m E l, good (- r) m E l /\ x = pack true (round_nearest_even m l) E).

Lemma good_rne_nonneg r m E l : good r m E l -> 0 <= round_nearest_even m l <= 2 ^ 53.
Proof. intros (_ & B & _). pose proof (rne_bounds m l). lia. Qed.

Theorem Rnd_mono r1 x1 r2 x2 : Rnd r1 x1 -> Rnd r2 x2 -> (r1 <= r2)%Q -> fle x1 x2.
Proof.
  intros [(R1 & s1 & ->)|[(R1 & m1 & E1 & l1 & G1 & ->)|(R1 & m1 & E1 & l1 & G1 & ->)]]
         [(R2 & s2 & ->)|[(R2 & m2 & E2 & l2 & G2 & ->)|(R2 & m2 & E2 & l2 & G2 & ->)]] Hr;
    try (exfalso; lra).
  - reflexivity.
  - apply fle_zero_nonneg, pack_nonneg. apply (good_rne_nonneg _ _ _ _ G2).
  - eapply pack_mono; eassumption.
  - change true with (negb false). rewrite <- pack_opp.
    apply fle_neg_nonneg; cbn; auto. apply pack_nonneg, (good_rne_nonneg _ _ _ _ G1).
  - change true with (negb false). rewrite <- pack_opp.
    apply fle_neg_nonneg; apply pack_nonneg; eapply good_rne_nonneg; eassumption.
  - change true with (negb false). rewrite <- !pack_opp. apply fle_opp.
    eapply pack_mono; try eassumption. lra.
Qed.

Lemma Rnd_not_nan r x : Rnd r x -> x <> S754_nan.
Proof.
  intros [(R1 & s1 & ->)|[(R1 & m1 & E1 & l1 & G1 & ->)|(R1 & m1 & E1 & l1 & G1 & ->)]];
    try discriminate; apply pack_not_nan; apply (good_rne_nonneg _ _ _ _ G1).
Qed.

Lemma Rnd_ext r r' x : (r == r')%Q -> Rnd r x -> Rnd r' x.
Proof.
  intros E [(R1 & H)|[(R1 & m1 & E1 & l1 & (I & B) & ->)|(R1 & m1 & E1 & l1 & (I & B) & ->)]].
  - left; split; [lra|exact H].
  - right; left; split; [lra|]. exists m1, E1, l1; split; [|reflexivity].
    split; [|exact B]. eapply inb_ext; [|exact I]. unfold sc. now rewrite E.
  - right; right; split; [lra|]. exists m1, E1, l1; split; [|reflexivity].
    split; [|exact B]. eapply inb_ext; [|exact I]. unfold sc. now rewrite E.
Qed.

(** ** Valid floats and their values *)

Definition valid (x : spec_float) : Prop := valid_binary 53 1024 x = true.

Definition is_finite (x : spec_float) : Prop :=
  match x with
  | S754_zero _ | S754_finite _ _ _ => True
  | _ => False
  end.

Definition val (x : spec_float) : Q :=
  match x with
  | S754_finite s m e =>
      if s then (- (inject_Z (Zpos m) * P2 e))%Q else (inject_Z (Zpos m) * P2 e)%Q
  | _ => 0%Q
  end.

Lemma Zdigits2_unique M k : 2 ^ (k - 1) <= M < 2 ^ k -> 0 < M -> Zdigits2 M = k.
Proof.
  intros H HM. pose proof (Zdigits2_spec M HM) as H'. pose proof (Zdigits2_nonneg M).
  assert (k - 1 < Zdigits2 M).
  { apply (Z.pow_lt_mono_r_iff 2); lia. }
  assert (Zdigits2 M - 1 < k).
  { destruct (Z.le_gt_cases 0 k) as [Hk|Hk].
    - apply (Z.pow_lt_mono_r_iff 2); lia.
    - rewrite (Z.pow_neg_r 2 k) in H by lia. lia. }
  lia.
Qed.

Lemma valid_finite s m e :
  valid (S754_finite s m e) ->
  Zpos m < 2 ^ 53 /\ -1074 <= e <= 971 /\ (-1074 < e -> 2 ^ 52 <= Zpos m).
Proof.
  unfold valid, valid_binary, bounded, canonical_mantissa.
  rewrite andb_true_iff, Z.eqb_eq, Z.leb_le, fexp64_eq. change (1024 - 53) with 971.
  intros [Hc He].
  pose proof (digits2_pos_spec m) as [D1 D2].
  assert (Hd : Zpos (digits2_pos m) <= 53) by lia.
  split; [|split; [lia|]].
  - eapply Z.lt_le_trans; [exact D2|]. apply Z.pow_le_mono_r; lia.
  - intros Hn. replace (Zpos (digits2_pos m)) with 53 in D1 by lia. exact D1.
Qed.

Lemma finite_valid s m e :
  0 < m < 2 ^ 53 -> -1074 <= e <= 971 -> (-1074 < e -> 2 ^ 52 <= m) ->
  valid (S754_finite s (Z.to_pos m) e).
Proof.
  intros Hm He Hn.
  unfold valid, valid_binary, bounded, canonical_mantissa.
  rewrite andb_true_iff, Z.eqb_eq, Z.leb_le, fexp64_eq. change (1024 - 53) with 971.
  split; [|lia].
  change (Zpos (digits2_pos (Z.to_pos m))) with (Zdigits2 (Zpos (Z.to_pos m))).
  rewrite Z2Pos.id by lia.
  pose proof (Zdigits2_le_53 m Hm) as Hd.
  destruct (Z.eq_dec e (-1074)) as [->|Hne]; [lia|].
  rewrite (Zdigits2_unique m 53); [lia| |lia].
  change (53 - 1) with 52. lia.
Qed.

Lemma pack_valid s r m E l : good r m E l -> valid (pack s (round_nearest_even m l) E).
Proof.
  intros (I & B & L & N). pose proof (rne_bounds m l) as R.
  set (M := round_nearest_even m l) in *.
  unfold pack. destruct M as [|p|p] eqn:HM; try reflexivity.
  destruct (Z.eqb_spec (Zpos p) (2 ^ 53)) as [e|n].
  - destruct (Z.leb_spec (E + 1) 971); [|reflexivity].
    change (2 ^ 52)%positive with (Z.to_pos (2 ^ 52)). apply finite_valid; lia.
  - destruct (Z.leb_spec E 971); [|reflexivity].
    change p with (Z.to_pos (Zpos p)). apply finite_valid; lia.
Qed.

Lemma Rnd_valid r x : Rnd r x -> valid x.
Proof.
  intros [(R1 & s1 & ->)|[(R1 & m1 & E1 & l1 & G1 & ->)|(R1 & m1 & E1 & l1 & G1 & ->)]];
    [reflexivity| |]; eapply pack_valid; eassumption.
Qed.

Lemma sc_val m e : (sc (inject_Z m * P2 e) e == inject_Z m)%Q.
Proof. unfold sc. rewrite <- Qmult_assoc, (Qmult_comm (P2 e)), P2_inv. ring. Qed.

Lemma pos_val m e : (0 < inject_Z (Zpos m) * P2 e)%Q.
Proof.
  pose proof (P2_pos e). assert (0 < inject_Z (Zpos m))%Q by reflexivity. nra.
Qed.

(** A valid finite float is the rounding of its own value. *)
Lemma Rnd_val x : valid x -> is_finite x -> Rnd (val x) x.
Proof.
  destruct x as [s|s| |s m e]; cbn [is_finite]; try tauto; intros Hv _.
  - left; split; [reflexivity|eauto].
  - destruct (valid_finite s m e Hv) as (B & L & N).
    assert (G : good (inject_Z (Zpos m) * P2 e) (Zpos m) e loc_Exact).
    { split; [apply sc_val|]. repeat split; try lia. }
    assert (P : forall s', pack s' (round_nearest_even (Zpos m) loc_Exact) e = S754_finite s' m e).
    { intros s'. cbn [round_nearest_even pack].
      destruct (Z.eqb_spec (Zpos m) (2 ^ 53)); [lia|].
      destruct (Z.leb_spec e 971); [reflexivity|lia]. }
    pose proof (pos_val m e).
    destruct s; cbn [val].
    + right; right; split; [lra|]. exists (Zpos m), e, loc_Exact. split; [|now rewrite P].
      destruct G as (I & G). split; [|exact G].
      eapply inb_ext; [|exact I]. unfold sc. ring.
    + right; left; split; [lra|]. exists (Zpos m), e, loc_Exact. split; [exact G|now rewrite P].
Qed.

Lemma pos_val_le m1 e1 m2 e2 :
  valid (S754_finite false m1 e1) -> valid (S754_finite false m2 e2) ->
  fle (S754_finite false m1 e1) (S754_finite false m2 e2) ->
  (inject_Z (Zpos m1) * P2 e1 <= inject_Z (Zpos m2) * P2 e2)%Q.
Proof.
  intros V1 V2 H. apply SFleb_pos in H.
  destruct (valid_finite _ _ _ V1) as (B1 & L1 & N1).
  destruct (valid_finite _ _ _ V2) as (B2 & L2 & N2).
  destruct H as [Hlt|[-> Hm]].
  - pose proof (P2_pos e1) as P. pose proof (P2_le (e1 + 1) e2 ltac:(lia)) as PL.
    rewrite P2_S in PL.
    assert (A1 : (inject_Z (Zpos m1) <= inject_Z (2 ^ 53))%Q) by (rewrite <- Zle_Qle; lia).
    assert (A2 : (inject_Z (2 ^ 52) <= inject_Z (Zpos m2))%Q) by (rewrite <- Zle_Qle; lia).
    change (inject_Z (2 ^ 52)) with (4503599627370496 # 1)%Q in A2.
    change (inject_Z (2 ^ 53)) with (9007199254740992 # 1)%Q in A1.
    nra.
  - apply Qmult_le_compat_r; [|pose proof (P2_pos e2); lra].
    rewrite <- Zle_Qle. lia.
Qed.

(** The order of valid finite floats is the order of their values. *)
Theorem val_mono x y :
  valid x -> valid y -> is_finite x -> is_finite y -> fle x y -> (val x <= val y)%Q.
Proof.
  destruct x as [sx|sx| |sx mx ex], y as [sy|sy| |sy my ey]; cbn [is_finite]; try tauto;
    intros Vx Vy _ _ H; cbn [val].
  - lra.
  - destruct sy; [discriminate H|]. pose proof (pos_val my ey). lra.
  - destruct sx; [|discriminate H]. pose proof (pos_val mx ex). lra.
  - pose proof (pos_val mx ex). pose proof (pos_val my ey).
    destruct sx, sy; try lra; try discriminate H.
    + change (S754_finite true mx ex) with (SFopp (S754_finite false mx ex)) in H.
      change (S754_finite true my ey) with (SFopp (S754_finite false my ey)) in H.
      apply fle_opp in H. apply pos_val_le in H; [lra|exact Vy|exact Vx].
    + apply pos_val_le; assumption.
Qed.

(** ** The operations round the exact result *)

Definition signed (s : bool) (r : Q) : Q := if s then (- r)%Q else r.

Lemma bra_Rnd s m e l r :
  (0 < r)%Q -> 0 <= m -> inb (sc r e) m l -> e <= fexp64 (Zdigits2 m + e) ->
  Rnd (signed s r) (binary_round_aux 53 1024 s m e l).
Proof.
  intros Hr Hm Hin He.
  destruct (bra_spec s m e l r Hm Hin He) as (E & m' & l' & -> & G).
  destruct s; cbn [signed].
  - right; right; split; [lra|]. exists m', E, l'; split; [|reflexivity].
    destruct G as (I & G); split; [|exact G].
    eapply inb_ext; [|exact I]. unfold sc; ring.
  - right; left; split; [lra|]. exists m', E, l'; split; [exact G|reflexivity].
Qed.

Lemma iter_xO m d : Zpos (Pos.iter xO m d) = Zpos m * 2 ^ Zpos d.
Proof.
  revert m. induction d as [|d IH] using Pos.peano_ind; intros m.
  - cbn [Pos.iter]. rewrite Pos2Z.inj_xO. change (2 ^ 1) with 2. ring.
  - rewrite Pos.iter_succ, Pos2Z.inj_xO, IH, Pos2Z.inj_succ, Z.pow_succ_r by lia. ring.
Qed.

Lemma shl_align_spec m e e' :
  exists mz, shl_align m e e' = (mz, Z.min e e')
             /\ Zpos mz = Zpos m * 2 ^ (e - Z.min e e').
Proof.
  unfold shl_align.
  destruct (e' - e) as [|d|d] eqn:Hd.
  - exists m. replace (Z.min e e') with e by lia. rewrite Z.sub_diag. split; [reflexivity|lia].
  - exists m. replace (Z.min e e') with e by lia. rewrite Z.sub_diag. split; [reflexivity|lia].
  - exists (Pos.iter xO m d). replace (Z.min e e') with e' by lia.
    split; [reflexivity|]. rewrite iter_xO. f_equal. f_equal. lia.
Qed.

Lemma Zdigits2_shift m k : 0 < m -> 0 <= k -> Zdigits2 (m * 2 ^ k) = Zdigits2 m + k.
Proof.
  intros Hm Hk. pose proof (Zdigits2_spec m Hm) as [D1 D2].
  assert (0 < 2 ^ k) by (apply Z.pow_pos_nonneg; lia).
  assert (0 < Zdigits2 m) by (destruct m; cbn in *; lia).
  apply Zdigits2_unique; [|nia].
  replace (Zdigits2 m + k - 1) with (Zdigits2 m - 1 + k) by lia.
  rewrite !Z.pow_add_r by lia. nia.
Qed.

Lemma inject_P2 m k : 0 <= k -> (inject_Z m * P2 k == inject_Z (m * 2 ^ k))%Q.
Proof. intros Hk. rewrite inject_Z_mult, P2_nonneg by assumption. reflexivity. Qed.

Lemma binary_round_Rnd s m e :
  Rnd (signed s (inject_Z (Zpos m) * P2 e)) (binary_round 53 1024 s m e).
Proof.
  unfold binary_round.
  destruct (shl_align_spec m e (fexp64 (Zpos (digits2_pos m) + e))) as (mz & -> & Hmz).
  set (ez := Z.min e (fexp64 (Zpos (digits2_pos m) + e))) in *.
  apply bra_Rnd.
  - apply pos_val.
  - lia.
  - cbn [inb]. unfold sc. rewrite Hmz, <- inject_P2 by lia.
    rewrite <- !Qmult_assoc. apply Qmult_comp; [reflexivity|].
    rewrite <- P2_add. replace (e + - ez) with (e - ez) by lia. reflexivity.
  - rewrite Hmz, Zdigits2_shift by lia.
    replace (Zdigits2 (Zpos m) + (e - ez) + ez) with (Zpos (digits2_pos m) + e)
      by (cbn [Zdigits2]; lia).
    lia.
Qed.

Lemma binary_normalize_Rnd z e sz :
  Rnd (inject_Z z * P2 e) (binary_normalize 53 1024 z e sz).
Proof.
  destruct z as [|m|m]; cbn [binary_normalize].
  - left; split; [rewrite Qmult_0_l; reflexivity|eauto].
  - apply (binary_round_Rnd false).
  - eapply Rnd_ext; [|apply (binary_round_Rnd true)].
    cbn [signed]. change (inject_Z (Zneg m)) with (- inject_Z (Zpos m))%Q. ring.
Qed.


Lemma valid_opp x : valid x -> valid (SFopp x).
Proof. destruct x; cbn; auto. Qed.

Lemma val_opp x : (val (SFopp x) == - val x)%Q.
Proof. destruct x as [s|s| |[] m e]; cbn [SFopp val negb]; ring. Qed.

Lemma aligned_val s m e ez :
  ez <= e ->
  (inject_Z (cond_Zopp s (Zpos (fst (shl_align m e ez)))) * P2 ez == val (S754_finite s m e))%Q.
Proof.
  intros Hz.
  destruct (shl_align_spec m e ez) as (mz & -> & Hmz). cbn [fst].
  replace (Z.min e ez) with ez in Hmz by lia.
  assert (H : (inject_Z (Zpos mz) * P2 ez == inject_Z (Zpos m) * P2 e)%Q).
  { rewrite Hmz, <- inject_P2 by lia. rewrite <- Qmult_assoc, <- P2_add.
    replace (e - ez + ez) with e by lia. reflexivity. }
  destruct s; cbn [cond_Zopp val].
  - change (inject_Z (- Zpos mz)) with (- inject_Z (Zpos mz))%Q. rewrite <- H. ring.
  - exact H.
Qed.

Theorem SFadd_Rnd x y :
  valid x -> valid y -> is_finite x -> is_finite y ->
  Rnd (val x + val y) (SFadd 53 1024 x y).
Proof.
  intros Vx Vy Fx Fy.
  destruct x as [sx|sx| |sx mx ex], y as [sy|sy| |sy my ey]; cbn [is_finite] in *; try tauto.
  - left; split; [cbn; ring|].
    cbn [SFadd]. destruct sx, sy; eauto.
  - eapply Rnd_ext; [|apply (Rnd_val (S754_finite sy my ey)); auto; exact I].
    cbn [val]. ring.
  - eapply Rnd_ext; [|apply (Rnd_val (S754_finite sx mx ex)); auto; exact I].
    cbn [val]. ring.
  - cbn [SFadd].
    eapply Rnd_ext; [|apply binary_normalize_Rnd].
    rewrite inject_Z_plus, Qmult_plus_distr_l, !aligned_val by lia. reflexivity.
Qed.

Theorem SFsub_Rnd x y :
  valid x -> valid y -> is_finite x -> is_finite y ->
  Rnd (val x - val y) (SFsub 53 1024 x y).
Proof.
  intros Vx Vy Fx Fy.
  destruct x as [sx|sx| |sx mx ex], y as [sy|sy| |sy my ey]; cbn [is_finite] in *; try tauto.
  - left; split; [cbn; ring|].
    cbn [SFsub]. destruct sx, sy; eauto.
  - cbn [SFsub].
    eapply Rnd_ext; [|apply (Rnd_val (SFopp (S754_finite sy my ey)));
                       [apply valid_opp; exact Vy|exact I]].
    rewrite val_opp. cbn [val]. ring.
  - eapply Rnd_ext; [|apply (Rnd_val (S754_finite sx mx ex)); auto; exact I].
    cbn [val]. ring.
  - cbn [SFsub].
    eapply Rnd_ext; [|apply binary_normalize_Rnd].
    unfold Z.sub. rewrite inject_Z_plus, inject_Z_opp, Qmult_plus_distr_l.
    rewrite <- !aligned_val with (ez := Z.min ex ey) by lia. ring.
Qed.

Lemma Zdigits2_mul_ge m1 m2 :
  0 < m1 -> 0 < m2 -> Zdigits2 m1 + Zdigits2 m2 - 1 <= Zdigits2 (m1 * m2).
Proof.
  intros H1 H2.
  pose proof (Zdigits2_spec m1 H1) as [A1 _]. pose proof (Zdigits2_spec m2 H2) as [A2 _].
  pose proof (Zdigits2_spec (m1 * m2) ltac:(nia)) as [_ B].
  assert (0 < Zdigits2 m1) by (destruct m1; cbn in *; lia).
  assert (0 < Zdigits2 m2) by (destruct m2; cbn in *; lia).
  pose proof (Zdigits2_nonneg (m1 * m2)).
  assert (2 ^ (Zdigits2 m1 - 1 + (Zdigits2 m2 - 1)) < 2 ^ Zdigits2 (m1 * m2)).
  { rewrite Z.pow_add_r by lia.
    assert (0 < 2 ^ (Zdigits2 m1 - 1)) by (apply Z.pow_pos_nonneg; lia).
    assert (0 < 2 ^ (Zdigits2 m2 - 1)) by (apply Z.pow_pos_nonneg; lia).
    nia. }
  apply Z.pow_lt_mono_r_iff in H4; lia.
Qed.

Lemma valid_digits s m e :
  valid (S754_finite s m e) ->
  e = fexp64 (Zdigits2 (Zpos m) + e) /\ 1 <= Zdigits2 (Zpos m) <= 53.
Proof.
  unfold valid, valid_binary, bounded, canonical_mantissa.
  rewrite andb_true_iff, Z.eqb_eq, Z.leb_le. intros [Hc _].
  split; [symmetry; exact Hc|]. rewrite fexp64_eq in Hc. cbn [Zdigits2]. lia.
Qed.

Theorem SFmul_Rnd x y :
  valid x -> valid y -> is_finite x -> is_finite y ->
  Rnd (val x * val y) (SFmul 53 1024 x y).
Proof.
  intros Vx Vy Fx Fy.
  destruct x as [sx|sx| |sx mx ex], y as [sy|sy| |sy my ey]; cbn [is_finite] in *; try tauto;
    try (left; split; [cbn; ring|cbn [SFmul]; eauto]).
  cbn [SFmul].
  eapply Rnd_ext;
    [|apply (bra_Rnd _ _ _ _ (inject_Z (Zpos (mx * my)) * P2 (ex + ey)))].
  - destruct sx, sy; cbn [xorb signed val];
      rewrite Pos2Z.inj_mul, inject_Z_mult, P2_add; ring.
  - apply pos_val.
  - lia.
  - cbn [inb]. apply sc_val.
  - destruct (valid_digits _ _ _ Vx) as (Ex & Dx).
    destruct (valid_digits _ _ _ Vy) as (Ey & Dy).
    pose proof (Zdigits2_mul_ge (Zpos mx) (Zpos my) ltac:(lia) ltac:(lia)) as D.
    rewrite Pos2Z.inj_mul.
    rewrite fexp64_eq in *. lia.
Qed.

(** *** Division *)

Lemma new_location_spec nb k m (f : Q) :
  0 < nb -> 0 <= k < nb -> (f * inject_Z nb == inject_Z k)%Q ->
  inb (inject_Z m + f) m (new_location nb k).
Proof.
  intros Hnb Hk Hf.
  assert (NB : (0 < inject_Z nb)%Q) by (change 0%Q with (inject_Z 0); rewrite <- Zlt_Qlt; lia).
  assert (K0 : (0 <= inject_Z k)%Q) by (change 0%Q with (inject_Z 0); rewrite <- Zle_Qle; lia).
  assert (KN : (inject_Z k < inject_Z nb)%Q) by (rewrite <- Zlt_Qlt; lia).
  assert (Hcmp : forall c, (2 * k ?= nb) = c ->
            match c with
            | Lt => (2 * inject_Z k < inject_Z nb)%Q
            | Eq => (2 * inject_Z k == inject_Z nb)%Q
            | Gt => (inject_Z nb < 2 * inject_Z k)%Q
            end).
  { intros c <-. change 2%Q with (inject_Z 2). rewrite <- inject_Z_mult.
    destruct (Z.compare_spec (2 * k) nb) as [E|L|G].
    - now rewrite E.
    - rewrite <- Zlt_Qlt; lia.
    - rewrite <- Zlt_Qlt; lia. }
  assert (K1 : k <> 0 -> (0 < inject_Z k)%Q)
    by (intros; change 0%Q with (inject_Z 0); rewrite <- Zlt_Qlt; lia).
  assert (F0 : k = 0 -> (f == 0)%Q) by (intros ->; change (inject_Z 0) with 0%Q in Hf; nra).
  unfold new_location.
  destruct (Z.even nb) eqn:Hev; [unfold new_location_even|unfold new_location_odd];
    (destruct (Z.eqb_spec k 0) as [Hk0|Hk0];
     [specialize (F0 Hk0); cbn [inb]; lra|specialize (K1 Hk0)]).
  - specialize (Hcmp _ eq_refl).
    destruct (2 * k ?= nb); cbv beta iota in Hcmp; cbn [inb]; [|split; nra|split; nra].
    assert (f <= 1 # 2)%Q by nra. assert ((1 # 2) <= f)%Q by nra. lra.
  - assert (Hodd : 2 * k <> nb).
    { intros <-. rewrite Z.even_mul in Hev. discriminate Hev. }
    destruct (Z.compare_spec (2 * k + 1) nb) as [E|L|G]; cbn [inb].
    + assert (2 * inject_Z k < inject_Z nb)%Q
        by (change 2%Q with (inject_Z 2); rewrite <- inject_Z_mult, <- Zlt_Qlt; lia).
      split; nra.
    + assert (2 * inject_Z k < inject_Z nb)%Q
        by (change 2%Q with (inject_Z 2); rewrite <- inject_Z_mult, <- Zlt_Qlt; lia).
      split; nra.
    + assert (inject_Z nb < 2 * inject_Z k)%Q
        by (change 2%Q with (inject_Z 2); rewrite <- inject_Z_mult, <- Zlt_Qlt; lia).
      split; nra.
Qed.

Lemma inject_pos m : 0 < m -> (0 < inject_Z m)%Q.
Proof. intros H. change 0%Q with (inject_Z 0). rewrite <- Zlt_Qlt. exact H. Qed.

Lemma div_core_spec m1 e1 m2 e2 :
  Zdigits2 (Zpos m1) <= 53 ->
  exists q e' l,
    SFdiv_core_binary 53 1024 (Zpos m1) e1 (Zpos m2) e2 = (q, e', l)
    /\ 0 <= q
    /\ inb (sc (inject_Z (Zpos m1) * P2 e1 / (inject_Z (Zpos m2) * P2 e2)) e') q l
    /\ e' <= fexp64 (Zdigits2 q + e').
Proof.
  intros Hd1. unfold SFdiv_core_binary.
  set (d1 := Zdigits2 (Zpos m1)) in *. set (d2 := Zdigits2 (Zpos m2)).
  set (X := d1 + e1 - (d2 + e2)).
  set (e' := Z.min (fexp64 X) (e1 - e2)).
  set (s := e1 - e2 - e').
  assert (Hs : 0 <= s) by (unfold s, e'; lia).
  assert (Hm' : match s with Zpos _ => Z.shiftl (Zpos m1) s | Z0 => Zpos m1 | Zneg _ => 0 end
                = Zpos m1 * 2 ^ s).
  { destruct s as [|p|p] eqn:Es; try lia.
    - apply Z.shiftl_mul_pow2; lia. }
  rewrite Hm'. clear Hm'.
  assert (P2s : 0 < 2 ^ s) by (apply Z.pow_pos_nonneg; lia).
  pose proof (Z_div_mod (Zpos m1 * 2 ^ s) (Zpos m2) ltac:(lia)) as DM.
  destruct (Z.div_eucl (Zpos m1 * 2 ^ s) (Zpos m2)) as [q r].
  destruct DM as [DM Hr].
  pose proof (Zdigits2_spec (Zpos m1) ltac:(lia)) as [A1 B1]. fold d1 in A1, B1.
  pose proof (Zdigits2_spec (Zpos m2) ltac:(lia)) as [A2 B2]. fold d2 in A2, B2.
  assert (D1 : 1 <= d1) by (unfold d1; cbn; lia).
  assert (D2 : 1 <= d2) by (unfold d2; cbn; lia).
  assert (Hq : 0 <= q) by nia.
  exists q, e', (new_location (Zpos m2) r). repeat split; [exact Hq| |].
  - eapply inb_ext; [|apply (new_location_spec (Zpos m2) r q
                                (inject_Z r / inject_Z (Zpos m2))); try lia].
    + unfold sc.
      assert (E : (P2 e1 == P2 e2 * P2 e' * inject_Z (2 ^ s))%Q).
      { rewrite <- P2_nonneg, <- !P2_add by lia. unfold s.
        replace (e2 + e' + (e1 - e2 - e')) with e1 by lia. reflexivity. }
      rewrite E.
      assert (N : (inject_Z (Zpos m1) * inject_Z (2 ^ s)
                   == inject_Z (Zpos m2) * inject_Z q + inject_Z r)%Q).
      { rewrite <- !inject_Z_mult, <- inject_Z_plus, <- DM. reflexivity. }
      pose proof (P2_pos e2). pose proof (P2_pos e').
      assert (I' : (P2 (- e') == / P2 e')%Q) by apply Qpower_opp.
      assert (M2 : (0 < inject_Z (Zpos m2))%Q) by reflexivity.
      rewrite I'.
      transitivity ((inject_Z (Zpos m1) * inject_Z (2 ^ s)) / inject_Z (Zpos m2))%Q.
      * rewrite N. field. lra.
      * field. repeat split; lra.
    + assert (M2 : (0 < inject_Z (Zpos m2))%Q) by reflexivity.
      field. lra.
  - destruct (Z.eq_dec q 0) as [->|Hq0].
    + (* the quotient underflows *)
      assert (Zpos m1 * 2 ^ s < 2 ^ d2) by lia.
      assert (2 ^ (d1 - 1 + s) < 2 ^ d2) by (rewrite Z.pow_add_r by lia; nia).
      apply Z.pow_lt_mono_r_iff in H0; [|lia|lia].
      change (Zdigits2 0) with 0. rewrite fexp64_eq.
      unfold s, e', X in *. rewrite fexp64_eq in *. lia.
    + assert (Hq1 : 0 < q) by lia.
      pose proof (Zdigits2_spec q Hq1) as [A B].
      assert (d1 + s - d2 <= Zdigits2 q).
      { destruct (Z.le_gt_cases (d1 - 1 + s - d2) 0) as [Hle|Hgt].
        - assert (0 < Zdigits2 q) by (destruct q; cbn in *; lia). lia.
        - assert (2 ^ (d1 - 1 + s) < (q + 1) * 2 ^ d2).
          { rewrite Z.pow_add_r by lia. nia. }
          replace (d1 - 1 + s) with (d1 - 1 + s - d2 + d2) in H by lia.
          rewrite Z.pow_add_r in H by lia.
          assert (0 < 2 ^ d2) by (apply Z.pow_pos_nonneg; lia).
          assert (2 ^ (d1 - 1 + s - d2) < q + 1) by nia.
          assert (2 ^ (d1 - 1 + s - d2) < 2 ^ Zdigits2 q) by lia.
          apply Z.pow_lt_mono_r_iff in H2; [lia|lia|].
          pose proof (Zdigits2_nonneg q). lia. }
      unfold s, e', X in *. rewrite !fexp64_eq in *. lia.
Qed.

Definition is_nonzero_finite (x : spec_float) : Prop :=
  match x with
  | S754_finite _ _ _ => True
  | _ => False
  end.

Theorem SFdiv_Rnd x y :
  valid x -> valid y -> is_finite x -> is_nonzero_finite y ->
  Rnd (val x / val y) (SFdiv 53 1024 x y).
Proof.
  intros Vx Vy Fx Fy.
  destruct x as [sx|sx| |sx mx ex], y as [sy|sy| |sy my ey];
    cbn [is_finite is_nonzero_finite] in *; try tauto.
  - left; split; [|cbn [SFdiv]; eauto].
    cbn [val]. unfold Qdiv. ring.
  - cbn [SFdiv].
    destruct (valid_digits _ _ _ Vx) as (_ & Dx).
    destruct (div_core_spec mx ex my ey ltac:(lia)) as (q & e' & l & -> & Hq & Hin & He).
    pose proof (pos_val mx ex) as Px. pose proof (pos_val my ey) as Py.
    assert (Pr : (0 < inject_Z (Zpos mx) * P2 ex / (inject_Z (Zpos my) * P2 ey))%Q)
      by (apply Qlt_shift_div_l; lra).
    eapply Rnd_ext; [|apply (bra_Rnd _ _ _ _ _ Pr Hq Hin He)].
    pose proof (P2_pos ey). assert (0 < inject_Z (Zpos my))%Q by reflexivity.
    destruct sx, sy; cbn [xorb signed val]; field; repeat split; lra.
Qed.

Lemma P2_0 : (P2 0 == 1)%Q.
Proof. reflexivity. Qed.

Theorem Z2num_Rnd z : Rnd (inject_Z z) (binary_normalize 53 1024 z 0 false).
Proof.
  eapply Rnd_ext; [|apply binary_normalize_Rnd]. rewrite P2_0. ring.
Qed.

Lemma Rnd_nonneg r x : Rnd r x -> (0 <= r)%Q -> nonneg x.
Proof.
  intros [(R1 & s1 & ->)|[(R1 & m1 & E1 & l1 & G1 & ->)|(R1 & m1 & E1 & l1 & G1 & ->)]] Hr.
  - exact I.
  - apply pack_nonneg. apply (good_rne_nonneg _ _ _ _ G1).
  - exfalso; lra.
Qed.

Lemma fle_inf x : x <> S754_nan -> fle x (S754_infinity false).
Proof. destruct x as [s|[]| |[] m e]; intros H; try reflexivity. now elim H. Qed.

Lemma fle_refl x : x <> S754_nan -> valid x -> fle x x.
Proof.
  destruct x as [s|[]| |s m e]; intros H V; try reflexivity; [now elim H|].
  unfold fle, SFleb, SFcompare. rewrite Z.compare_refl.
  change (Pos.compare_cont Eq m m) with (Pos.compare m m). rewrite Pos.compare_refl.
  destruct s; reflexivity.
Qed.

Lemma nonneg_not_nan x : nonneg x -> x <> S754_nan.
Proof. destruct x; cbn; intros H; try discriminate; tauto. Qed.

Lemma nonneg_val x : nonneg x -> (0 <= val x)%Q.
Proof.
  destruct x as [s|s| |[] m e]; cbn; intros H; try tauto; try lra.
  pose proof (pos_val m e). lra.
Qed.

(** A unary operation that rounds a monotone real function is monotone on
    the valid non-negative floats, infinity included. *)
Section MonotoneLift.

Variable op : spec_float -> spec_float.
Variable g : Q -> Q.
Hypothesis op_Rnd : forall x, valid x -> is_finite x -> nonneg x -> Rnd (g (val x)) (op x).
Hypothesis op_inf : op (S754_infinity false) = S754_infinity false.
Hypothesis g_mono : forall a b, (0 <= a)%Q -> (a <= b)%Q -> (g a <= g b)%Q.
Hypothesis g_nonneg : forall a, (0 <= a)%Q -> (0 <= g a)%Q.

Lemma lift_closed x : valid x -> nonneg x -> valid (op x) /\ nonneg (op x).
Proof.
  intros V N.
  destruct x as [s|[]| |[] m e]; cbn in N; try tauto;
    try (rewrite op_inf; split; [reflexivity|exact I]);
    (split; [eapply Rnd_valid|eapply Rnd_nonneg]);
    try (apply op_Rnd; [exact V|exact I|exact I]);
    apply g_nonneg, nonneg_val; exact I.
Qed.

Lemma lift_mono x y :
  valid x -> valid y -> nonneg x -> nonneg y -> fle x y -> fle (op x) (op y).
Proof.
  intros Vx Vy Nx Ny H.
  assert (Fin : forall z, valid z -> nonneg z -> z = S754_infinity false \/ is_finite z).
  { intros [s|[]| |[] m e]; cbn; auto; tauto. }
  destruct (Fin y Vy Ny) as [->|Fy].
  - rewrite op_inf. apply fle_inf, nonneg_not_nan. now apply lift_closed.
  - destruct (Fin x Vx Nx) as [->|Fx].
    + destruct y as [s|[]| |[] m e]; cbn in Fy; try tauto; discriminate H.
    + eapply Rnd_mono; [apply op_Rnd; assumption|apply op_Rnd; assumption|].
      apply g_mono; [now apply nonneg_val|now apply val_mono].
Qed.

End MonotoneLift.

(** *** [Math.round] *)

Lemma round_half_up_spec s m e :
  (inject_Z (JS.round_half_up s m e) <= val (S754_finite s m e) + (1 # 2)
   /\ val (S754_finite s m e) + (1 # 2) < inject_Z (JS.round_half_up s m e) + 1)%Q.
Proof.
  unfold JS.round_half_up.
  destruct e as [|p|p].
  - assert (E : (val (S754_finite s m 0) == inject_Z (cond_Zopp s (Zpos m * 2 ^ 0)))%Q).
    { rewrite Z.pow_0_r, Z.mul_1_r. destruct s; cbn [val cond_Zopp]; rewrite P2_0.
      - change (inject_Z (- Zpos m)) with (- inject_Z (Zpos m))%Q. ring.
      - ring. }
    rewrite E. lra.
  - assert (E : (val (S754_finite s m (Zpos p)) == inject_Z (cond_Zopp s (Zpos m * 2 ^ Zpos p)))%Q).
    { destruct s; cbn [val cond_Zopp]; rewrite inject_P2 by lia.
      - rewrite <- inject_Z_opp. reflexivity.
      - reflexivity. }
    rewrite E. lra.
  - set (d := 2 ^ Zpos p). set (half := 2 ^ (Zpos p - 1)).
    assert (Hd : d = 2 * half).
    { unfold d, half. replace (Zpos p) with (Zpos p - 1 + 1) at 1 by lia.
      rewrite Z.pow_add_r by lia. change (2 ^ 1) with 2. ring. }
    assert (Hh : 0 < half) by (apply Z.pow_pos_nonneg; lia).
    assert (V : (inject_Z (Zpos m) * P2 (Zneg p) * inject_Z d == inject_Z (Zpos m))%Q).
    { unfold d. rewrite <- P2_nonneg by lia. rewrite <- Qmult_assoc.
      change (Zneg p) with (- Zpos p). rewrite P2_inv. ring. }
    assert (D : (inject_Z d == 2 * inject_Z half)%Q)
      by (rewrite Hd, inject_Z_mult; reflexivity).
    assert (H0 : (0 < inject_Z half)%Q) by (apply inject_pos; exact Hh).
    destruct s; cbn [val].
    + pose proof (Z.div_mod (Zpos m - half + d - 1) d ltac:(lia)) as DM.
      pose proof (Z.mod_pos_bound (Zpos m - half + d - 1) d ltac:(lia)) as MB.
      set (q := (Zpos m - half + d - 1) / d) in *.
      assert (L : d * q + half < Zpos m + d) by lia.
      assert (U : Zpos m <= d * q + half) by lia.
      rewrite Zlt_Qlt in L. rewrite Zle_Qle in U.
      repeat rewrite inject_Z_plus in L. repeat rewrite inject_Z_plus in U.
      rewrite inject_Z_mult in L, U.
      rewrite inject_Z_opp.
      set (M := inject_Z (Zpos m)) in *. set (P := P2 (Zneg p)) in *.
      set (Dq := inject_Z d) in *. set (Hq := inject_Z half) in *. set (Qq := inject_Z q) in *.
      clearbody M P Dq Hq Qq.
      split.
      * apply (Qmult_le_l _ _ Dq); [lra|]. lra.
      * apply (Qmult_lt_l _ _ Dq); [lra|]. lra.
    + pose proof (Z.div_mod (Zpos m + half) d ltac:(lia)) as DM.
      pose proof (Z.mod_pos_bound (Zpos m + half) d ltac:(lia)) as MB.
      set (q := (Zpos m + half) / d) in *.
      assert (L : d * q <= Zpos m + half) by lia.
      assert (U : Zpos m + half < d * q + d) by lia.
      rewrite Zlt_Qlt in U. rewrite Zle_Qle in L.
      repeat rewrite inject_Z_plus in L. repeat rewrite inject_Z_plus in U.
      rewrite inject_Z_mult in L, U.
      set (M := inject_Z (Zpos m)) in *. set (P := P2 (Zneg p)) in *.
      set (Dq := inject_Z d) in *. set (Hq := inject_Z half) in *. set (Qq := inject_Z q) in *.
      clearbody M P Dq Hq Qq.
      split.
      * apply (Qmult_le_l _ _ Dq); [lra|]. lra.
      * apply (Qmult_lt_l _ _ Dq); [lra|]. lra.
Qed.

(** The integer nearest to a real, ties towards +infinity. *)
Definition nearest_up (v : Q) : Q := inject_Z (Qfloor (v + (1 # 2))).

Lemma round_half_up_nearest s m e :
  inject_Z (JS.round_half_up s m e) = nearest_up (val (S754_finite s m e)).
Proof.
  unfold nearest_up. f_equal.
  destruct (round_half_up_spec s m e) as [L U].
  set (y := (val (S754_finite s m e) + (1 # 2))%Q) in *.
  pose proof (Qfloor_le y) as FL. pose proof (Qlt_floor y) as FU.
  rewrite inject_Z_plus in FU. change (inject_Z 1) with 1%Q in FU.
  assert (JS.round_half_up s m e < Qfloor y + 1).
  { rewrite Zlt_Qlt, inject_Z_plus. change (inject_Z 1) with 1%Q. lra. }
  assert (Qfloor y < JS.round_half_up s m e + 1).
  { rewrite Zlt_Qlt, inject_Z_plus. change (inject_Z 1) with 1%Q. lra. }
  lia.
Qed.

Lemma Math_round_Rnd x :
  is_finite x -> Rnd (nearest_up (val x)) (JS.Math_round x).
Proof.
  destruct x as [s|s| |s m e]; cbn [is_finite]; try tauto; intros _.
  - left; split; [reflexivity|unfold JS.Math_round; eauto].
  - rewrite <- round_half_up_nearest. unfold JS.Math_round.
    destruct (Z.eqb_spec (JS.round_half_up s m e) 0) as [->|Hn].
    + left; split; [reflexivity|eauto].
    + apply Z2num_Rnd.
Qed.

(** ** Monotone operations on non-negative floats *)

Lemma nearest_up_mono a b : (0 <= a)%Q -> (a <= b)%Q -> (nearest_up a <= nearest_up b)%Q.
Proof.
  intros _ H. unfold nearest_up. rewrite <- Zle_Qle. apply Qfloor_resp_le. lra.
Qed.

Lemma nearest_up_nonneg a : (0 <= a)%Q -> (0 <= nearest_up a)%Q.
Proof.
  intros H. unfold nearest_up. change 0%Q with (inject_Z (Qfloor 0)).
  rewrite <- Zle_Qle. apply Qfloor_resp_le. lra.
Qed.

Lemma Math_round_mono x y :
  valid x -> valid y -> nonneg x -> nonneg y -> fle x y ->
  fle (JS.Math_round x) (JS.Math_round y).
Proof.
  apply (lift_mono JS.Math_round nearest_up).
  - intros z _ Fz _. now apply Math_round_Rnd.
  - reflexivity.
  - exact nearest_up_mono.
  - exact nearest_up_nonneg.
Qed.

Section PositiveConstant.

Variables (mc : positive) (ec : Z).
Let c := S754_finite false mc ec.
Hypothesis Vc : valid c.

Let vc_pos : (0 < val c)%Q.
Proof. apply pos_val. Qed.

Lemma div_pos_closed x : valid x -> nonneg x -> valid (JS.div x c) /\ nonneg (JS.div x c).
Proof.
  apply (lift_closed (fun x => JS.div x c) (fun v => v / val c)%Q).
  - intros z Vz Fz _. apply SFdiv_Rnd; auto. exact I.
  - reflexivity.
  - intros a Ha. apply Qle_shift_div_l; [exact vc_pos|lra].
Qed.

Lemma div_pos_mono x y :
  valid x -> valid y -> nonneg x -> nonneg y -> fle x y -> fle (JS.div x c) (JS.div y c).
Proof.
  apply (lift_mono (fun x => JS.div x c) (fun v => v / val c)%Q).
  - intros z Vz Fz _. apply SFdiv_Rnd; auto. exact I.
  - reflexivity.
  - intros a b _ Hab. unfold Qdiv. apply Qmult_le_compat_r; [exact Hab|].
    apply Qlt_le_weak, Qinv_lt_0_compat, vc_pos.
  - intros a Ha. apply Qle_shift_div_l; [exact vc_pos|lra].
Qed.

Lemma mul_pos_closed x : valid x -> nonneg x -> valid (JS.mul x c) /\ nonneg (JS.mul x c).
Proof.
  apply (lift_closed (fun x => JS.mul x c) (fun v => v * val c)%Q).
  - intros z Vz Fz _. apply SFmul_Rnd; auto. exact I.
  - reflexivity.
  - intros a Ha. pose proof vc_pos. nra.
Qed.

Lemma mul_pos_mono x y :
  valid x -> valid y -> nonneg x -> nonneg y -> fle x y -> fle (JS.mul x c) (JS.mul y c).
Proof.
  apply (lift_mono (fun x => JS.mul x c) (fun v => v * val c)%Q).
  - intros z Vz Fz _. apply SFmul_Rnd; auto. exact I.
  - reflexivity.
  - intros a b _ Hab. pose proof vc_pos. nra.
  - intros a Ha. pose proof vc_pos. nra.
Qed.

Lemma add_pos_closed x : valid x -> nonneg x -> valid (JS.add x c) /\ nonneg (JS.add x c).
Proof.
  apply (lift_closed (fun x => JS.add x c) (fun v => v + val c)%Q).
  - intros z Vz Fz _. apply SFadd_Rnd; auto. exact I.
  - reflexivity.
  - intros a Ha. pose proof vc_pos. lra.
Qed.

Lemma add_pos_mono x y :
  valid x -> valid y -> nonneg x -> nonneg y -> fle x y -> fle (JS.add x c) (JS.add y c).
Proof.
  apply (lift_mono (fun x => JS.add x c) (fun v => v + val c)%Q).
  - intros z Vz Fz _. apply SFadd_Rnd; auto. exact I.
  - reflexivity.
  - intros a b _ Hab. lra.
  - intros a Ha. pose proof vc_pos. lra.
Qed.

End PositiveConstant.

Lemma Z2num_closed (z : Z) : 0 <= z -> valid (JS.Z2num z) /\ nonneg (JS.Z2num z).
Proof.
  intros Hz. split.
  - eapply Rnd_valid, Z2num_Rnd.
  - eapply Rnd_nonneg; [apply Z2num_Rnd|].
    change 0%Q with (inject_Z 0). rewrite <- Zle_Qle. exact Hz.
Qed.

Lemma Z2num_mono (a b : Z) : a <= b -> fle (JS.Z2num a) (JS.Z2num b).
Proof.
  intros H. eapply Rnd_mono; [apply Z2num_Rnd|apply Z2num_Rnd|].
  rewrite <- Zle_Qle. exact H.
Qed.

(** ** Order facts *)

Lemma SFcompare_antisym x y :
  SFcompare y x = option_map CompOpp (SFcompare x y).
Proof.
  destruct x as [sx|sx| |sx mx ex], y as [sy|sy| |sy my ey]; try destruct sx; try destruct sy;
    cbn [SFcompare option_map CompOpp]; try reflexivity;
    rewrite (Z.compare_antisym ex ey); destruct (ex ?= ey); cbn [CompOpp]; try reflexivity;
    change (Pos.compare_cont Eq my mx) with (Pos.compare my mx);
    change (Pos.compare_cont Eq mx my) with (Pos.compare mx my);
    rewrite (Pos.compare_antisym mx my); destruct (mx ?= my)%positive; reflexivity.
Qed.

Definition fin (x : spec_float) : Prop := valid x /\ is_finite x.

Lemma fin_compare x y : is_finite x -> is_finite y -> SFcompare x y <> None.
Proof.
  destruct x as [sx|sx| |sx mx ex], y as [sy|sy| |sy my ey]; cbn; try tauto; discriminate.
Qed.

Lemma fle_total x y : is_finite x -> is_finite y -> fle x y \/ fle y x.
Proof.
  intros Fx Fy. unfold fle, SFleb. rewrite (SFcompare_antisym x y).
  pose proof (fin_compare x y Fx Fy).
  destruct (SFcompare x y) as [[]|]; cbn; auto; congruence.
Qed.

Lemma fle_trans x y z : fin x -> fin y -> fin z -> fle x y -> fle y z -> fle x z.
Proof.
  intros [Vx Fx] [Vy Fy] [Vz Fz] H1 H2.
  eapply Rnd_mono; [apply Rnd_val; eassumption|apply Rnd_val; eassumption|].
  apply val_mono in H1; auto. apply val_mono in H2; auto. lra.
Qed.

Lemma fle_fin_refl x : fin x -> fle x x.
Proof.
  intros [V F]. apply fle_refl; [|exact V]. destruct x; cbn in F; try tauto; discriminate.
Qed.

(** ** [Math.max], [Math.min] and clamping on finite numbers *)

Lemma Math_max_fin x y :
  fin x -> fin y ->
  (JS.Math_max x y = x \/ JS.Math_max x y = y)
  /\ fle x (JS.Math_max x y) /\ fle y (JS.Math_max x y).
Proof.
  intros Fx Fy. unfold JS.Math_max.
  pose proof (fin_compare x y (proj2 Fx) (proj2 Fy)) as Hc.
  pose proof (SFcompare_antisym x y) as Ha.
  pose proof (fle_fin_refl x Fx). pose proof (fle_fin_refl y Fy).
  destruct (SFcompare x y) as [[]|] eqn:E; try congruence; cbn [option_map CompOpp] in Ha.
  - assert (fle x y) by (unfold fle, SFleb; now rewrite E).
    assert (fle y x) by (unfold fle, SFleb; now rewrite Ha).
    destruct x as [[]| | |]; auto.
  - assert (fle x y) by (unfold fle, SFleb; now rewrite E). auto.
  - assert (fle y x) by (unfold fle, SFleb; now rewrite Ha). auto.
Qed.

Lemma Math_min_fin x y :
  fin x -> fin y ->
  (JS.Math_min x y = x \/ JS.Math_min x y = y)
  /\ fle (JS.Math_min x y) x /\ fle (JS.Math_min x y) y.
Proof.
  intros Fx Fy. unfold JS.Math_min.
  pose proof (fin_compare x y (proj2 Fx) (proj2 Fy)) as Hc.
  pose proof (SFcompare_antisym x y) as Ha.
  pose proof (fle_fin_refl x Fx). pose proof (fle_fin_refl y Fy).
  destruct (SFcompare x y) as [[]|] eqn:E; try congruence; cbn [option_map CompOpp] in Ha.
  - assert (fle x y) by (unfold fle, SFleb; now rewrite E).
    assert (fle y x) by (unfold fle, SFleb; now rewrite Ha).
    destruct y as [[]| | |]; auto.
  - assert (fle x y) by (unfold fle, SFleb; now rewrite E). auto.
  - assert (fle y x) by (unfold fle, SFleb; now rewrite Ha). auto.
Qed.

Lemma clamp_fin lo hi x :
  fin lo -> fin hi -> fle lo hi -> fin x ->
  fin (clamp lo hi x) /\ fle lo (clamp lo hi x) /\ fle (clamp lo hi x) hi.
Proof.
  intros Fl Fh Hlh Fx. unfold clamp.
  destruct (Math_min_fin hi x Fh Fx) as (Hm & Hm1 & Hm2).
  assert (Fm : fin (JS.Math_min hi x)) by (destruct Hm as [->| ->]; assumption).
  destruct (Math_max_fin lo (JS.Math_min hi x) Fl Fm) as (HM & HM1 & HM2).
  split; [destruct HM as [->| ->]; assumption|].
  split; [exact HM1|].
  destruct HM as [->| ->]; assumption.
Qed.

(** ** Magnitude bounds *)

(** A valid finite float of magnitude at most [2^k]. *)
Definition bounded (k : Z) (x : spec_float) : Prop :=
  fin x /\ (- P2 k <= val x /\ val x <= P2 k)%Q.

Definition pow2_float (k : Z) : spec_float := S754_finite false (2 ^ 52) (k - 52).

Lemma pow2_float_fin k : -1022 <= k <= 1023 -> fin (pow2_float k).
Proof.
  intros Hk; split; [|exact I]. unfold pow2_float.
  change (2 ^ 52)%positive with (Z.to_pos (2 ^ 52)).
  apply finite_valid; lia.
Qed.

Lemma pow2_float_val k : (val (pow2_float k) == P2 k)%Q.
Proof.
  cbn [val pow2_float]. change (inject_Z (Zpos (2 ^ 52))) with (P2 52).
  rewrite <- P2_add. replace (52 + (k - 52)) with k by lia. reflexivity.
Qed.

Lemma fin_opp x : fin x -> fin (SFopp x).
Proof. intros [V F]; split; [now apply valid_opp|destruct x; exact F]. Qed.

Lemma fle_finite_l x y : fle x y -> is_finite y -> x <> S754_infinity false /\ x <> S754_nan.
Proof.
  destruct x as [sx|[]| |sx mx ex], y as [sy|sy| |sy my ey]; cbn; intros H F; try tauto;
    split; discriminate.
Qed.

Lemma fle_finite_r x y : fle x y -> is_finite x -> y <> S754_infinity true /\ y <> S754_nan.
Proof.
  destruct x as [sx|sx| |sx mx ex], y as [sy|[]| |sy my ey]; cbn; intros H F; try tauto;
    split; try discriminate.
Qed.

Theorem Rnd_bounded r x k :
  Rnd r x -> (- P2 k <= r)%Q -> (r <= P2 k)%Q -> -1022 <= k <= 1023 -> bounded k x.
Proof.
  intros HR Hl Hu Hk.
  pose proof (pow2_float_fin k Hk) as [VF FF].
  pose proof (pow2_float_val k) as EF.
  assert (R1 : Rnd (P2 k) (pow2_float k)).
  { eapply Rnd_ext; [exact EF|]. apply Rnd_val; assumption. }
  assert (R2 : Rnd (- P2 k) (SFopp (pow2_float k))).
  { eapply Rnd_ext; [|apply Rnd_val; try exact I; apply valid_opp; exact VF].
    rewrite val_opp, EF. reflexivity. }
  pose proof (Rnd_mono _ _ _ _ HR R1 Hu) as H1.
  pose proof (Rnd_mono _ _ _ _ R2 HR Hl) as H2.
  pose proof (Rnd_valid _ _ HR) as Vx.
  assert (Fx : is_finite x).
  { destruct (fle_finite_l _ _ H1 FF) as [A B].
    destruct (fle_finite_r _ _ H2 I) as [C D].
    destruct x as [s|[]| |s m e]; cbn; auto; congruence. }
  split; [split; assumption|].
  apply val_mono in H1; auto.
  apply val_mono in H2; auto; try exact I; try (apply valid_opp; exact VF).
  rewrite val_opp in H2. rewrite EF in *. lra.
Qed.

Lemma bounded_weaken j k x : bounded j x -> j <= k -> bounded k x.
Proof.
  intros [F [L U]] H. split; [exact F|].
  pose proof (P2_le j k H). lra.
Qed.

Lemma bounded_fin k x : bounded k x -> fin x.
Proof. now intros [F _]. Qed.

Lemma bounded_add j k x y :
  bounded j x -> bounded k y -> -1022 <= Z.max j k + 1 <= 1023 ->
  bounded (Z.max j k + 1) (JS.add x y).
Proof.
  intros [[Vx Fx] [Lx Ux]] [[Vy Fy] [Ly Uy]] Hk.
  eapply Rnd_bounded; [apply SFadd_Rnd; assumption| | |exact Hk];
    rewrite P2_S;
    pose proof (P2_le j (Z.max j k) ltac:(lia)); pose proof (P2_le k (Z.max j k) ltac:(lia));
    lra.
Qed.

Lemma bounded_sub j k x y :
  bounded j x -> bounded k y -> -1022 <= Z.max j k + 1 <= 1023 ->
  bounded (Z.max j k + 1) (JS.sub x y).
Proof.
  intros [[Vx Fx] [Lx Ux]] [[Vy Fy] [Ly Uy]] Hk.
  eapply Rnd_bounded; [apply SFsub_Rnd; assumption| | |exact Hk];
    rewrite P2_S;
    pose proof (P2_le j (Z.max j k) ltac:(lia)); pose proof (P2_le k (Z.max j k) ltac:(lia));
    lra.
Qed.

Lemma bounded_mul j k x y :
  bounded j x -> bounded k y -> -1022 <= j + k <= 1023 -> bounded (j + k) (JS.mul x y).
Proof.
  intros [[Vx Fx] [Lx Ux]] [[Vy Fy] [Ly Uy]] Hk.
  pose proof (P2_pos j). pose proof (P2_pos k).
  eapply Rnd_bounded; [apply SFmul_Rnd; assumption| | |exact Hk]; rewrite P2_add; nra.
Qed.

(** Division by a constant of magnitude at least one. *)
Lemma bounded_div k x c :
  bounded k x -> fin c -> (1 <= val c)%Q -> -1022 <= k <= 1023 -> bounded k (JS.div x c).
Proof.
  intros [[Vx Fx] [Lx Ux]] [Vc Fc] Hc Hk.
  assert (Nc : is_nonzero_finite c).
  { destruct c as [s|s| |s m e]; cbn in *; try tauto; lra. }
  pose proof (P2_pos k).
  eapply Rnd_bounded; [apply SFdiv_Rnd; assumption| | |exact Hk].
  - apply Qle_shift_div_l; [lra|]. nra.
  - apply Qle_shift_div_r; [lra|]. nra.
Qed.

Lemma bounded_const k x :
  fin x -> fle (SFopp (pow2_float k)) x -> fle x (pow2_float k) -> -1022 <= k <= 1023 ->
  bounded k x.
Proof.
  intros [V F] H1 H2 Hk. pose proof (pow2_float_fin k Hk) as [VF FF].
  split; [split; assumption|].
  apply val_mono in H1; auto; try exact I; try (now apply valid_opp).
  apply val_mono in H2; auto.
  rewrite val_opp in H1. rewrite pow2_float_val in *. lra.
Qed.

Lemma bounded_Z2num z k :
  - 2 ^ k <= z <= 2 ^ k -> 0 <= k <= 1023 -> bounded k (JS.Z2num z).
Proof.
  intros Hz Hk.
  eapply Rnd_bounded; [apply Z2num_Rnd| | |lia];
    rewrite P2_nonneg by lia; rewrite <- ?inject_Z_opp, <- Zle_Qle; lia.
Qed.

Lemma const_ge j c : fin c -> -1022 <= j <= 1023 -> fle (pow2_float j) c -> (P2 j <= val c)%Q.
Proof.
  intros [V F] Hj H. pose proof (pow2_float_fin j Hj) as [VF FF].
  apply val_mono in H; auto. now rewrite pow2_float_val in H.
Qed.

(** Division by a constant of magnitude at least [2^j]. *)
Lemma bounded_div_ge j k x c :
  bounded k x -> fin c -> (P2 j <= val c)%Q -> -1022 <= k - j <= 1023 ->
  bounded (k - j) (JS.div x c).
Proof.
  intros [[Vx Fx] [Lx Ux]] [Vc Fc] Hc Hk.
  pose proof (P2_pos j) as Pj. pose proof (P2_pos (k - j)) as Pkj.
  assert (Nc : is_nonzero_finite c).
  { destruct c as [s|s| |s m e]; cbn in *; try tauto; lra. }
  assert (E : (P2 k == P2 (k - j) * P2 j)%Q).
  { rewrite <- P2_add. replace (k - j + j) with k by lia. reflexivity. }
  eapply Rnd_bounded; [apply SFdiv_Rnd; assumption| | |exact Hk].
  - apply Qle_shift_div_l; [lra|]. nra.
  - apply Qle_shift_div_r; [lra|]. nra.
Qed.

Lemma in_range_bounded k lo hi x :
  bounded k lo -> bounded k hi -> fin x -> fle lo x -> fle x hi -> bounded k x.
Proof.
  intros [[Vl Fl] [Ll Ul]] [[Vh Fh] [Lh Uh]] [Vx Fx] H1 H2.
  split; [split; assumption|].
  apply val_mono in H1; auto. apply val_mono in H2; auto. lra.
Qed.

Lemma bounded_nonneg_val k x : bounded k x -> fle (S754_zero false) x -> (0 <= val x)%Q.
Proof.
  intros [[V F] _] H.
  exact (val_mono (S754_zero false) x eq_refl V I F H).
Qed.

(** ** Adding or subtracting a non-negative number *)

Lemma sub_mono_l x y c : fin x -> fin y -> fin c -> fle x y -> fle (JS.sub x c) (JS.sub y c).
Proof.
  intros [Vx Fx] [Vy Fy] [Vc Fc] H.
  apply val_mono in H; auto.
  eapply Rnd_mono; [apply SFsub_Rnd; assumption|apply SFsub_Rnd; assumption|]. lra.
Qed.

Lemma sub_nonneg_le x c : fin x -> fin c -> fle (S754_zero false) c -> fle (JS.sub x c) x.
Proof.
  intros [Vx Fx] [Vc Fc] H.
  pose proof (val_mono (S754_zero false) c eq_refl Vc I Fc H) as Hc. cbn [val] in Hc.
  eapply Rnd_mono; [apply SFsub_Rnd; assumption|apply Rnd_val; assumption|]. lra.
Qed.

Lemma add_nonneg_ge x c : fin x -> fin c -> fle (S754_zero false) c -> fle x (JS.add x c).
Proof.
  intros [Vx Fx] [Vc Fc] H.
  pose proof (val_mono (S754_zero false) c eq_refl Vc I Fc H) as Hc. cbn [val] in Hc.
  eapply Rnd_mono; [apply Rnd_val; assumption|apply SFadd_Rnd; assumption|]. lra.
Qed.

Lemma sub_nonpos_ge x c : fin x -> fin c -> fle c (S754_zero false) -> fle x (JS.sub x c).
Proof.
  intros [Vx Fx] [Vc Fc] H.
  pose proof (val_mono c (S754_zero false) Vc eq_refl Fc I H) as Hc. cbn [val] in Hc.
  eapply Rnd_mono; [apply Rnd_val; assumption|apply SFsub_Rnd; assumption|]. lra.
Qed.

Lemma add_nonpos_le x c : fin x -> fin c -> fle c (S754_zero false) -> fle (JS.add x c) x.
Proof.
  intros [Vx Fx] [Vc Fc] H.
  pose proof (val_mono c (S754_zero false) Vc eq_refl Fc I H) as Hc. cbn [val] in Hc.
  eapply Rnd_mono; [apply SFadd_Rnd; assumption|apply Rnd_val; assumption|]. lra.
Qed.

(** The rounding of a real that is not positive is not positive. *)
Lemma Rnd_nonpos r x : Rnd r x -> (r <= 0)%Q -> fle x (S754_zero false).
Proof.
  intros R Hr. apply (Rnd_mono r x 0 (S754_zero false) R); [|exact Hr].
  left. split; [reflexivity|eauto].
Qed.

End B64.

(** ** Dependence on [Math.sin] *)

(** A result uses [Math.sin] through its values only: two implementations
    that agree everywhere give the same result. *)
Section SinExt.

Variables f g : JS.number -> JS.number.
Hypothesis fg : forall x, f x = g x.
Variable v : ForecastVariable.
Variable p : ForecastParams.

Lemma historical_point_ext (i : nat) (a : Z) :
  historical_point f v p i a = historical_point g v p i a.
Proof. unfold historical_point; now rewrite !fg. Qed.

Lemma historical_loop_ext (n i : nat) (a : Z) :
  historical_loop f v p n i a = historical_loop g v p n i a.
Proof.
  revert i a; induction n as [|n IH]; intros i a; cbn [historical_loop]; [reflexivity|].
  rewrite historical_point_ext.
  destruct (historical_point g v p i a) as [q a1]; now rewrite IH.
Qed.

Lemma forecast_point_ext hd tr (i : nat) lv (a : Z) :
  forecast_point f v p hd tr i lv a = forecast_point g v p hd tr i lv a.
Proof. unfold forecast_point; now rewrite !fg. Qed.

Lemma forecast_loop_ext hd tr (n i : nat) lv (a : Z) :
  forecast_loop f v p hd tr n i lv a = forecast_loop g v p hd tr n i lv a.
Proof.
  revert i lv a; induction n as [|n IH]; intros i lv a; cbn [forecast_loop]; [reflexivity|].
  rewrite forecast_point_ext.
  destruct (forecast_point g v p hd tr i lv a) as [q a1]; now rewrite IH.
Qed.

Lemma generateSingleForecast_ext (seed : Z) :
  generateSingleForecast f v p seed = generateSingleForecast g v p seed.
Proof.
  unfold generateSingleForecast.
  rewrite historical_loop_ext.
  destruct (historical_loop g v p (trainingDays p) 0 (Prng.mulberry32 seed)) as [hd a1].
  destruct (30 <? trainingDays p)%nat.
  - destruct (Prng.mulberry32_next a1) as [r a2]; now rewrite forecast_loop_ext.
  - now rewrite forecast_loop_ext.
Qed.

End SinExt.

(** With at most 20 training days the forecast loop does not call
    [Math.sin] at all. *)
Lemma forecast_loop_naive (f g : JS.number -> JS.number) v p hd tr n i lv a :
  (trainingDays p <= 20)%nat ->
  forecast_loop f v p hd tr n i lv a = forecast_loop g v p hd tr n i lv a.
Proof.
  intros Ht; apply Nat.leb_le in Ht.
  revert i lv a; induction n as [|n IH]; intros i lv a; cbn [forecast_loop]; [reflexivity|].
  replace (forecast_point f v p hd tr i lv a) with (forecast_point g v p hd tr i lv a).
  - destruct (forecast_point g v p hd tr i lv a) as [q a1]; now rewrite IH.
  - unfold forecast_point; now rewrite Ht.
Qed.

(** A concrete implementation of the sine, for the places where one is
    needed: the first-order Taylor polynomial, saturated to [-1, 1]. *)
Definition sin_taylor (x : JS.number) : JS.number :=
  match x with
  | S754_finite _ _ _ => clamp (int (-1)) (int 1) x
  | S754_zero _ => x
  | _ => JS.NaN
  end.

(** ** Claims about the shape of the output *)

Definition example_params : ForecastParams :=
  {| trainingDays := 30; horizon := "7d"; variables := [temperature] |}.

(** C2, as stated, fails: the horizon ["-5d"] resolves to the integer -5,
    and the series then has [trainingDays] points (no forecast point is
    produced), not [trainingDays + (-5)]. *)
Lemma C2_counterexample :
  getHorizonInDays "-5d" = int (-5)
  /\ (forall Math_sin seed,
        Z.of_nat (List.length (data (generateSingleForecast Math_sin temperature
                     {| trainingDays := 30; horizon := "-5d"; variables := [temperature] |}
                     seed)))
        <> 30 + (-5)).
Proof.
  split; [reflexivity|].
  intros Math_sin seed; rewrite data_length.
  cbn [trainingDays horizon].
  replace (iterations (getHorizonInDays "-5d")) with 0%nat by reflexivity.
  cbn; lia.
Qed.

(** C2, amended: when the horizon resolves to an integer [h], the series has
    [trainingDays + max(h, 0)] points; this is [trainingDays + h] for every
    [h >= 0]. *)
Theorem C2_data_length (Math_sin : JS.number -> JS.number) (v : ForecastVariable)
    (p : ForecastParams) (seed h : Z) :
  integer_value (getHorizonInDays (horizon p)) = Some h ->
  Z.of_nat (List.length (data (generateSingleForecast Math_sin v p seed)))
  = Z.of_nat (trainingDays p) + Z.max h 0.
Proof.
  intros Hh; rewrite data_length, (iterations_integer _ _ Hh); lia.
Qed.

Lemma C2_data_length_witness :
  integer_value (getHorizonInDays (horizon example_params)) = Some 7
  /\ Z.of_nat (List.length (data (generateSingleForecast sin_taylor temperature example_params 30)))
     = Z.of_nat (trainingDays example_params) + Z.max 7 0.
Proof.
  split; [reflexivity|].
  apply (C2_data_length sin_taylor temperature example_params 30 7); reflexivity.
Defined.

Lemma rev_seq_1 (t : nat) : rev (seq 1 t) = map (fun k => (t - k)%nat) (seq 0 t).
Proof.
  induction t as [|t IH]; [reflexivity|].
  rewrite seq_S, rev_app_distr; cbn [rev app seq map Nat.add].
  rewrite IH, <- seq_shift, map_map.
  reflexivity.
Qed.

(** C8: the points are the historical ones, labelled [D-<trainingDays>]
    down to [D-1], followed by the forecast ones, labelled [D+1] up to
    [D+<horizonDays>] (none when the horizon resolves to NaN or to an
    integer below 1); the number of a label is written in decimal digits:
    with 11 training days and the horizon ["10d"] the labels run from
    ["D-11"] to ["D-1"] and then from ["D+1"] to ["D+10"]. *)
Theorem C8_labels (Math_sin : JS.number -> JS.number) (v : ForecastVariable)
    (p : ForecastParams) (seed : Z) :
  map (fun q => (type q, day q)) (data (generateSingleForecast Math_sin v p seed))
  = map (fun k => (historical, ("D-" ++ Str.nat_toString k)%string))
        (rev (seq 1 (trainingDays p)))
    ++ map (fun k => (forecast, ("D+" ++ Str.nat_toString k)%string))
         (seq 1 (iterations (getHorizonInDays (horizon p))))
  /\ map (fun q => (type q, day q))
       (data (generateSingleForecast Math_sin v
                {| trainingDays := 11; horizon := "10d"; variables := variables p |} seed))
     = [(historical, "D-11"); (historical, "D-10"); (historical, "D-9");
        (historical, "D-8"); (historical, "D-7"); (historical, "D-6");
        (historical, "D-5"); (historical, "D-4"); (historical, "D-3");
        (historical, "D-2"); (historical, "D-1");
        (forecast, "D+1"); (forecast, "D+2"); (forecast, "D+3"); (forecast, "D+4");
        (forecast, "D+5"); (forecast, "D+6"); (forecast, "D+7"); (forecast, "D+8");
        (forecast, "D+9"); (forecast, "D+10")]%string
  /\ Str.nat_toString 0 = "0"%string
  /\ Str.nat_toString 365 = "365"%string
  /\ Str.nat_toString 1000 = "1000"%string.
Proof.
  assert (G : forall p0,
             map (fun q => (type q, day q)) (data (generateSingleForecast Math_sin v p0 seed))
             = map (fun k => (historical, ("D-" ++ Str.nat_toString k)%string))
                   (rev (seq 1 (trainingDays p0)))
               ++ map (fun k => (forecast, ("D+" ++ Str.nat_toString k)%string))
                    (seq 1 (iterations (getHorizonInDays (horizon p0))))).
  { intros p0.
    destruct (data_decomposition Math_sin v p0 seed) as (tr & lv & a & ->).
    rewrite map_app, historical_loop_shape, forecast_loop_shape.
    rewrite rev_seq_1, map_map, <- seq_shift, map_map.
    f_equal.
    apply map_ext; intros k; unfold forecast_label; now rewrite Nat.add_1_r. }
  split; [apply G|].
  split; [rewrite G; reflexivity|].
  repeat split; reflexivity.
Qed.

Lemma historical_loop_types (Math_sin : JS.number -> JS.number) v p (n i : nat) (a : Z) :
  Forall (fun q => type q = historical /\ confidence q = None)
         (fst (historical_loop Math_sin v p n i a)).
Proof.
  revert i a; induction n as [|n IH]; intros i a; cbn [historical_loop]; [constructor|].
  pose proof (historical_point_shape Math_sin v p i a) as (_ & Ht & Hc).
  destruct (historical_point Math_sin v p i a) as [q a1].
  specialize (IH (S i) a1).
  destruct (historical_loop Math_sin v p n (S i) a1) as [qs a2]; cbn [fst] in *.
  constructor; auto.
Qed.

(** ** Horizon resolution *)

(** C5: what [getHorizonInDays] returns.  A string that ends in ["d"] yields
    [parseInt] of what precedes the ["d"]: an integer such as 14 for ["14d"],
    but NaN for a string such as ["xd"]; any other string yields 30. *)
Theorem C5_horizon_resolution :
  getHorizonInDays "14d" = int 14
  /\ getHorizonInDays "2 months" = int 30
  /\ getHorizonInDays "garbage" = int 30
  /\ (forall lead, getHorizonInDays (lead ++ "d") = Str.parseInt lead)
  /\ (forall h, Str.String_endsWith h "d" = false -> getHorizonInDays h = int 30)
  /\ getHorizonInDays "xd" = JS.NaN.
Proof.
  repeat split; try reflexivity.
  - exact getHorizonInDays_d.
  - exact getHorizonInDays_other.
Qed.

(** C9: a horizon that ends in ["d"] with no parseable integer before it
    resolves to NaN; the generator then returns the [trainingDays] historical
    points and no forecast point, with [stats.min = +Infinity],
    [stats.max = -Infinity] and [stats.trend = NaN]. *)
Theorem C9_unparseable_horizon (Math_sin : JS.number -> JS.number) (v : ForecastVariable)
    (t : nat) (lead : string) (vars : list ForecastVariable) (seed : Z) :
  Str.parseInt lead = JS.NaN ->
  let p := {| trainingDays := t; horizon := (lead ++ "d")%string; variables := vars |} in
  let r := generateSingleForecast Math_sin v p seed in
  getHorizonInDays (horizon p) = JS.NaN
  /\ data r = fst (historical_loop Math_sin v p t 0 (Prng.mulberry32 seed))
  /\ List.length (data r) = t
  /\ Forall (fun q => type q = historical) (data r)
  /\ stats_min (stats r) = JS.Infinity
  /\ stats_max (stats r) = JS.neg_Infinity
  /\ stats_trend (stats r) = JS.NaN.
Proof.
  intros Hlead p r.
  assert (Hh : getHorizonInDays (horizon p) = JS.NaN)
    by (cbn [horizon p]; now rewrite getHorizonInDays_d).
  assert (Hd : data r = fst (historical_loop Math_sin v p t 0 (Prng.mulberry32 seed))).
  { destruct (data_decomposition Math_sin v p seed) as (tr & lv & a & E).
    unfold r; rewrite E, Hh; cbn [iterations forecast_loop trainingDays p].
    apply app_nil_r. }
  split; [exact Hh|]. split; [exact Hd|].
  split; [rewrite Hd; apply historical_loop_length|].
  split.
  { rewrite Hd. eapply Forall_impl; [|apply historical_loop_types]. now intros q []. }
  unfold r, generateSingleForecast; rewrite Hh.
  destruct (historical_loop Math_sin v p (trainingDays p) 0 (Prng.mulberry32 seed)) as [hd a1].
  destruct (30 <? trainingDays p)%nat; [destruct (Prng.mulberry32_next a1) as [x a2]|];
    cbn [iterations forecast_loop map stats stats_min stats_max stats_trend];
    repeat split; reflexivity.
Qed.

Lemma C9_unparseable_horizon_witness :
  Str.parseInt "x" = JS.NaN
  /\ let p := {| trainingDays := 30; horizon := "xd"; variables := [temperature] |} in
     let r := generateSingleForecast sin_taylor temperature p 30 in
     getHorizonInDays (horizon p) = JS.NaN
     /\ data r = fst (historical_loop sin_taylor temperature p 30 0 (Prng.mulberry32 30))
     /\ List.length (data r) = 30%nat
     /\ Forall (fun q => type q = historical) (data r)
     /\ stats_min (stats r) = JS.Infinity
     /\ stats_max (stats r) = JS.neg_Infinity
     /\ stats_trend (stats r) = JS.NaN.
Proof.
  split; [reflexivity|].
  apply (C9_unparseable_horizon sin_taylor temperature 30 "x" [temperature] 30); reflexivity.
Defined.

(** ** The orchestrator *)

Lemma generateSingleForecast_variable (Math_sin : JS.number -> JS.number) v p seed :
  variable (generateSingleForecast Math_sin v p seed) = v.
Proof.
  unfold generateSingleForecast.
  destruct (historical_loop Math_sin v p (trainingDays p) 0 (Prng.mulberry32 seed)) as [hd a1].
  destruct (30 <? trainingDays p)%nat; [destruct (Prng.mulberry32_next a1)|]; reflexivity.
Qed.

Lemma map_index_length {A B : Type} (f : A -> nat -> B) (k : nat) (xs : list A) :
  List.length (map_index f k xs) = List.length xs.
Proof. revert k; induction xs as [|x xs IH]; intros k; cbn; [reflexivity|now rewrite IH]. Qed.

Lemma map_index_nth_error {A B : Type} (f : A -> nat -> B) (xs : list A) (k i : nat) :
  nth_error (map_index f k xs) i = option_map (fun x => f x (k + i)%nat) (nth_error xs i).
Proof.
  revert k i; induction xs as [|x xs IH]; intros k [|i]; cbn; try reflexivity.
  - now rewrite Nat.add_0_r.
  - rewrite IH; now replace (S k + i)%nat with (k + S i)%nat by lia.
Qed.

Lemma map_index_map {A B C : Type} (f : A -> nat -> B) (g : B -> C) (k : nat) (xs : list A) :
  map g (map_index f k xs) = map_index (fun x i => g (f x i)) k xs.
Proof. revert k; induction xs as [|x xs IH]; intros k; cbn; [reflexivity|now rewrite IH]. Qed.

Lemma map_index_const {A B : Type} (g : A -> B) (k : nat) (xs : list A) :
  map_index (fun x _ => g x) k xs = map g xs.
Proof. revert k; induction xs as [|x xs IH]; intros k; cbn; [reflexivity|now rewrite IH]. Qed.

(** C6: the orchestrator returns one result per requested variable, in the
    order of the request, and its [i]-th result is the result of the
    single-variable generator for the [i]-th variable with seed
    [trainingDays + i]. *)
Theorem C6_orchestrator (Math_sin : JS.number -> JS.number) (p : ForecastParams) :
  let rs := results (generateAllForecasts Math_sin p) in
  List.length rs = List.length (variables p)
  /\ map variable rs = variables p
  /\ (forall i v, nth_error (variables p) i = Some v ->
        nth_error rs i
        = Some (generateSingleForecast Math_sin v p (Z.of_nat (trainingDays p) + Z.of_nat i)))
  /\ (variables p = [temperature; salinity] -> trainingDays p = 40%nat ->
        rs = [generateSingleForecast Math_sin temperature p 40;
              generateSingleForecast Math_sin salinity p 41]).
Proof.
  cbn [generateAllForecasts results]; repeat split.
  - apply map_index_length.
  - rewrite map_index_map.
    rewrite <- (map_id (variables p)) at 2; rewrite <- map_index_const with (k := 0%nat).
    generalize 0%nat; induction (variables p) as [|x xs IH]; intros k; cbn [map_index];
      [reflexivity|].
    now rewrite generateSingleForecast_variable, IH.
  - intros i v Hv; rewrite map_index_nth_error, Hv; cbn [option_map Nat.add].
    now rewrite Nat2Z.inj_add.
  - intros -> ->; reflexivity.
Qed.


(** ** Determinism *)

Module CellsFacts.

Import Cells.

Lemma write_read_same (c : nat) (s : store) : write c (read c s) s = s.
Proof.
  unfold read. revert c; induction s as [|x s IH]; intros [|c]; cbn [write nth];
    try reflexivity.
  now rewrite IH.
Qed.

Lemma read_write (c : nat) (a : Z) (s : store) :
  (c < List.length s)%nat -> read c (write c a s) = a.
Proof.
  unfold read. revert c; induction s as [|x s IH]; intros [|c] H; cbn [List.length] in H;
    cbn [write nth]; try lia; try reflexivity.
  apply IH. lia.
Qed.

Lemma write_write (c : nat) (a b : Z) (s : store) : write c b (write c a s) = write c b s.
Proof.
  revert c; induction s as [|x s IH]; intros [|c]; cbn [write]; try reflexivity.
  now rewrite IH.
Qed.

Lemma write_length (c : nat) (a : Z) (s : store) : List.length (write c a s) = List.length s.
Proof.
  revert c; induction s as [|x s IH]; intros [|c]; cbn [write List.length]; try reflexivity.
  now rewrite IH.
Qed.

Lemma read_new (s : store) (a : Z) : read (List.length s) (s ++ [a]) = a.
Proof. unfold read. rewrite app_nth2 by lia. now rewrite Nat.sub_diag. Qed.

Lemma write_new (s : store) (a b : Z) : write (List.length s) b (s ++ [a]) = s ++ [b].
Proof. induction s as [|x s IH]; cbn [List.length write app]; [reflexivity|now rewrite IH]. Qed.

Lemma random_cell (c : nat) (s : store) :
  random c s = (fst (Prng.mulberry32_next (read c s)),
                write c (snd (Prng.mulberry32_next (read c s))) s).
Proof. unfold random. now destruct (Prng.mulberry32_next (read c s)). Qed.

End CellsFacts.

(** The generator over the store does what the generator does from the
    content of its own cell, and writes no other cell. *)
Section OwnCell.

Import Cells CellsFacts.

Variable Math_sin : JS.number -> JS.number.
Variable v : ForecastVariable.
Variable p : ForecastParams.
Variable c : nat.

Lemma historical_point_cells_own (i : nat) (s : store) :
  historical_point_cells Math_sin v p c i s
  = (fst (historical_point Math_sin v p i (read c s)),
     write c (snd (historical_point Math_sin v p i (read c s))) s).
Proof.
  unfold historical_point_cells, historical_point. rewrite random_cell.
  now destruct (Prng.mulberry32_next (read c s)).
Qed.

Lemma historical_loop_cells_own (n i : nat) (s : store) :
  (c < List.length s)%nat ->
  historical_loop_cells Math_sin v p c n i s
  = (fst (historical_loop Math_sin v p n i (read c s)),
     write c (snd (historical_loop Math_sin v p n i (read c s))) s).
Proof.
  revert i s; induction n as [|n IH]; intros i s Hc;
    cbn [historical_loop_cells historical_loop].
  - cbn [fst snd]. now rewrite write_read_same.
  - rewrite historical_point_cells_own.
    destruct (historical_point Math_sin v p i (read c s)) as [q a1]. cbn [fst snd].
    rewrite IH by (now rewrite write_length). rewrite read_write by exact Hc.
    destruct (historical_loop Math_sin v p n (S i) a1) as [qs a2]. cbn [fst snd].
    now rewrite write_write.
Qed.

Lemma forecast_point_cells_own hd tr (i : nat) lv (s : store) :
  forecast_point_cells Math_sin v p c hd tr i lv s
  = (fst (forecast_point Math_sin v p hd tr i lv (read c s)),
     write c (snd (forecast_point Math_sin v p hd tr i lv (read c s))) s).
Proof.
  unfold forecast_point_cells, forecast_point. rewrite random_cell.
  now destruct (Prng.mulberry32_next (read c s)).
Qed.

Lemma forecast_loop_cells_own hd tr (n i : nat) lv (s : store) :
  (c < List.length s)%nat ->
  exists a,
    forecast_loop_cells Math_sin v p c hd tr n i lv s
    = (forecast_loop Math_sin v p hd tr n i lv (read c s), write c a s).
Proof.
  revert i lv s; induction n as [|n IH]; intros i lv s Hc;
    cbn [forecast_loop_cells forecast_loop].
  - exists (read c s). now rewrite write_read_same.
  - rewrite forecast_point_cells_own.
    destruct (forecast_point Math_sin v p hd tr i lv (read c s)) as [q a1]. cbn [fst snd].
    destruct (IH (S i) (value q) (write c a1 s)) as [a E]; [now rewrite write_length|].
    rewrite E, read_write, write_write by exact Hc. now exists a.
Qed.

End OwnCell.

Lemma generateSingleForecast_cells_own (Math_sin : JS.number -> JS.number) v p seed
    (s : Cells.store) :
  exists a,
    generateSingleForecast_cells Math_sin v p seed s
    = (generateSingleForecast Math_sin v p seed, s ++ [a]).
Proof.
  unfold generateSingleForecast_cells, generateSingleForecast, Cells.mulberry32,
    Prng.mulberry32.
  assert (Hc : (List.length s < List.length (s ++ [seed]))%nat)
    by (rewrite length_app; cbn; lia).
  rewrite historical_loop_cells_own by exact Hc. rewrite CellsFacts.read_new.
  destruct (historical_loop Math_sin v p (trainingDays p) 0 seed) as [hd a1]. cbn [fst snd].
  rewrite CellsFacts.write_new.
  assert (Hc1 : forall a, (List.length s < List.length (s ++ [a]))%nat)
    by (intros a; rewrite length_app; cbn; lia).
  destruct (30 <? trainingDays p)%nat.
  - rewrite CellsFacts.random_cell, CellsFacts.read_new, CellsFacts.write_new.
    destruct (Prng.mulberry32_next a1) as [r a2]. cbn [fst snd].
    match goal with
    | |- context [forecast_loop_cells Math_sin v p _ hd ?tr ?n 0 ?lv (s ++ [a2])] =>
        destruct (forecast_loop_cells_own Math_sin v p (List.length s) hd tr n 0 lv
                    (s ++ [a2]) (Hc1 a2)) as [a E]
    end.
    rewrite E, CellsFacts.read_new, CellsFacts.write_new. now exists a.
  - match goal with
    | |- context [forecast_loop_cells Math_sin v p _ hd ?tr ?n 0 ?lv (s ++ [a1])] =>
        destruct (forecast_loop_cells_own Math_sin v p (List.length s) hd tr n 0 lv
                    (s ++ [a1]) (Hc1 a1)) as [a E]
    end.
    rewrite E, CellsFacts.read_new, CellsFacts.write_new. now exists a.
Qed.

(** C4: an invocation of the single-variable generator returns the same
    result from every state of the store of cells, so that any two
    invocations on the same variable, parameters and seed return the same
    result, one after the other or with other invocations in between: an
    invocation reads the cell that it allocates and nothing else, and leaves
    the cells of the other closures as they were. *)
Theorem C4_determinism (Math_sin : JS.number -> JS.number) (v : ForecastVariable)
    (p : ForecastParams) (seed : Z) (s s' : Cells.store) :
  let run := generateSingleForecast_cells Math_sin v p seed in
  fst (run s) = fst (run s')
  /\ fst (run (snd (run s))) = fst (run s)
  /\ fst (run s) = generateSingleForecast Math_sin v p seed
  /\ exists a, snd (run s) = s ++ [a].
Proof.
  cbv zeta.
  destruct (generateSingleForecast_cells_own Math_sin v p seed s) as [a E].
  destruct (generateSingleForecast_cells_own Math_sin v p seed s') as [a' E'].
  destruct (generateSingleForecast_cells_own Math_sin v p seed (s ++ [a])) as [a2 E2].
  rewrite E, E'. cbn [fst snd]. rewrite E2. cbn [fst].
  repeat split. now exists a.
Qed.

(** ** The confidence band *)

(** The band the code builds around a forecast value [x]: the lower side is
    bounded below by [min] only and the upper side above by [max] only. *)
Definition band (v : ForecastVariable) (p : ForecastParams) (x : JS.number) : JS.number * JS.number :=
  (JS.Math_max (fst (ARGO_RANGES v)) (x - confidenceRange v p)%js,
   JS.Math_min (snd (ARGO_RANGES v)) (x + confidenceRange v p)%js).

(** The band as the specification words it: half-width
    [range * 0.075 * (1 - trainingDays / 120)], each side clamped to
    [[min, max]]. *)
Definition spec_half_width (v : ForecastVariable) (p : ForecastParams) : JS.number :=
  ((snd (ARGO_RANGES v) - fst (ARGO_RANGES v)) * dec 75 3
   * (int 1 - (int (Z.of_nat (trainingDays p))) / int 120))%js.

Definition spec_band (v : ForecastVariable) (p : ForecastParams) (x : JS.number) : JS.number * JS.number :=
  (clamp (fst (ARGO_RANGES v)) (snd (ARGO_RANGES v)) (x - spec_half_width v p)%js,
   clamp (fst (ARGO_RANGES v)) (snd (ARGO_RANGES v)) (x + spec_half_width v p)%js).

Lemma forecast_point_band (Math_sin : JS.number -> JS.number) v p hd tr i lv a :
  confidence (fst (forecast_point Math_sin v p hd tr i lv a))
  = Some (band v p (value (fst (forecast_point Math_sin v p hd tr i lv a)))).
Proof.
  unfold forecast_point.
  destruct (Prng.mulberry32_next a); reflexivity.
Qed.

Lemma forecast_loop_band (Math_sin : JS.number -> JS.number) v p hd tr n i lv a :
  Forall (fun q => type q = forecast /\ confidence q = Some (band v p (value q)))
         (forecast_loop Math_sin v p hd tr n i lv a).
Proof.
  revert i lv a; induction n as [|n IH]; intros i lv a; cbn [forecast_loop]; [constructor|].
  pose proof (forecast_point_band Math_sin v p hd tr i lv a) as Hb.
  pose proof (forecast_point_shape Math_sin v p hd tr i lv a) as (_ & Ht).
  destruct (forecast_point Math_sin v p hd tr i lv a) as [q a1]; cbn [fst] in *.
  constructor; auto.
Qed.

Definition zero_sin_point : ForecastParams :=
  {| trainingDays := 1; horizon := "1d"; variables := [temperature] |}.

(** With one training day the generator calls [Math.sin] at [+0] only. *)
Lemma generateSingleForecast_one_day (f g : JS.number -> JS.number) v seed :
  f (S754_zero false) = g (S754_zero false) ->
  generateSingleForecast f v zero_sin_point seed
  = generateSingleForecast g v zero_sin_point seed.
Proof.
  intros H0.
  assert (Hp : forall a, historical_point f v zero_sin_point 0 a
                       = historical_point g v zero_sin_point 0 a).
  { intros a; unfold historical_point; cbv zeta.
    change ((int (Z.of_nat 0)) / int 365 * JS.Math_PI * int 2)%js with (S754_zero false).
    change ((int (Z.of_nat 0)) / int 30 * JS.Math_PI * int 2)%js with (S754_zero false).
    now rewrite H0. }
  unfold generateSingleForecast.
  cbn [trainingDays zero_sin_point historical_loop].
  rewrite Hp.
  destruct (historical_point g v zero_sin_point 0 (Prng.mulberry32 seed)) as [q a1].
  cbn [Nat.ltb Nat.leb].
  now rewrite (forecast_loop_naive f g) by (cbn; lia).
Qed.

(** C3, as stated, fails: for one training day of temperature and a horizon
    of one day, whatever the implementation of [Math.sin] (which returns [+0]
    at [+0]), the band of the forecast point is not the one of half-width
    [range * 0.075 * (1 - trainingDays / 120)]. *)
Lemma C3_counterexample :
  ~ exists Math_sin : JS.number -> JS.number,
      Math_sin (S754_zero false) = S754_zero false
      /\ Forall (fun q => type q = forecast ->
                          confidence q = Some (spec_band temperature zero_sin_point (value q)))
                (data (generateSingleForecast Math_sin temperature zero_sin_point 1)).
Proof.
  intros (Math_sin & H0 & H).
  rewrite (generateSingleForecast_one_day Math_sin sin_taylor) in H by exact H0.
  rewrite Forall_forall in H.
  specialize (H {| day := "D+1";
                   value := S754_finite false 7778654920175191 (-48);
                   type := forecast;
                   confidence := Some (S754_finite false 7663095368486631 (-48),
                                       S754_finite false 7894214471863751 (-48)) |}).
  assert (Hin : In {| day := "D+1";
                      value := S754_finite false 7778654920175191 (-48);
                      type := forecast;
                      confidence := Some (S754_finite false 7663095368486631 (-48),
                                          S754_finite false 7894214471863751 (-48)) |}
                   (data (generateSingleForecast sin_taylor temperature zero_sin_point 1)))
    by (vm_compute; auto).
  specialize (H Hin eq_refl).
  vm_compute in H; discriminate H.
Qed.

(** C3, amended: every forecast point carries the band of half-width
    [range * 0.15 * (1 - trainingDays / 120)] around its value, the lower side
    raised to [min] when it falls below it and the upper side lowered to [max]
    when it exceeds it; a historical point carries no band. *)
Theorem C3_confidence_band (Math_sin : JS.number -> JS.number) (v : ForecastVariable)
    (p : ForecastParams) (seed : Z) :
  confidenceRange v p
  = ((snd (ARGO_RANGES v) - fst (ARGO_RANGES v)) * dec 15 2
     * (int 1 - (int (Z.of_nat (trainingDays p))) / int 120))%js
  /\ Forall (fun q =>
               match type q with
               | forecast =>
                   confidence q
                   = Some (JS.Math_max (fst (ARGO_RANGES v)) (value q - confidenceRange v p)%js,
                           JS.Math_min (snd (ARGO_RANGES v)) (value q + confidenceRange v p)%js)
               | historical => confidence q = None
               end)
            (data (generateSingleForecast Math_sin v p seed)).
Proof.
  split; [reflexivity|].
  destruct (data_decomposition Math_sin v p seed) as (tr & lv & a & ->).
  apply Forall_app; split.
  - eapply Forall_impl; [|apply historical_loop_types].
    now intros q [-> Hc].
  - eapply Forall_impl; [|apply forecast_loop_band].
    now intros q [-> Hc].
Qed.

(** ** The confidence percentage *)

(** [Math.round(trainingDays / 100 * 80 + 20)]. *)
Definition confidence_percent (t : nat) : JS.number :=
  JS.Math_round
    (JS.add (JS.mul (JS.div (JS.Z2num (Z.of_nat t)) (JS.Z2num 100)) (JS.Z2num 80))
       (JS.Z2num 20)).

Lemma confidence_percent_mono (a b : nat) :
  (a <= b)%nat -> B64.fle (confidence_percent a) (confidence_percent b).
Proof.
  intros Hab. unfold confidence_percent.
  destruct (B64.Z2num_closed (Z.of_nat a) ltac:(lia)) as [Va Na].
  destruct (B64.Z2num_closed (Z.of_nat b) ltac:(lia)) as [Vb Nb].
  pose proof (B64.Z2num_mono (Z.of_nat a) (Z.of_nat b) ltac:(lia)) as H0.
  change (JS.Z2num 100) with (S754_finite false 7036874417766400 (-46)).
  change (JS.Z2num 80) with (S754_finite false 5629499534213120 (-46)).
  change (JS.Z2num 20) with (S754_finite false 5629499534213120 (-48)).
  set (c100 := S754_finite false 7036874417766400 (-46)).
  set (c80 := S754_finite false 5629499534213120 (-46)).
  set (c20 := S754_finite false 5629499534213120 (-48)).
  assert (V100 : B64.valid c100) by reflexivity.
  assert (V80 : B64.valid c80) by reflexivity.
  assert (V20 : B64.valid c20) by reflexivity.
  destruct (B64.div_pos_closed _ _ V100 _ Va Na) as [Va1 Na1].
  destruct (B64.div_pos_closed _ _ V100 _ Vb Nb) as [Vb1 Nb1].
  pose proof (B64.div_pos_mono _ _ V100 _ _ Va Vb Na Nb H0) as H1.
  destruct (B64.mul_pos_closed _ _ V80 _ Va1 Na1) as [Va2 Na2].
  destruct (B64.mul_pos_closed _ _ V80 _ Vb1 Nb1) as [Vb2 Nb2].
  pose proof (B64.mul_pos_mono _ _ V80 _ _ Va1 Vb1 Na1 Nb1 H1) as H2.
  destruct (B64.add_pos_closed _ _ V20 _ Va2 Na2) as [Va3 Na3].
  destruct (B64.add_pos_closed _ _ V20 _ Vb2 Nb2) as [Vb3 Nb3].
  pose proof (B64.add_pos_mono _ _ V20 _ _ Va2 Vb2 Na2 Nb2 H2) as H3.
  apply B64.Math_round_mono; assumption.
Qed.

Lemma generateSingleForecast_confidence (Math_sin : JS.number -> JS.number) v p seed :
  stats_confidence (stats (generateSingleForecast Math_sin v p seed))
  = confidence_percent (trainingDays p).
Proof.
  unfold generateSingleForecast.
  destruct (historical_loop Math_sin v p (trainingDays p) 0 (Prng.mulberry32 seed)) as [hd a1].
  destruct (30 <? trainingDays p)%nat; [destruct (Prng.mulberry32_next a1)|]; reflexivity.
Qed.

(** * Bounds of the values and of the confidence band *)

Import B64.

(** A constant is bounded by [2^k]: by computation. *)
Ltac const_bounded :=
  apply bounded_const; [split; [reflexivity|exact I]|reflexivity|reflexivity|lia].

Ltac const_fin := split; [reflexivity|exact I].

(** ** The generator keeps its values within the range of the variable *)

Definition vmin (v : ForecastVariable) : JS.number := fst (ARGO_RANGES v).
Definition vmax (v : ForecastVariable) : JS.number := snd (ARGO_RANGES v).

Definition in_range (v : ForecastVariable) (x : JS.number) : Prop :=
  fin x /\ fle (vmin v) x /\ fle x (vmax v).

Lemma range_facts (v : ForecastVariable) :
  bounded 8 (vmin v) /\ bounded 8 (vmax v) /\ fle (vmin v) (vmax v)
  /\ bounded 6 (JS.sub (vmax v) (vmin v))
  /\ fle (S754_zero false) (JS.mul (JS.sub (vmax v) (vmin v)) (JS.dec 15 2)).
Proof.
  destruct v; (split; [const_bounded|split; [const_bounded|split; [reflexivity|
    split; [const_bounded|reflexivity]]]]).
Qed.

Lemma random_bounded (a : Z) : bounded 0 (fst (Prng.mulberry32_next a)).
Proof.
  unfold Prng.mulberry32_next. cbv zeta. cbn [fst].
  set (u := Prng.ushr _ 0).
  assert (Hu : 0 <= u < 2 ^ 32).
  { unfold u, Prng.ushr, Prng.ToUint32. change (0 mod 32) with 0.
    rewrite Z.shiftr_0_r. apply Z.mod_pos_bound. lia. }
  apply (bounded_div_ge 32 32).
  - apply bounded_Z2num; lia.
  - const_fin.
  - apply const_ge; [const_fin|lia|reflexivity].
  - lia.
Qed.

Definition sin_ok (Math_sin : JS.number -> JS.number) : Prop :=
  forall x, fin x -> bounded 0 (Math_sin x).

Section Invariants.

Variable Math_sin : JS.number -> JS.number.
Hypothesis Hsin : sin_ok Math_sin.
Variable v : ForecastVariable.
Variable p : ForecastParams.

Lemma sin_term_bounded (z : Z) (c : JS.number) :
  0 <= z <= 2 ^ 54 -> fin c -> (1 <= val c)%Q ->
  bounded 0 (Math_sin (JS.mul (JS.mul (JS.div (JS.Z2num z) c) JS.Math_PI) (JS.Z2num 2))).
Proof.
  intros Hz Fc Hc. apply Hsin.
  assert (B1 : bounded 54 (JS.div (JS.Z2num z) c)).
  { apply bounded_div; auto; [|lia]. apply bounded_Z2num; lia. }
  assert (B2 : bounded (54 + 2) (JS.mul (JS.div (JS.Z2num z) c) JS.Math_PI)).
  { apply bounded_mul; [exact B1| |lia]. const_bounded. }
  assert (B3 : bounded (54 + 2 + 1)
                 (JS.mul (JS.mul (JS.div (JS.Z2num z) c) JS.Math_PI) (JS.Z2num 2))).
  { apply bounded_mul; [exact B2| |lia]. const_bounded. }
  exact (bounded_fin _ _ B3).
Qed.

Lemma const_365 : fin (JS.Z2num 365) /\ (1 <= val (JS.Z2num 365))%Q.
Proof. split; [const_fin|]. apply (const_ge 0); [const_fin|lia|reflexivity]. Qed.

Lemma const_30 : fin (JS.Z2num 30) /\ (1 <= val (JS.Z2num 30))%Q.
Proof. split; [const_fin|]. apply (const_ge 0); [const_fin|lia|reflexivity]. Qed.

Lemma const_100 : fin (JS.Z2num 100) /\ (1 <= val (JS.Z2num 100))%Q.
Proof. split; [const_fin|]. apply (const_ge 0); [const_fin|lia|reflexivity]. Qed.

Lemma const_120 : fin (JS.Z2num 120) /\ (1 <= val (JS.Z2num 120))%Q.
Proof. split; [const_fin|]. apply (const_ge 0); [const_fin|lia|reflexivity]. Qed.

Lemma historical_point_in_range (i : nat) (a : Z) :
  Z.of_nat i <= 2 ^ 54 ->
  in_range v (value (fst (historical_point Math_sin v p i a))).
Proof.
  intros Hi. unfold historical_point. cbv zeta.
  pose proof (random_bounded a) as Br.
  destruct (Prng.mulberry32_next a) as [r a']. cbn [fst value] in *.
  destruct (range_facts v) as (Bmin & Bmax & Hmm & Brange & _).
  fold (vmin v) (vmax v).
  destruct const_365 as [F365 G365]. destruct const_30 as [F30 G30].
  pose proof (sin_term_bounded (Z.of_nat i) _ ltac:(lia) F365 G365) as S1.
  pose proof (sin_term_bounded (Z.of_nat i) _ ltac:(lia) F30 G30) as S2.
  assert (Bq : bounded 0 (JS.dec 25 2)) by const_bounded.
  assert (Bh : bounded 0 (JS.dec 5 1)) by const_bounded.
  assert (Bt : bounded 0 (JS.dec 1 1)) by const_bounded.
  pose proof (bounded_mul _ _ _ _ S1 Bq ltac:(lia)) as T1.
  pose proof (bounded_mul _ _ _ _ S2 Bq ltac:(lia)) as T2.
  pose proof (bounded_add _ _ _ _ T1 T2 ltac:(lia)) as Bs.
  pose proof (bounded_sub _ _ _ _ Br Bh ltac:(lia)) as N1.
  pose proof (bounded_mul _ _ _ _ N1 Bt ltac:(lia)) as N2.
  pose proof (bounded_add _ _ _ _ Bs N2 ltac:(lia)) as A1.
  pose proof (bounded_mul _ _ _ _ Bh A1 ltac:(lia)) as A2.
  pose proof (bounded_add _ _ _ _ Bh A2 ltac:(lia)) as A3.
  pose proof (bounded_mul _ _ _ _ A3 Brange ltac:(lia)) as A4.
  pose proof (bounded_add _ _ _ _ Bmin A4 ltac:(lia)) as A5.
  apply clamp_fin; eauto using bounded_fin.
Qed.

Lemma historical_loop_in_range (n i : nat) (a : Z) :
  Z.of_nat (i + n) <= 2 ^ 54 ->
  Forall (fun q => in_range v (value q)) (fst (historical_loop Math_sin v p n i a)).
Proof.
  revert i a; induction n as [|n IH]; intros i a Hn; cbn [historical_loop]; [constructor|].
  pose proof (historical_point_in_range i a ltac:(lia)) as Hq.
  destruct (historical_point Math_sin v p i a) as [q a1].
  specialize (IH (S i) a1 ltac:(lia)).
  destruct (historical_loop Math_sin v p n (S i) a1) as [qs a2]; cbn [fst] in *.
  constructor; assumption.
Qed.

Hypothesis Ht : Z.of_nat (trainingDays p) <= 2 ^ 53.

Lemma T_bounded : bounded 53 (JS.Z2num (Z.of_nat (trainingDays p))).
Proof. apply bounded_Z2num; lia. Qed.

Lemma shrink_bounded : bounded 54 (shrink p).
Proof.
  unfold shrink. destruct const_120 as [F G].
  apply (bounded_sub 0 53); [const_bounded| |lia].
  apply bounded_div; auto; try lia; apply T_bounded.
Qed.

Lemma seasonalAmplitude_bounded : bounded 53 (seasonalAmplitude p).
Proof.
  unfold seasonalAmplitude. destruct const_100 as [F G].
  destruct (30 <? trainingDays p)%nat; [|const_bounded].
  apply (bounded_mul 53 0); [|const_bounded|lia].
  apply bounded_div; auto; try lia; apply T_bounded.
Qed.

Lemma confidenceRange_bounded : bounded 60 (confidenceRange v p).
Proof.
  unfold confidenceRange. destruct (range_facts v) as (_ & _ & _ & Brange & _).
  apply (bounded_mul 6 54); [|apply shrink_bounded|lia].
  apply (bounded_mul 6 0); [exact Brange|const_bounded|lia].
Qed.

Lemma in_range_bounded8 x : in_range v x -> bounded 8 x.
Proof.
  intros (F & L & U). destruct (range_facts v) as (Bmin & Bmax & _).
  exact (in_range_bounded 8 _ _ x Bmin Bmax F L U).
Qed.

Lemma value_at_In (xs : list ForecastDataPoint) (i : Z) (x : JS.number) :
  value_at xs i = Some x -> exists q, In q xs /\ value q = x.
Proof.
  unfold value_at. destruct (i <? 0); [discriminate|].
  destruct (nth_error xs (Z.to_nat i)) as [q|] eqn:E; [|discriminate].
  intros [= <-]. exists q; split; [|reflexivity]. eapply nth_error_In; eassumption.
Qed.

Lemma forecast_point_in_range hd tr (i : nat) lv (a : Z) :
  Forall (fun q => in_range v (value q)) hd -> bounded 7 tr -> in_range v lv ->
  Z.of_nat i <= 2 ^ 53 ->
  in_range v (value (fst (forecast_point Math_sin v p hd tr i lv a))).
Proof.
  intros Hhd Btr Hlv Hi. unfold forecast_point. cbv zeta.
  pose proof (random_bounded a) as Br.
  destruct (Prng.mulberry32_next a) as [r a']. cbn [fst value] in *.
  destruct (range_facts v) as (Bmin & Bmax & Hmm & Brange & _).
  fold (vmin v) (vmax v).
  pose proof (in_range_bounded8 lv Hlv) as Blv.
  assert (Bh : bounded 0 (JS.dec 5 1)) by const_bounded.
  assert (Bt : bounded 0 (JS.dec 1 1)) by const_bounded.
  assert (B2 : bounded 0 (JS.dec 2 1)) by const_bounded.
  (* the seasonal component *)
  match goal with
  | |- context [JS.add (JS.add (JS.add lv ?s) tr) ?n] =>
      assert (Bs : bounded 59 s); [|assert (Bn : bounded 61 n)]
  end.
  - destruct (trainingDays p <=? 20)%nat.
    + apply (bounded_weaken 9); [|lia].
      apply (bounded_sub 8 8); [|exact Blv|lia].
      destruct (value_at hd _) as [x|] eqn:E; [|exact Blv].
      apply value_at_In in E. destruct E as (q & Hq & <-).
      rewrite Forall_forall in Hhd. apply in_range_bounded8, Hhd, Hq.
    + destruct const_365 as [F365 G365].
      pose proof (sin_term_bounded (Z.of_nat (trainingDays p + i)) _ ltac:(lia) F365 G365) as S1.
      pose proof (bounded_mul _ _ _ _ S1 Brange ltac:(lia)) as S2.
      pose proof (bounded_mul _ _ _ _ S2 Bt ltac:(lia)) as S3.
      exact (bounded_mul _ _ _ _ S3 seasonalAmplitude_bounded ltac:(lia)).
  - pose proof (bounded_sub _ _ _ _ Br Bh ltac:(lia)) as N1.
    pose proof (bounded_mul _ _ _ _ N1 Brange ltac:(lia)) as N2.
    pose proof (bounded_mul _ _ _ _ N2 B2 ltac:(lia)) as N3.
    exact (bounded_mul _ _ _ _ N3 shrink_bounded ltac:(lia)).
  - pose proof (bounded_add _ _ _ _ Blv Bs ltac:(lia)) as A1.
    pose proof (bounded_add _ _ _ _ A1 Btr ltac:(lia)) as A2.
    pose proof (bounded_add _ _ _ _ A2 Bn ltac:(lia)) as A3.
    apply clamp_fin; eauto using bounded_fin.
Qed.

Lemma forecast_loop_in_range hd tr (n i : nat) lv (a : Z) :
  Forall (fun q => in_range v (value q)) hd -> bounded 7 tr -> in_range v lv ->
  Z.of_nat (i + n) <= 2 ^ 53 ->
  Forall (fun q => in_range v (value q)) (forecast_loop Math_sin v p hd tr n i lv a).
Proof.
  intros Hhd Btr. revert i lv a; induction n as [|n IH]; intros i lv a Hlv Hn;
    cbn [forecast_loop]; [constructor|].
  pose proof (forecast_point_in_range hd tr i lv a Hhd Btr Hlv ltac:(lia)) as Hq.
  destruct (forecast_point Math_sin v p hd tr i lv a) as [q a1]; cbn [fst] in *.
  constructor; [exact Hq|]. apply IH; [exact Hq|lia].
Qed.


Lemma lastVal_in_range (hd : list ForecastDataPoint) :
  Forall (fun q => in_range v (value q)) hd ->
  in_range v (match value_at hd (Z.of_nat (List.length hd) - 1) with
              | Some x => x
              | None => JS.add (vmin v) (JS.div (JS.sub (vmax v) (vmin v)) (JS.Z2num 2))
              end).
Proof.
  intros H. destruct (value_at hd _) as [x|] eqn:E.
  - apply value_at_In in E. destruct E as (q & Hq & <-).
    rewrite Forall_forall in H. apply H, Hq.
  - destruct v; (split; [const_fin|split; reflexivity]).
Qed.

Lemma trend_bounded (r : JS.number) :
  bounded 0 r ->
  bounded 7 (JS.mul (JS.sub r (JS.dec 5 1)) (JS.mul (JS.sub (vmax v) (vmin v)) (JS.dec 1 2))).
Proof.
  intros Br. destruct (range_facts v) as (_ & _ & _ & Brange & _).
  assert (Bh : bounded 0 (JS.dec 5 1)) by const_bounded.
  assert (Bc : bounded 0 (JS.dec 1 2)) by const_bounded.
  pose proof (bounded_sub _ _ _ _ Br Bh ltac:(lia)) as N1.
  pose proof (bounded_mul _ _ _ _ Brange Bc ltac:(lia)) as N2.
  exact (bounded_mul _ _ _ _ N1 N2 ltac:(lia)).
Qed.

(** Every value of the returned series lies in the range of its variable. *)
Lemma data_in_range (seed : Z) :
  Z.of_nat (iterations (getHorizonInDays (horizon p))) <= 2 ^ 53 ->
  Forall (fun q => in_range v (value q)) (data (generateSingleForecast Math_sin v p seed)).
Proof.
  intros Hh. unfold generateSingleForecast.
  pose proof (historical_loop_in_range (trainingDays p) 0 (Prng.mulberry32 seed) ltac:(lia)) as Hhd.
  destruct (historical_loop Math_sin v p (trainingDays p) 0 (Prng.mulberry32 seed)) as [hd a1].
  cbn [fst] in Hhd.
  pose proof (lastVal_in_range hd Hhd) as Hlv. unfold vmin, vmax in Hlv.
  destruct (30 <? trainingDays p)%nat.
  - pose proof (random_bounded a1) as Br.
    destruct (Prng.mulberry32_next a1) as [r a2]; cbn [data fst] in *.
    apply Forall_app; split; [exact Hhd|].
    apply forecast_loop_in_range; [exact Hhd|apply trend_bounded, Br|exact Hlv|lia].
  - cbn [data].
    apply Forall_app; split; [exact Hhd|].
    apply forecast_loop_in_range; [exact Hhd|const_bounded|exact Hlv|lia].
Qed.


(** *** The band, for a window of at most 120 days *)

Lemma shrink_nonneg : (trainingDays p <= 120)%nat -> fle (S754_zero false) (shrink p).
Proof.
  intros H. unfold shrink. destruct const_120 as [[V120 F120] G].
  destruct (bounded_fin _ _ T_bounded) as [VT FT].
  assert (B1 : bounded 0 (JS.Z2num 1)) by const_bounded.
  destruct (bounded_fin _ _ B1) as [V1 F1].
  assert (HT : fle (JS.Z2num (Z.of_nat (trainingDays p))) (JS.Z2num 120))
    by (apply Z2num_mono; lia).
  apply val_mono in HT; auto.
  assert (N120 : is_nonzero_finite (JS.Z2num 120)) by exact I.
  assert (Hq : fle (JS.div (JS.Z2num (Z.of_nat (trainingDays p))) (JS.Z2num 120)) (JS.Z2num 1)).
  { eapply Rnd_mono; [apply SFdiv_Rnd; assumption|apply Z2num_Rnd|].
    apply Qle_shift_div_r; [lra|]. change (inject_Z 1) with 1%Q. lra. }
  assert (Bq : bounded 53 (JS.div (JS.Z2num (Z.of_nat (trainingDays p))) (JS.Z2num 120))).
  { apply bounded_div; [apply T_bounded|split; assumption|exact G|lia]. }
  destruct (bounded_fin _ _ Bq) as [Vq Fq].
  apply val_mono in Hq; auto.
  apply fle_zero_nonneg. eapply Rnd_nonneg; [apply SFsub_Rnd; assumption|]. lra.
Qed.

Lemma confidenceRange_nonneg :
  (trainingDays p <= 120)%nat -> fle (S754_zero false) (confidenceRange v p).
Proof.
  intros H. unfold confidenceRange.
  destruct (range_facts v) as (_ & _ & _ & Brange & Hr). fold (vmin v) (vmax v).
  assert (Bc : bounded 0 (JS.dec 15 2)) by const_bounded.
  pose proof (bounded_mul _ _ _ _ Brange Bc ltac:(lia)) as Ba.
  pose proof (bounded_nonneg_val _ _ Ba Hr) as Ha.
  pose proof (bounded_nonneg_val _ _ shrink_bounded (shrink_nonneg H)) as Hs.
  destruct (bounded_fin _ _ Ba) as [Va Fa].
  destruct (bounded_fin _ _ shrink_bounded) as [Vs Fs].
  apply fle_zero_nonneg. eapply Rnd_nonneg; [apply SFmul_Rnd; assumption|]. nra.
Qed.

Lemma band_sums_fin (x : JS.number) :
  in_range v x ->
  fin (JS.sub x (confidenceRange v p)) /\ fin (JS.add x (confidenceRange v p)).
Proof.
  intros Hx. pose proof (in_range_bounded8 x Hx) as Bx.
  pose proof confidenceRange_bounded as Bc.
  split; eapply bounded_fin; [apply (bounded_sub 8 60)|apply (bounded_add 8 60)];
    try eassumption; lia.
Qed.

(** With a non-negative half-width, the band is ordered around the value and
    inside the range. *)
Lemma band_ordered (x : JS.number) :
  in_range v x -> fle (S754_zero false) (confidenceRange v p) ->
  fle (vmin v) (fst (band v p x)) /\ fle (fst (band v p x)) x
  /\ fle x (snd (band v p x)) /\ fle (snd (band v p x)) (vmax v).
Proof.
  intros Hx Hc. destruct (band_sums_fin x Hx) as [Fs Fa].
  destruct Hx as (Fx & L & U).
  pose proof (bounded_fin _ _ confidenceRange_bounded) as Fc.
  destruct (range_facts v) as (Bmin & Bmax & _).
  unfold band; cbn [fst snd]. fold (vmin v) (vmax v).
  destruct (Math_max_fin (vmin v) (JS.sub x (confidenceRange v p)) (bounded_fin _ _ Bmin) Fs)
    as (E1 & M1 & M2).
  destruct (Math_min_fin (vmax v) (JS.add x (confidenceRange v p)) (bounded_fin _ _ Bmax) Fa)
    as (E2 & N1 & N2).
  repeat split; auto.
  - destruct E1 as [-> | ->]; [exact L|apply sub_nonneg_le; auto].
  - destruct E2 as [-> | ->]; [exact U|apply add_nonneg_ge; auto].
Qed.

(** Whatever the half-width, a lower side that is below the value forces
    [min - halfWidth <= max]. *)
Lemma band_lower_below (x : JS.number) :
  in_range v x -> fle (fst (band v p x)) x ->
  fle (JS.sub (vmin v) (confidenceRange v p)) (vmax v).
Proof.
  intros Hx Hlo. destruct (band_sums_fin x Hx) as [Fs Fa].
  destruct Hx as (Fx & L & U).
  pose proof (bounded_fin _ _ confidenceRange_bounded) as Fc.
  destruct (range_facts v) as (Bmin & Bmax & _).
  pose proof (bounded_fin _ _ Bmin) as Fmin. pose proof (bounded_fin _ _ Bmax) as Fmax.
  pose proof (bounded_fin _ _ (bounded_sub _ _ _ _ Bmin confidenceRange_bounded ltac:(lia))) as Fm.
  unfold band in Hlo; cbn [fst] in Hlo. fold (vmin v) in Hlo.
  destruct (Math_max_fin (vmin v) (JS.sub x (confidenceRange v p)) Fmin Fs) as (E1 & M1 & M2).
  assert (Fl : fin (JS.Math_max (vmin v) (JS.sub x (confidenceRange v p))))
    by (destruct E1 as [-> | ->]; assumption).
  apply (fle_trans _ (JS.sub x (confidenceRange v p))); auto.
  - apply sub_mono_l; auto.
  - apply (fle_trans _ x); auto.
    apply (fle_trans _ (JS.Math_max (vmin v) (JS.sub x (confidenceRange v p)))); auto.
Qed.

(** *** The band, for a window of at least 120 days *)

Lemma shrink_nonpos : (120 <= trainingDays p)%nat -> fle (shrink p) (S754_zero false).
Proof.
  intros H. unfold shrink. destruct const_120 as [[V120 F120] G].
  destruct (bounded_fin _ _ T_bounded) as [VT FT].
  assert (B1 : bounded 0 (JS.Z2num 1)) by const_bounded.
  destruct (bounded_fin _ _ B1) as [V1 F1].
  assert (HT : fle (JS.Z2num 120) (JS.Z2num (Z.of_nat (trainingDays p))))
    by (apply Z2num_mono; lia).
  apply val_mono in HT; auto.
  assert (N120 : is_nonzero_finite (JS.Z2num 120)) by exact I.
  assert (Hq : fle (JS.Z2num 1) (JS.div (JS.Z2num (Z.of_nat (trainingDays p))) (JS.Z2num 120))).
  { eapply Rnd_mono; [apply Z2num_Rnd|apply SFdiv_Rnd; assumption|].
    apply Qle_shift_div_l; [lra|]. change (inject_Z 1) with 1%Q. lra. }
  assert (Bq : bounded 53 (JS.div (JS.Z2num (Z.of_nat (trainingDays p))) (JS.Z2num 120))).
  { apply bounded_div; [apply T_bounded|split; assumption|exact G|lia]. }
  destruct (bounded_fin _ _ Bq) as [Vq Fq].
  apply val_mono in Hq; auto.
  eapply Rnd_nonpos; [apply SFsub_Rnd; assumption|]. lra.
Qed.

Lemma confidenceRange_nonpos :
  (120 <= trainingDays p)%nat -> fle (confidenceRange v p) (S754_zero false).
Proof.
  intros H. unfold confidenceRange.
  destruct (range_facts v) as (_ & _ & _ & Brange & Hr). fold (vmin v) (vmax v).
  assert (Bc : bounded 0 (JS.dec 15 2)) by const_bounded.
  pose proof (bounded_mul _ _ _ _ Brange Bc ltac:(lia)) as Ba.
  pose proof (bounded_nonneg_val _ _ Ba Hr) as Ha.
  destruct (bounded_fin _ _ Ba) as [Va Fa].
  destruct (bounded_fin _ _ shrink_bounded) as [Vs Fs].
  pose proof (val_mono (shrink p) (S754_zero false) Vs eq_refl Fs I (shrink_nonpos H)) as Hs.
  cbn [val] in Hs.
  eapply Rnd_nonpos; [apply SFmul_Rnd; assumption|]. nra.
Qed.

(** Whatever the half-width, the lower side is at least [min] and the upper
    side at most [max]. *)
Lemma band_sides_bounded (x : JS.number) :
  in_range v x -> fle (vmin v) (fst (band v p x)) /\ fle (snd (band v p x)) (vmax v).
Proof.
  intros Hx. destruct (band_sums_fin x Hx) as [Fs Fa].
  destruct (range_facts v) as (Bmin & Bmax & _).
  unfold band; cbn [fst snd]. fold (vmin v) (vmax v).
  destruct (Math_max_fin (vmin v) (JS.sub x (confidenceRange v p)) (bounded_fin _ _ Bmin) Fs)
    as (_ & M1 & _).
  destruct (Math_min_fin (vmax v) (JS.add x (confidenceRange v p)) (bounded_fin _ _ Bmax) Fa)
    as (_ & N1 & _).
  split; assumption.
Qed.

(** With a half-width that is not positive, the sides exchange their roles:
    the upper side is below the value and the lower side above it. *)
Lemma band_inverted_order (x : JS.number) :
  in_range v x -> fle (confidenceRange v p) (S754_zero false) ->
  fle (snd (band v p x)) x /\ fle x (fst (band v p x)).
Proof.
  intros Hx Hc. destruct (band_sums_fin x Hx) as [Fs Fa].
  destruct Hx as (Fx & L & U).
  pose proof (bounded_fin _ _ confidenceRange_bounded) as Fc.
  destruct (range_facts v) as (Bmin & Bmax & _).
  unfold band; cbn [fst snd]. fold (vmin v) (vmax v).
  destruct (Math_max_fin (vmin v) (JS.sub x (confidenceRange v p)) (bounded_fin _ _ Bmin) Fs)
    as (E1 & M1 & M2).
  destruct (Math_min_fin (vmax v) (JS.add x (confidenceRange v p)) (bounded_fin _ _ Bmax) Fa)
    as (E2 & N1 & N2).
  assert (Fl : fin (JS.Math_max (vmin v) (JS.sub x (confidenceRange v p))))
    by (destruct E1 as [-> | ->]; [exact (bounded_fin _ _ Bmin)|exact Fs]).
  assert (Fu : fin (JS.Math_min (vmax v) (JS.add x (confidenceRange v p))))
    by (destruct E2 as [-> | ->]; [exact (bounded_fin _ _ Bmax)|exact Fa]).
  split.
  - apply (fle_trans _ (JS.add x (confidenceRange v p))); auto.
    apply add_nonpos_le; auto.
  - apply (fle_trans _ (JS.sub x (confidenceRange v p))); auto.
    apply sub_nonpos_ge; auto.
Qed.

End Invariants.

(** The sample sine is finite and within [-1, 1] on finite arguments. *)
Lemma sin_taylor_ok : sin_ok sin_taylor.
Proof.
  intros x Fx. destruct x as [s|s| |s m e];
    [|destruct Fx as [_ []]|destruct Fx as [_ []]|].
  - destruct s; const_bounded.
  - unfold sin_taylor.
    destruct (clamp_fin (JS.Z2num (-1)) (JS.Z2num 1) (S754_finite s m e)) as (F & L & U);
      [const_fin|const_fin|reflexivity|exact Fx|].
    apply bounded_const; [exact F|exact L|exact U|lia].
Qed.

(** ** Bounds (claim C1) *)

(** [min <= value <= max]. *)
Definition value_within (v : ForecastVariable) (q : ForecastDataPoint) : Prop :=
  fle (vmin v) (value q) /\ fle (value q) (vmax v).

(** [min <= confidence[0] <= value <= confidence[1] <= max], when the point
    has a confidence pair. *)
Definition band_within (v : ForecastVariable) (q : ForecastDataPoint) : Prop :=
  forall lo hi, confidence q = Some (lo, hi) ->
    fle (vmin v) lo /\ fle lo (value q) /\ fle (value q) hi /\ fle hi (vmax v).

Lemma data_confidence (Math_sin : JS.number -> JS.number) v p seed :
  Forall (fun q => confidence q = None \/ confidence q = Some (band v p (value q)))
         (data (generateSingleForecast Math_sin v p seed)).
Proof.
  destruct (data_decomposition Math_sin v p seed) as (tr & lv & a & ->).
  apply Forall_app; split.
  - eapply Forall_impl; [|apply historical_loop_types]. intros q [_ H]; auto.
  - eapply Forall_impl; [|apply forecast_loop_band]. intros q [_ H]; auto.
Qed.

Definition long_window : ForecastParams :=
  {| trainingDays := 1200; horizon := "1d"; variables := [temperature] |}.

(** C1, as stated, fails: with a training window of 1200 days the half-width
    of the band is [range * 0.15 * (1 - 10)], more than the whole range below
    zero, so that the lower side of the band of the forecast point lies above
    [max], whatever the (bounded) sine. *)
Lemma C1_counterexample :
  ~ exists Math_sin, sin_ok Math_sin
      /\ Forall (fun q => value_within temperature q /\ band_within temperature q)
                (data (generateSingleForecast Math_sin temperature long_window 1200)).
Proof.
  intros (f & Hs & H).
  assert (Ht : Z.of_nat (trainingDays long_window) <= 2 ^ 53) by (vm_compute; discriminate).
  assert (Hh : Z.of_nat (iterations (getHorizonInDays (horizon long_window))) <= 2 ^ 53)
    by (vm_compute; discriminate).
  pose proof (data_in_range f Hs temperature long_window Ht 1200 Hh) as R.
  destruct (data_decomposition f temperature long_window 1200) as (tr & lv & a & E).
  rewrite E in H, R. clear E.
  apply Forall_app in H, R. destruct H as [_ H], R as [_ R].
  revert H R.
  generalize (fst (historical_loop f temperature long_window (trainingDays long_window) 0
                     (Prng.mulberry32 1200))).
  intros hd H R.
  change (iterations (getHorizonInDays (horizon long_window))) with 1%nat in H, R.
  pose proof (forecast_loop_band f temperature long_window hd tr 1 0 lv a) as Cf.
  cbn [forecast_loop] in H, R, Cf.
  destruct (forecast_point f temperature long_window hd tr 0 lv a) as [q a1].
  apply Forall_inv in H, R, Cf.
  destruct H as [_ B], Cf as [_ Cf].
  destruct (B _ _ Cf) as (_ & Hlo & _).
  pose proof (band_lower_below temperature long_window Ht (value q) R Hlo) as K.
  vm_compute in K. discriminate K.
Qed.

(** [min <= confidence[0]] and [confidence[1] <= max], when the point has a
    confidence pair. *)
Definition band_sides_within (v : ForecastVariable) (q : ForecastDataPoint) : Prop :=
  forall lo hi, confidence q = Some (lo, hi) -> fle (vmin v) lo /\ fle hi (vmax v).

(** [confidence[0] <= value <= confidence[1]], when the point has a
    confidence pair. *)
Definition band_around_value (q : ForecastDataPoint) : Prop :=
  forall lo hi, confidence q = Some (lo, hi) -> fle lo (value q) /\ fle (value q) hi.

(** [confidence[1] <= value <= confidence[0]], when the point has a
    confidence pair. *)
Definition band_inverted (q : ForecastDataPoint) : Prop :=
  forall lo hi, confidence q = Some (lo, hi) -> fle hi (value q) /\ fle (value q) lo.

(** C1, amended: with a sine that is finite and within [-1, 1] on finite
    arguments, and a training window and a horizon of at most 2^53 days,
    every value of the returned series lies within the range of its variable,
    and every confidence pair satisfies [min <= confidence[0]] and
    [confidence[1] <= max]; the pair is ordered around the value,
    [confidence[0] <= value <= confidence[1]], when the training window has
    at most 120 days, and the other way round,
    [confidence[1] <= value <= confidence[0]], when it has at least 120. *)
Theorem C1_bounds (Math_sin : JS.number -> JS.number) v p seed :
  sin_ok Math_sin ->
  Z.of_nat (trainingDays p) <= 2 ^ 53 ->
  Z.of_nat (iterations (getHorizonInDays (horizon p))) <= 2 ^ 53 ->
  Forall (fun q => value_within v q
                   /\ band_sides_within v q
                   /\ ((trainingDays p <= 120)%nat -> band_around_value q)
                   /\ ((120 <= trainingDays p)%nat -> band_inverted q))
         (data (generateSingleForecast Math_sin v p seed)).
Proof.
  intros Hs Ht Hh.
  pose proof (data_in_range Math_sin Hs v p Ht seed Hh) as H1.
  pose proof (data_confidence Math_sin v p seed) as H2.
  rewrite Forall_forall in *. intros q Hq.
  specialize (H1 q Hq). specialize (H2 q Hq).
  split; [destruct H1 as (_ & L & U); split; assumption|].
  split; [|split].
  - intros lo hi E. destruct H2 as [H2|H2]; rewrite H2 in E; [discriminate|].
    injection E as <- <-. exact (band_sides_bounded v p Ht (value q) H1).
  - intros H120 lo hi E. destruct H2 as [H2|H2]; rewrite H2 in E; [discriminate|].
    injection E as <- <-.
    destruct (band_ordered v p Ht (value q) H1 (confidenceRange_nonneg v p Ht H120))
      as (_ & A & B & _).
    split; assumption.
  - intros H120 lo hi E. destruct H2 as [H2|H2]; rewrite H2 in E; [discriminate|].
    injection E as <- <-.
    exact (band_inverted_order v p Ht (value q) H1 (confidenceRange_nonpos v p Ht H120)).
Qed.

Lemma C1_bounds_witness :
  sin_ok sin_taylor
  /\ Forall (fun q => value_within temperature q
                      /\ band_sides_within temperature q
                      /\ ((trainingDays example_params <= 120)%nat -> band_around_value q)
                      /\ ((120 <= trainingDays example_params)%nat -> band_inverted q))
            (data (generateSingleForecast sin_taylor temperature example_params 30)).
Proof.
  split; [exact sin_taylor_ok|].
  apply (C1_bounds sin_taylor temperature example_params 30);
    [exact sin_taylor_ok|vm_compute; discriminate|vm_compute; discriminate].
Defined.

(** * Further properties of the generator *)

From Stdlib Require Import DecimalZ FinFun.

(** ** The seeded generator *)

(** [x < y] on finite numbers is the negation of [y <= x]. *)
Lemma ltb_negb_leb x y : is_finite x -> is_finite y -> SFltb x y = negb (SFleb y x).
Proof.
  intros Fx Fy. unfold SFltb, SFleb. rewrite (SFcompare_antisym x y).
  pose proof (fin_compare x y Fx Fy).
  destruct (SFcompare x y) as [[]|]; cbn; auto; congruence.
Qed.

Lemma fle_ltb_trans x y z :
  fin x -> fin y -> fin z -> fle x y -> SFltb y z = true -> SFltb x z = true.
Proof.
  intros Fx Fy Fz H1 H2.
  rewrite ltb_negb_leb in * by (apply Fx || apply Fy || apply Fz).
  destruct (SFleb z x) eqn:E; [|reflexivity].
  assert (H3 : fle z y) by (apply (fle_trans z x y); assumption).
  unfold fle in H3. rewrite H3 in H2. discriminate.
Qed.

(** The integer that [mulberry32_next] divides by 2^32. *)
Lemma ushr_0_range (z : Z) : 0 <= Prng.ushr z 0 < 2 ^ 32.
Proof.
  unfold Prng.ushr, Prng.ToUint32. change (0 mod 32) with 0.
  rewrite Z.shiftr_0_r. apply Z.mod_pos_bound. lia.
Qed.

Lemma unit_fraction_range (u : Z) :
  0 <= u < 2 ^ 32 ->
  let r := JS.div (JS.Z2num u) (JS.Z2num 4294967296) in
  fin r /\ fle (JS.Z2num 0) r /\ JS.ltb r (JS.Z2num 1) = true.
Proof.
  intros Hu r.
  assert (V32 : valid (S754_finite false 4503599627370496 (-20))) by reflexivity.
  change (JS.Z2num 4294967296) with (S754_finite false 4503599627370496 (-20)) in r.
  destruct (Z2num_closed u ltac:(lia)) as [Vu Nu].
  destruct (Z2num_closed (2 ^ 32 - 1) ltac:(lia)) as [Vm Nm].
  destruct (div_pos_closed _ _ V32 _ Vu Nu) as [Vr Nr].
  pose proof (div_pos_mono _ _ V32 _ _ Vu Vm Nu Nm (Z2num_mono u (2 ^ 32 - 1) ltac:(lia))) as Hr.
  fold r in Vr, Nr, Hr.
  assert (Fr : fin r).
  { split; [exact Vr|]. destruct (fle_finite_l _ _ Hr I) as [H1 H2].
    destruct r as [s|[]| |s m e]; cbn in *; try tauto; congruence. }
  split; [exact Fr|]. split; [apply fle_zero_nonneg, Nr|].
  apply (fle_ltb_trans r _ (JS.Z2num 1) Fr) in Hr; [exact Hr|const_fin|const_fin|reflexivity].
Qed.

(** X1: every call of [random()] returns a finite number [r] with
    [0 <= r < 1], whatever the content of the cell. *)
Theorem mulberry32_unit_interval (a : Z) :
  let r := fst (Prng.mulberry32_next a) in
  fin r /\ JS.leb (int 0) r = true /\ JS.ltb r (int 1) = true.
Proof.
  unfold Prng.mulberry32_next. cbv zeta. cbn [fst].
  apply unit_fraction_range, ushr_0_range.
Qed.

(** The cell is read through [a |= 0]: two contents with the same 32-bit
    wrap-around are the same cell. *)
Definition same_cell (a b : Z) : Prop := Prng.ToInt32 a = Prng.ToInt32 b.

Lemma bit_or_0 (a : Z) : Prng.bit_or a 0 = Prng.ToInt32 a.
Proof. unfold Prng.bit_or. change (Prng.ToInt32 0) with 0. apply Z.lor_0_r. Qed.

Lemma ToInt32_add_l (a c : Z) : Prng.ToInt32 (Prng.ToInt32 a + c) = Prng.ToInt32 (a + c).
Proof.
  unfold Prng.ToInt32. f_equal.
  replace ((a + 2 ^ 31) mod 2 ^ 32 - 2 ^ 31 + c + 2 ^ 31)
    with ((a + 2 ^ 31) mod 2 ^ 32 + c) by ring.
  replace (a + c + 2 ^ 31) with (a + 2 ^ 31 + c) by ring.
  apply Zplus_mod_idemp_l.
Qed.

Lemma ToInt32_period (a k : Z) : Prng.ToInt32 (a + 2 ^ 32 * k) = Prng.ToInt32 a.
Proof.
  unfold Prng.ToInt32. f_equal.
  replace (a + 2 ^ 32 * k + 2 ^ 31) with (a + 2 ^ 31 + k * 2 ^ 32) by ring.
  apply Z_mod_plus_full.
Qed.

Lemma ToInt32_range (a : Z) : - 2 ^ 31 <= Prng.ToInt32 a < 2 ^ 31.
Proof.
  unfold Prng.ToInt32. pose proof (Z.mod_pos_bound (a + 2 ^ 31) (2 ^ 32) ltac:(lia)). lia.
Qed.

Lemma mulberry32_next_cell (a : Z) :
  snd (Prng.mulberry32_next a) = Prng.ToInt32 (a + 1831565813).
Proof.
  unfold Prng.mulberry32_next. cbv zeta. cbn [snd].
  now rewrite !bit_or_0, ToInt32_add_l.
Qed.

Lemma mulberry32_next_same_cell (a b : Z) :
  same_cell a b -> Prng.mulberry32_next a = Prng.mulberry32_next b.
Proof.
  intros H. unfold Prng.mulberry32_next. cbv zeta.
  rewrite (bit_or_0 a), (bit_or_0 b), H. reflexivity.
Qed.

(** [n] successive calls of [random()] from the cell [a]: the numbers
    returned and the final content of the cell. *)
Fixpoint draws (n : nat) (a : Z) : list JS.number * Z :=
  match n with
  | O => ([], a)
  | S k =>
      let '(r, a) := Prng.mulberry32_next a in
      let '(rs, a) := draws k a in
      (r :: rs, a)
  end.

Lemma draws_cell (n : nat) (a : Z) :
  snd (draws (S n) a) = Prng.ToInt32 (a + (Z.of_nat n + 1) * 1831565813).
Proof.
  revert a; induction n as [|n IH]; intros a.
  - cbn [draws]. pose proof (mulberry32_next_cell a) as H.
    destruct (Prng.mulberry32_next a) as [r a1]. cbn [snd] in *.
    rewrite H. f_equal.
  - change (draws (S (S n)) a)
      with (let '(r, a1) := Prng.mulberry32_next a in
            let '(rs, a2) := draws (S n) a1 in (r :: rs, a2)).
    pose proof (mulberry32_next_cell a) as H.
    destruct (Prng.mulberry32_next a) as [r a1]. cbn [snd] in H.
    specialize (IH a1). destruct (draws (S n) a1) as [rs a2]. cbn [snd] in *.
    rewrite IH, H, ToInt32_add_l. f_equal. lia.
Qed.

Lemma draws_same_cell (n : nat) (a b : Z) :
  same_cell a b -> fst (draws n a) = fst (draws n b).
Proof.
  intros H. destruct n as [|n]; [reflexivity|].
  cbn [draws]. now rewrite (mulberry32_next_same_cell a b H).
Qed.

(** X2: the cell of the generator is a 32-bit counter that advances by
    [0x6D2B79F5] at each call: after [n + 1] calls from [a] it holds
    [a + (n + 1) * 0x6D2B79F5] wrapped to 32 bits; seeds that differ by a
    multiple of 2^32 give the same numbers; and after 2^32 more calls the
    cell is back to the same content. *)
Theorem mulberry32_counter (a : Z) (n : nat) :
  snd (draws (S n) a) = Prng.ToInt32 (a + (Z.of_nat n + 1) * 1831565813)
  /\ - 2 ^ 31 <= snd (draws (S n) a) < 2 ^ 31
  /\ (forall k m, fst (draws m (a + 2 ^ 32 * k)) = fst (draws m a))
  /\ (forall m, Z.of_nat m = Z.of_nat n + 2 ^ 32 -> snd (draws (S m) a) = snd (draws (S n) a)).
Proof.
  split; [apply draws_cell|]. split; [rewrite draws_cell; apply ToInt32_range|].
  split.
  - intros k m. apply draws_same_cell, ToInt32_period.
  - intros m Hm. rewrite !draws_cell, Hm.
    replace (a + (Z.of_nat n + 2 ^ 32 + 1) * 1831565813)
      with (a + (Z.of_nat n + 1) * 1831565813 + 2 ^ 32 * 1831565813) by ring.
    apply ToInt32_period.
Qed.

(** ** The seed of a forecast *)

Section SameCell.

Variable Math_sin : JS.number -> JS.number.
Variable v : ForecastVariable.
Variable p : ForecastParams.

Lemma historical_point_same_cell (i : nat) (a b : Z) :
  same_cell a b -> historical_point Math_sin v p i a = historical_point Math_sin v p i b.
Proof.
  intros H. unfold historical_point. cbv zeta.
  now rewrite (mulberry32_next_same_cell a b H).
Qed.

Lemma historical_loop_same_cell (n i : nat) (a b : Z) :
  same_cell a b ->
  fst (historical_loop Math_sin v p n i a) = fst (historical_loop Math_sin v p n i b)
  /\ same_cell (snd (historical_loop Math_sin v p n i a))
               (snd (historical_loop Math_sin v p n i b)).
Proof.
  intros H. destruct n as [|n]; [split; [reflexivity|exact H]|].
  cbn [historical_loop]. rewrite (historical_point_same_cell i a b H).
  split; reflexivity.
Qed.

Lemma forecast_loop_same_cell hd tr (n i : nat) lv (a b : Z) :
  same_cell a b ->
  forecast_loop Math_sin v p hd tr n i lv a = forecast_loop Math_sin v p hd tr n i lv b.
Proof.
  intros H. destruct n as [|n]; [reflexivity|].
  cbn [forecast_loop].
  replace (forecast_point Math_sin v p hd tr i lv a)
    with (forecast_point Math_sin v p hd tr i lv b); [reflexivity|].
  unfold forecast_point. cbv zeta. now rewrite (mulberry32_next_same_cell a b H).
Qed.

Lemma generateSingleForecast_same_cell (a b : Z) :
  same_cell a b ->
  generateSingleForecast Math_sin v p a = generateSingleForecast Math_sin v p b.
Proof.
  intros H. unfold generateSingleForecast, Prng.mulberry32.
  destruct (historical_loop_same_cell (trainingDays p) 0 a b H) as [E1 E2].
  destruct (historical_loop Math_sin v p (trainingDays p) 0 a) as [hd a1].
  destruct (historical_loop Math_sin v p (trainingDays p) 0 b) as [hd' b1].
  cbn [fst snd] in E1, E2. subst hd'.
  destruct (30 <? trainingDays p)%nat.
  - rewrite (mulberry32_next_same_cell a1 b1 E2). reflexivity.
  - now rewrite (forecast_loop_same_cell hd _ _ _ _ a1 b1 E2).
Qed.

End SameCell.

(** X3: a forecast depends on its seed through the 32-bit wrap-around of the
    seed only: the seeds [s] and [s + 2^32 * k] give the same result. *)
Theorem generateSingleForecast_seed_period (Math_sin : JS.number -> JS.number)
    (v : ForecastVariable) (p : ForecastParams) (seed k : Z) :
  generateSingleForecast Math_sin v p (seed + 2 ^ 32 * k)
  = generateSingleForecast Math_sin v p seed.
Proof. apply generateSingleForecast_same_cell, ToInt32_period. Qed.

(** ** Integers that binary64 holds exactly *)

Lemma SFcompare_Eq_pos m1 e1 m2 e2 :
  SFcompare (S754_finite false m1 e1) (S754_finite false m2 e2) = Some Eq ->
  S754_finite false m1 e1 = S754_finite false m2 e2.
Proof.
  cbn [SFcompare]. destruct (Z.compare_spec e1 e2) as [->|H|H]; try discriminate.
  intros H. injection H as H. apply Pos.compare_eq in H. now subst.
Qed.

(** A positive finite float. *)
Definition posfin (x : spec_float) : Prop := exists m e, x = S754_finite false m e.


Lemma posfin_ge x y : posfin x -> fle x y -> is_finite y -> posfin y.
Proof.
  intros (m & e & ->) H F.
  destruct y as [s|s| |[] m' e']; cbn in F; try tauto; try discriminate H.
  now exists m', e'.
Qed.

Lemma posfin_int (n : Z) : 1 <= n <= 2 ^ 53 -> posfin (int n).
Proof.
  intros H. apply (posfin_ge (int 1)); [now eexists _, _|apply Z2num_mono; lia|].
  eapply bounded_fin, (bounded_Z2num n 53); lia.
Qed.

Lemma posfin_fin x : valid x -> posfin x -> fin x.
Proof. intros V (m & e & ->). split; [exact V|exact I]. Qed.

Lemma fle_antisym_pos x y : posfin x -> posfin y -> fle x y -> fle y x -> x = y.
Proof.
  intros (m1 & e1 & ->) (m2 & e2 & ->) H1 H2.
  unfold fle, SFleb in H1, H2. rewrite (SFcompare_antisym (S754_finite false m1 e1)) in H2.
  destruct (SFcompare (S754_finite false m1 e1) _) as [[]|] eqn:E; cbn in *;
    try discriminate.
  now apply SFcompare_Eq_pos.
Qed.

(** Two correct roundings of the same positive real are the same float. *)
Lemma Rnd_unique r x y : Rnd r x -> Rnd r y -> posfin x -> x = y.
Proof.
  intros Rx Ry Px.
  pose proof (Rnd_mono r x r y Rx Ry ltac:(lra)) as H1.
  pose proof (Rnd_mono r y r x Ry Rx ltac:(lra)) as H2.
  assert (Fx : is_finite x) by (destruct Px as (m & e & ->); exact I).
  destruct (fle_finite_l _ _ H2 Fx) as [N1 N2].
  destruct (fle_finite_r _ _ H1 Fx) as [N3 _].
  assert (Fy : is_finite y).
  { destruct y as [s|[]| |s m e]; cbn; auto; congruence. }
  apply fle_antisym_pos; auto. now apply (posfin_ge x).
Qed.

(** An integer below 2^53 is a binary64 number: its digits shifted to 53
    bits. *)
Lemma Z2num_normal (a : Z) :
  0 < a < 2 ^ 53 ->
  exists k, 0 <= k <= 52 /\ 2 ^ 52 <= a * 2 ^ k < 2 ^ 53
            /\ int a = S754_finite false (Z.to_pos (a * 2 ^ k)) (- k).
Proof.
  intros Ha.
  pose proof (Zdigits2_spec a ltac:(lia)) as [D1 D2].
  pose proof (Zdigits2_le_53 a ltac:(lia)) as D3.
  pose proof (Zdigits2_nonneg a) as D4.
  assert (D5 : 1 <= Zdigits2 a).
  { destruct (Z.eq_dec (Zdigits2 a) 0) as [E|E]; [|lia]. rewrite E in D2. cbn in D2. lia. }
  set (d := Zdigits2 a) in *. set (k := 53 - d).
  assert (K1 : 2 ^ (d - 1) * 2 ^ k = 2 ^ 52).
  { rewrite <- Z.pow_add_r by lia. f_equal. lia. }
  assert (K2 : 2 ^ d * 2 ^ k = 2 ^ 53).
  { rewrite <- Z.pow_add_r by lia. f_equal. lia. }
  assert (K3 : 0 < 2 ^ k) by (apply Z.pow_pos_nonneg; lia).
  set (m := a * 2 ^ k).
  assert (Hm : 2 ^ 52 <= m < 2 ^ 53) by (unfold m; nia).
  set (y0 := S754_finite false (Z.to_pos m) (- k)).
  assert (V0 : valid y0) by (apply finite_valid; lia).
  assert (E0 : (val y0 == inject_Z a)%Q).
  { unfold y0. cbn [val]. rewrite Z2Pos.id by lia. unfold m.
    rewrite <- (inject_P2 a k) by lia.
    rewrite <- Qmult_assoc, (Qmult_comm (P2 k)), P2_inv. ring. }
  pose proof (Rnd_ext _ _ _ E0 (Rnd_val y0 V0 I)) as R0.
  pose proof (Z2num_Rnd a) as Ra.
  assert (P0 : posfin y0) by (now eexists _, _).
  assert (E : y0 = int a) by exact (Rnd_unique _ _ _ R0 Ra P0).
  exists k. split; [lia|]. split; [exact Hm|]. now rewrite <- E.
Qed.

Lemma Z2num_exact (a : Z) : 0 <= a < 2 ^ 53 -> (val (int a) == inject_Z a)%Q.
Proof.
  intros Ha. destruct (Z.eq_dec a 0) as [->|Hn]; [reflexivity|].
  destruct (Z2num_normal a ltac:(lia)) as (k & Hk & Hm & ->).
  cbn [val]. rewrite Z2Pos.id by lia.
  rewrite <- (inject_P2 a k) by lia.
  rewrite <- Qmult_assoc, (Qmult_comm (P2 k)), P2_inv. ring.
Qed.

(** The number that [Z2num] gives for an integer up to 2^53 holds that
    integer. *)
Lemma integer_value_nat (a : Z) : 0 <= a <= 2 ^ 53 -> integer_value (int a) = Some a.
Proof.
  intros Ha. destruct (Z.eq_dec a 0) as [->|Hn]; [reflexivity|].
  destruct (Z.eq_dec a (2 ^ 53)) as [->|Hm]; [reflexivity|].
  destruct (Z2num_normal a ltac:(lia)) as (k & Hk & Hr & ->).
  cbn [integer_value]. destruct k as [|q|q]; try lia.
  - cbn [Z.opp cond_Zopp]. rewrite Z2Pos.id by lia. f_equal.
    change (2 ^ 0) with 1. lia.
  - cbn [Z.opp cond_Zopp]. rewrite Z2Pos.id by lia.
    assert (0 < 2 ^ Zpos q) by (apply Z.pow_pos_nonneg; lia).
    rewrite Z_mod_mult. cbn [Z.eqb]. rewrite Z_div_mult by lia. reflexivity.
Qed.

Lemma integer_value_opp (x : JS.number) :
  integer_value (SFopp x) = option_map Z.opp (integer_value x).
Proof.
  destruct x as [s|s| |s m e]; cbn [SFopp integer_value option_map]; try reflexivity.
  destruct e as [|k|k]; [| |destruct (_ =? 0)]; cbn [option_map]; try reflexivity;
    destruct s; cbn [negb cond_Zopp]; f_equal; lia.
Qed.

(** Rounding an integer commutes with the change of sign. *)
Lemma Z2num_opp (z : Z) : z <> 0 -> int (- z) = SFopp (int z).
Proof.
  intros Hz. destruct z as [|q|q]; [congruence| |];
    unfold JS.Z2num, binary_normalize, binary_round, binary_round_aux;
    cbn [Z.opp];
    destruct (shl_align _ _ _) as [mz ez];
    destruct (shr_fexp _ _ _ _ _) as [mrs e1];
    destruct (shr_fexp _ _ _ _ _) as [mrs2 e2];
    destruct (shr_m mrs2); try reflexivity;
    destruct (e2 <=? _); reflexivity.
Qed.

Lemma integer_value_int (n : Z) : - 2 ^ 53 <= n <= 2 ^ 53 -> integer_value (int n) = Some n.
Proof.
  intros Hn. destruct (Z_le_gt_dec 0 n) as [Hp|Hneg]; [apply integer_value_nat; lia|].
  replace n with (- (- n)) by lia.
  rewrite Z2num_opp by lia. rewrite integer_value_opp, integer_value_nat by lia.
  reflexivity.
Qed.

Lemma iterations_int (n : Z) : - 2 ^ 53 <= n <= 2 ^ 53 -> iterations (int n) = Z.to_nat n.
Proof. intros Hn. apply iterations_integer, integer_value_int, Hn. Qed.

Lemma int_fin (a : Z) : 0 <= a <= 2 ^ 53 -> fin (int a).
Proof. intros H. eapply bounded_fin, (bounded_Z2num a 53); lia. Qed.

Lemma add_int (a b : Z) :
  0 <= a -> 0 <= b -> 1 <= a + b < 2 ^ 53 -> JS.add (int a) (int b) = int (a + b).
Proof.
  intros Ha Hb Hs. symmetry.
  destruct (int_fin a ltac:(lia)) as [Va Fa]. destruct (int_fin b ltac:(lia)) as [Vb Fb].
  apply (Rnd_unique (inject_Z (a + b))); [apply Z2num_Rnd| |apply posfin_int; lia].
  eapply Rnd_ext; [|apply SFadd_Rnd; assumption].
  rewrite !Z2num_exact by lia. now rewrite inject_Z_plus.
Qed.

Lemma div_int (k n : Z) :
  1 <= k -> 1 <= n -> k * n < 2 ^ 53 -> JS.div (int (k * n)) (int k) = int n.
Proof.
  intros Hk Hn Hs. symmetry.
  assert (Hk' : k < 2 ^ 53) by nia. assert (Hn' : n < 2 ^ 53) by nia.
  destruct (int_fin (k * n) ltac:(nia)) as [Va Fa]. destruct (int_fin k ltac:(lia)) as [Vb Fb].
  apply (Rnd_unique (inject_Z n)); [apply Z2num_Rnd| |apply posfin_int; lia].
  assert (Nk : is_nonzero_finite (int k))
    by (destruct (posfin_int k ltac:(lia)) as (m & e & ->); exact I).
  eapply Rnd_ext; [|apply SFdiv_Rnd; assumption].
  rewrite !Z2num_exact by nia. rewrite inject_Z_mult.
  assert (inject_Z k > 0)%Q by (apply inject_pos; lia).
  field. lra.
Qed.

Lemma nearest_up_int (q : Q) (n : Z) : (q == inject_Z n)%Q -> (nearest_up q == inject_Z n)%Q.
Proof.
  intros E. unfold nearest_up.
  pose proof (Qfloor_le (q + (1 # 2))) as H1. pose proof (Qlt_floor (q + (1 # 2))) as H2.
  set (f := Qfloor (q + (1 # 2))) in *. rewrite E in H1, H2.
  assert (A : (inject_Z f < inject_Z (n + 1))%Q) by (rewrite inject_Z_plus; change (inject_Z 1) with 1%Q; lra).
  assert (B : (inject_Z n < inject_Z (f + 1))%Q) by lra.
  rewrite <- Zlt_Qlt in A, B. replace f with n by lia. reflexivity.
Qed.

Lemma Math_round_int (n : Z) : 1 <= n < 2 ^ 53 -> JS.Math_round (int n) = int n.
Proof.
  intros Hn. symmetry. destruct (int_fin n ltac:(lia)) as [Vn Fn].
  apply (Rnd_unique (inject_Z n)); [apply Z2num_Rnd| |apply posfin_int; lia].
  eapply Rnd_ext; [|apply Math_round_Rnd; exact Fn].
  apply nearest_up_int, Z2num_exact. lia.
Qed.

(** ** Horizons written as a number of days *)

(** The value of a string of decimal digits read from the left, from the
    value [acc] of the digits already read. *)
Fixpoint horner (d : Decimal.uint) (acc : Z) : Z :=
  match d with
  | Decimal.Nil => acc
  | Decimal.D0 l => horner l (10 * acc)
  | Decimal.D1 l => horner l (10 * acc + 1)
  | Decimal.D2 l => horner l (10 * acc + 2)
  | Decimal.D3 l => horner l (10 * acc + 3)
  | Decimal.D4 l => horner l (10 * acc + 4)
  | Decimal.D5 l => horner l (10 * acc + 5)
  | Decimal.D6 l => horner l (10 * acc + 6)
  | Decimal.D7 l => horner l (10 * acc + 7)
  | Decimal.D8 l => horner l (10 * acc + 8)
  | Decimal.D9 l => horner l (10 * acc + 9)
  end.

Lemma of_uint_acc_horner (d : Decimal.uint) (acc : positive) :
  Zpos (Pos.of_uint_acc d acc) = horner d (Zpos acc).
Proof.
  revert acc; induction d; intros acc; cbn [Pos.of_uint_acc horner];
    try reflexivity; rewrite IHd; f_equal; lia.
Qed.

Lemma of_uint_horner (d : Decimal.uint) : Z.of_uint d = horner d 0.
Proof.
  unfold Z.of_uint.
  induction d; cbn [Pos.of_uint horner]; try reflexivity; try exact IHd;
    cbn [Z.of_N]; rewrite of_uint_acc_horner; reflexivity.
Qed.

(** What follows the digits stops the scan: nothing, or a character that is
    no digit in any radix. *)
Definition stops_scan (rest : string) : Prop :=
  match rest with
  | EmptyString => True
  | String c _ => Str.digit_value c = None
  end.

Lemma parse_digits_stop (rest : string) (acc : option Z) :
  stops_scan rest -> Str.parse_digits 10 rest acc = acc.
Proof. destruct rest as [|c r]; cbn; [reflexivity|]. now intros ->. Qed.

Lemma parse_digits_uint (d : Decimal.uint) (rest : string) (acc : Z) :
  stops_scan rest ->
  Str.parse_digits 10 (NilEmpty.string_of_uint d ++ rest) (Some acc) = Some (horner d acc).
Proof.
  intros Hr. revert acc; induction d; intros acc;
    cbn [NilEmpty.string_of_uint horner append];
    [apply parse_digits_stop, Hr| ..];
    (cbn [Str.parse_digits]; 
     match goal with |- context [Str.digit_value ?c] =>
       let x := eval vm_compute in (Str.digit_value c) in
       change (Str.digit_value c) with x end;
     cbv iota; 
     match goal with |- context [?n <? 10] =>
       change (n <? 10) with true end;
     cbv iota; rewrite IHd; f_equal; f_equal; lia).
Qed.

Lemma parse_digits_uint_none (d : Decimal.uint) (rest : string) :
  stops_scan rest -> d <> Decimal.Nil ->
  Str.parse_digits 10 (NilEmpty.string_of_uint d ++ rest) None = Some (horner d 0).
Proof.
  intros Hr Hd. destruct d; try congruence;
    cbn [NilEmpty.string_of_uint horner append Str.parse_digits];
    match goal with |- context [Str.digit_value ?c] =>
       let x := eval vm_compute in (Str.digit_value c) in
       change (Str.digit_value c) with x end;
    cbv iota;
    match goal with |- context [?n <? 10] => change (n <? 10) with true end;
    cbv iota; rewrite parse_digits_uint by exact Hr; reflexivity.
Qed.

Lemma to_uint_nonnil (p : positive) : Pos.to_uint p <> Decimal.Nil.
Proof.
  intros E. pose proof (DecimalZ.of_to (Zpos p)) as H.
  cbn [Z.to_int Z.of_int] in H. rewrite E in H. discriminate H.
Qed.

Lemma parse_integer_uint (d : Decimal.uint) (rest : string) :
  d <> Decimal.Nil -> stops_scan rest ->
  Str.parse_integer (NilEmpty.string_of_uint d ++ rest) = Some (false, horner d 0).
Proof.
  intros Hd Hr.
  assert (E : Str.parse_integer (NilEmpty.string_of_uint d ++ rest)
              = match Str.parse_digits 10 (NilEmpty.string_of_uint d ++ rest) None with
                | None => None
                | Some n => Some (false, n)
                end).
  { unfold Str.parse_integer.
    destruct d as [|d|d|d|d|d|d|d|d|d|d]; try congruence;
      cbn [NilEmpty.string_of_uint append];
      try (cbn -[Str.parse_digits append NilEmpty.string_of_uint]; reflexivity).
    destruct d as [|d|d|d|d|d|d|d|d|d|d];
      cbn [NilEmpty.string_of_uint append];
      try (cbn -[Str.parse_digits append NilEmpty.string_of_uint]; reflexivity).
    destruct rest as [|c r]; [reflexivity|].
    cbn [stops_scan] in Hr.
    destruct c as [[] [] [] [] [] [] [] []]; try discriminate Hr; reflexivity. }
  now rewrite E, (parse_digits_uint_none d rest Hr Hd).
Qed.

Lemma parse_integer_neg_uint (d : Decimal.uint) (rest : string) :
  d <> Decimal.Nil -> stops_scan rest ->
  Str.parse_integer (String "-" (NilEmpty.string_of_uint d ++ rest))
  = Some (true, horner d 0).
Proof.
  intros Hd Hr. pose proof (parse_integer_uint d rest Hd Hr) as H.
  unfold Str.parse_integer in *.
  change (Str.trim_start (String "-" (NilEmpty.string_of_uint d ++ rest)))
    with (String "-" (NilEmpty.string_of_uint d ++ rest)).
  cbv iota beta.
  assert (T : Str.trim_start (NilEmpty.string_of_uint d ++ rest)
              = (NilEmpty.string_of_uint d ++ rest)%string).
  { destruct d; try congruence; reflexivity. }
  rewrite T in H.
  assert (S : match (NilEmpty.string_of_uint d ++ rest)%string with
              | String "-"%char r => (true, r)
              | String "+"%char r => (false, r)
              | _ => (false, (NilEmpty.string_of_uint d ++ rest)%string)
              end = (false, (NilEmpty.string_of_uint d ++ rest)%string)).
  { destruct d; try congruence; reflexivity. }
  rewrite S in H. cbv iota beta in H.
  destruct (match (NilEmpty.string_of_uint d ++ rest)%string with
            | String "0"%char (String "x"%char r) => (16, r)
            | String "0"%char (String "X"%char r) => (16, r)
            | _ => (10, (NilEmpty.string_of_uint d ++ rest)%string)
            end) as [radix s3].
  destruct (Str.parse_digits radix s3 None) as [n|]; [|discriminate H].
  injection H as ->. reflexivity.
Qed.

(** The sign and the digits of an integer are read back, whatever follows
    them that is no digit. *)
Lemma parse_integer_toString (n : Z) (rest : string) :
  stops_scan rest ->
  Str.parse_integer (Str.Z_toString n ++ rest) = Some (n <? 0, Z.abs n).
Proof.
  intros Hr. unfold Str.Z_toString.
  destruct n as [|q|q]; cbn [Z.to_int NilEmpty.string_of_int Z.ltb Z.compare Z.abs].
  - apply (parse_integer_uint (Decimal.D0 Decimal.Nil) rest); [discriminate|exact Hr].
  - rewrite parse_integer_uint by (try apply to_uint_nonnil; exact Hr).
    rewrite <- of_uint_horner. do 2 f_equal. exact (DecimalZ.of_to (Zpos q)).
  - cbn [append]. rewrite parse_integer_neg_uint by (try apply to_uint_nonnil; exact Hr).
    rewrite <- of_uint_horner. do 2 f_equal.
    pose proof (DecimalZ.of_to (Zneg q)) as H. cbn [Z.to_int Z.of_int] in H. lia.
Qed.

Lemma append_nil_r (s : string) : (s ++ "")%string = s.
Proof. induction s as [|c s IH]; cbn [append]; [reflexivity|now rewrite IH]. Qed.

(** [parseInt] of the digits of an integer is that integer, rounded to
    binary64. *)
Lemma parseInt_toString (n : Z) (rest : string) :
  stops_scan rest -> Str.parseInt (Str.Z_toString n ++ rest) = int n.
Proof.
  intros Hr. unfold Str.parseInt. rewrite (parse_integer_toString n rest Hr).
  destruct n as [|q|q]; reflexivity.
Qed.

(** X4: a horizon made of the decimal digits of an integer [n] followed by
    ["d"] resolves to the binary64 value nearest to [n], which is [n] itself
    up to 2^53 (the loop then runs [n] times); so does one with anything
    between the digits and the ["d"] that starts with a character that is no
    digit (["14.5d"] resolves to 14).  Beyond 2^53 the integer is rounded:
    ["9007199254740993d"] resolves to 9007199254740992. *)
Theorem getHorizonInDays_days (n : Z) :
  getHorizonInDays (Str.Z_toString n ++ "d") = int n
  /\ (forall rest, stops_scan rest ->
        getHorizonInDays ((Str.Z_toString n ++ rest) ++ "d") = int n)
  /\ (- 2 ^ 53 <= n <= 2 ^ 53 ->
      integer_value (getHorizonInDays (Str.Z_toString n ++ "d")) = Some n
      /\ iterations (getHorizonInDays (Str.Z_toString n ++ "d")) = Z.to_nat n)
  /\ getHorizonInDays "14.5d" = int 14
  /\ integer_value (getHorizonInDays "9007199254740993d") = Some 9007199254740992.
Proof.
  assert (E : getHorizonInDays (Str.Z_toString n ++ "d") = int n).
  { rewrite getHorizonInDays_d, <- (append_nil_r (Str.Z_toString n)).
    now apply parseInt_toString. }
  split; [exact E|]. split; [|split; [|split; reflexivity]].
  - intros rest Hr. rewrite getHorizonInDays_d. now apply parseInt_toString.
  - intros Hn. rewrite E. split; [apply integer_value_int|apply iterations_int]; exact Hn.
Qed.

Lemma nat_toString_inj (a b : nat) : Str.nat_toString a = Str.nat_toString b -> a = b.
Proof.
  unfold Str.nat_toString. intros H.
  apply (f_equal (fun s => Str.parse_integer (s ++ ""))) in H.
  rewrite !parse_integer_toString in H by exact I.
  injection H as _ H. lia.
Qed.

(** ** Labels *)

Lemma data_days (Math_sin : JS.number -> JS.number) v p seed :
  map day (data (generateSingleForecast Math_sin v p seed))
  = map historical_label (rev (seq 1 (trainingDays p)))
    ++ map forecast_label (seq 1 (iterations (getHorizonInDays (horizon p)))).
Proof.
  destruct (data_decomposition Math_sin v p seed) as (tr & lv & a & ->).
  rewrite <- (map_map (fun q => (type q, day q)) snd).
  rewrite map_app, historical_loop_shape, forecast_loop_shape, map_app, !map_map.
  cbn [snd]. rewrite rev_seq_1, map_map, <- seq_shift, map_map.
  f_equal. apply map_ext; intros k; now rewrite Nat.add_1_r.
Qed.

(** X5: no two points of a series carry the same [day] label. *)
Theorem day_labels_distinct (Math_sin : JS.number -> JS.number) (v : ForecastVariable)
    (p : ForecastParams) (seed : Z) :
  NoDup (map day (data (generateSingleForecast Math_sin v p seed))).
Proof.
  rewrite data_days. apply NoDup_app.
  - apply Injective_map_NoDup; [|apply NoDup_rev, seq_NoDup].
    intros a b H. unfold historical_label in H.
    injection H as H. now apply nat_toString_inj.
  - apply Injective_map_NoDup; [|apply seq_NoDup].
    intros a b H. unfold forecast_label in H.
    injection H as H. now apply nat_toString_inj.
  - intros s H1 H2. apply in_map_iff in H1, H2.
    destruct H1 as (a & <- & _), H2 as (b & H & _).
    unfold historical_label, forecast_label in H. discriminate H.
Qed.

(** ** The horizon and the series *)

Section Window.

Variable Math_sin : JS.number -> JS.number.
Variable v : ForecastVariable.
Variables p p' : ForecastParams.
Hypothesis Hw : trainingDays p = trainingDays p'.

Lemma historical_point_window (i : nat) (a : Z) :
  historical_point Math_sin v p i a = historical_point Math_sin v p' i a.
Proof. unfold historical_point. now rewrite Hw. Qed.

Lemma historical_loop_window (n i : nat) (a : Z) :
  historical_loop Math_sin v p n i a = historical_loop Math_sin v p' n i a.
Proof.
  revert i a; induction n as [|n IH]; intros i a; cbn [historical_loop]; [reflexivity|].
  rewrite historical_point_window.
  destruct (historical_point Math_sin v p' i a) as [q a1]. now rewrite IH.
Qed.

Lemma forecast_point_window hd tr (i : nat) lv (a : Z) :
  forecast_point Math_sin v p hd tr i lv a = forecast_point Math_sin v p' hd tr i lv a.
Proof.
  unfold forecast_point, confidenceRange, seasonalAmplitude, shrink. now rewrite Hw.
Qed.

Lemma forecast_loop_window hd tr (n i : nat) lv (a : Z) :
  forecast_loop Math_sin v p hd tr n i lv a = forecast_loop Math_sin v p' hd tr n i lv a.
Proof.
  revert i lv a; induction n as [|n IH]; intros i lv a; cbn [forecast_loop]; [reflexivity|].
  rewrite forecast_point_window.
  destruct (forecast_point Math_sin v p' hd tr i lv a) as [q a1]. now rewrite IH.
Qed.

End Window.

Lemma forecast_loop_prefix (Math_sin : JS.number -> JS.number) v p hd tr (n m i : nat) lv a :
  exists rest,
    forecast_loop Math_sin v p hd tr (n + m) i lv a
    = forecast_loop Math_sin v p hd tr n i lv a ++ rest.
Proof.
  revert i lv a; induction n as [|n IH]; intros i lv a; cbn [Nat.add forecast_loop].
  - eexists; reflexivity.
  - destruct (forecast_point Math_sin v p hd tr i lv a) as [q a1].
    destruct (IH (S i) (value q) a1) as [rest ->]. exists rest. reflexivity.
Qed.

(** X6: the series of a longer horizon extends the series of a shorter one.
    For the same variable, seed and training window, the points returned
    for the shorter horizon are the first points returned for the longer
    one, whatever the horizon strings and the lists of variables; in
    particular the historical points do not depend on the horizon. *)
Theorem horizon_extension (Math_sin : JS.number -> JS.number) (v : ForecastVariable)
    (p p' : ForecastParams) (seed : Z) :
  trainingDays p = trainingDays p' ->
  (iterations (getHorizonInDays (horizon p))
   <= iterations (getHorizonInDays (horizon p')))%nat ->
  exists rest,
    data (generateSingleForecast Math_sin v p' seed)
    = data (generateSingleForecast Math_sin v p seed) ++ rest
    /\ List.length rest
       = (iterations (getHorizonInDays (horizon p'))
          - iterations (getHorizonInDays (horizon p)))%nat.
Proof.
  intros Hw Hh.
  assert (E : exists rest,
             data (generateSingleForecast Math_sin v p' seed)
             = data (generateSingleForecast Math_sin v p seed) ++ rest).
  { unfold generateSingleForecast.
    rewrite <- (historical_loop_window Math_sin v p p' Hw), <- Hw.
    destruct (historical_loop Math_sin v p (trainingDays p) 0 (Prng.mulberry32 seed))
      as [hd a1].
    replace (iterations (getHorizonInDays (horizon p')))
      with (iterations (getHorizonInDays (horizon p))
            + (iterations (getHorizonInDays (horizon p'))
               - iterations (getHorizonInDays (horizon p))))%nat by lia.
    destruct (30 <? trainingDays p)%nat;
      [destruct (Prng.mulberry32_next a1) as [r a2]|]; cbn [data];
      rewrite <- (forecast_loop_window Math_sin v p p' Hw);
      match goal with
      | |- context [forecast_loop Math_sin v p hd ?tr (?n + ?m) 0 ?lv ?a] =>
          destruct (forecast_loop_prefix Math_sin v p hd tr n m 0 lv a) as [rest ->]
      end;
      exists rest; now rewrite app_assoc. }
  destruct E as [rest E]. exists rest. split; [exact E|].
  apply (f_equal (@List.length _)) in E.
  rewrite length_app, !data_length, <- Hw in E. lia.
Qed.

Lemma horizon_extension_witness :
  exists rest,
    data (generateSingleForecast sin_taylor temperature
            {| trainingDays := 30; horizon := "1 month"; variables := [] |} 30)
    = data (generateSingleForecast sin_taylor temperature example_params 30) ++ rest
    /\ List.length rest = 23%nat.
Proof.
  apply (horizon_extension sin_taylor temperature example_params
           {| trainingDays := 30; horizon := "1 month"; variables := [] |} 30);
    [reflexivity|vm_compute; lia].
Defined.

(** ** A horizon of no day *)

Lemma div_NaN (x : JS.number) : JS.div JS.NaN x = JS.NaN.
Proof. destruct x; reflexivity. Qed.

(** X7: when the horizon resolves to NaN or to an integer below 1 (["0d"],
    ["-3d"]), the generator returns the historical points only, the
    statistics of an empty forecast ([min = +Infinity], [max = -Infinity],
    [trend = NaN]) and a narrative that ends with [Forecast shows values
    between Infinity and -Infinity. The trend appears stable.] *)
Theorem empty_forecast (Math_sin : JS.number -> JS.number) (v : ForecastVariable)
    (p : ForecastParams) (seed : Z) :
  iterations (getHorizonInDays (horizon p)) = 0%nat ->
  let r := generateSingleForecast Math_sin v p seed in
  data r = fst (historical_loop Math_sin v p (trainingDays p) 0 (Prng.mulberry32 seed))
  /\ List.length (data r) = trainingDays p
  /\ stats_min (stats r) = JS.Infinity
  /\ stats_max (stats r) = JS.neg_Infinity
  /\ stats_trend (stats r) = JS.NaN
  /\ exists regime,
       stats_narrative (stats r)
       = (regime ++ "Forecast shows values between Infinity and -Infinity. The trend appears stable.")%string.
Proof.
  intros H r. unfold r, generateSingleForecast. rewrite H.
  pose proof (historical_loop_length Math_sin v p (trainingDays p) 0 (Prng.mulberry32 seed)) as L.
  destruct (historical_loop Math_sin v p (trainingDays p) 0 (Prng.mulberry32 seed)) as [hd a1].
  cbn [fst] in L.
  assert (N : forall x, JS.div (JS.sub JS.NaN JS.NaN) x = JS.NaN) by apply div_NaN.
  destruct (30 <? trainingDays p)%nat; [destruct (Prng.mulberry32_next a1) as [x a2]|];
    cbn [forecast_loop map data stats stats_min stats_max stats_trend stats_narrative
         List.length number_at Z.of_nat Z.sub Z.opp Z.ltb Z.compare fst];
    rewrite ?N, app_nil_r;
    (repeat split; try reflexivity; try exact L;
     unfold single_narrative; eexists; reflexivity).
Qed.

Lemma empty_forecast_witness :
  let r := generateSingleForecast sin_taylor temperature
             {| trainingDays := 30; horizon := "0d"; variables := [temperature] |} 30 in
  List.length (data r) = 30%nat
  /\ stats_min (stats r) = JS.Infinity
  /\ stats_max (stats r) = JS.neg_Infinity
  /\ stats_trend (stats r) = JS.NaN.
Proof.
  destruct (empty_forecast sin_taylor temperature
              {| trainingDays := 30; horizon := "0d"; variables := [temperature] |} 30
              eq_refl) as (_ & H1 & H2 & H3 & H4 & _).
  repeat split; assumption.
Defined.

(** ** The statistics of a forecast *)

(** The parts of a result: the historical points, the forecast points, and
    the statistics as they are computed from the forecast values. *)
Lemma generateSingleForecast_parts (Math_sin : JS.number -> JS.number) v p seed :
  exists tr lv a,
    let hd := fst (historical_loop Math_sin v p (trainingDays p) 0 (Prng.mulberry32 seed)) in
    let fd := forecast_loop Math_sin v p hd tr (iterations (getHorizonInDays (horizon p))) 0 lv a in
    let r := generateSingleForecast Math_sin v p seed in
    data r = hd ++ fd
    /\ stats_min (stats r) = JS.Math_min_list (map value fd)
    /\ stats_max (stats r) = JS.Math_max_list (map value fd)
    /\ stats_trend (stats r)
       = JS.div (JS.sub (number_at (map value fd) (Z.of_nat (List.length (map value fd)) - 1))
                        (number_at (map value fd) 0))
                (getHorizonInDays (horizon p))
    /\ (sin_ok Math_sin -> Z.of_nat (trainingDays p) <= 2 ^ 53 ->
        Forall (fun q => in_range v (value q)) hd /\ bounded 7 tr /\ in_range v lv).
Proof.
  unfold generateSingleForecast.
  pose proof (fun Hs (Ht : Z.of_nat (trainingDays p) <= 2 ^ 53) =>
                historical_loop_in_range Math_sin Hs v p (trainingDays p) 0
                  (Prng.mulberry32 seed) ltac:(lia)) as Hhd.
  destruct (historical_loop Math_sin v p (trainingDays p) 0 (Prng.mulberry32 seed)) as [hd a1].
  cbn [fst] in *.
  destruct (30 <? trainingDays p)%nat.
  - pose proof (random_bounded a1) as Br.
    destruct (Prng.mulberry32_next a1) as [r a2]. cbn [fst] in Br.
    eexists _, _, _. cbv zeta. cbn [data stats stats_min stats_max stats_trend].
    do 4 (split; [reflexivity|]). intros Hs Ht.
    split; [exact (Hhd Hs Ht)|]. split; [apply (trend_bounded v p), Br|].
    exact (lastVal_in_range v hd (Hhd Hs Ht)).
  - eexists _, _, _. cbv zeta. cbn [data stats stats_min stats_max stats_trend].
    do 4 (split; [reflexivity|]). intros Hs Ht.
    split; [exact (Hhd Hs Ht)|]. split; [const_bounded|].
    exact (lastVal_in_range v hd (Hhd Hs Ht)).
Qed.

Lemma forecast_loop_types (Math_sin : JS.number -> JS.number) v p hd tr n i lv a :
  Forall (fun q => type q = forecast) (forecast_loop Math_sin v p hd tr n i lv a).
Proof.
  eapply Forall_impl; [|apply forecast_loop_band]. now intros q [H _].
Qed.

(** The least and the greatest of finite numbers. *)
Lemma fold_Math_min_fin (xs : list JS.number) (acc : JS.number) :
  fin acc -> Forall fin xs ->
  let m := fold_left JS.Math_min xs acc in
  fin m /\ (m = acc \/ In m xs) /\ fle m acc /\ Forall (fle m) xs.
Proof.
  revert acc; induction xs as [|x xs IH]; intros acc Fa Fx; cbn [fold_left].
  - repeat split; auto; try apply Fa. apply fle_fin_refl, Fa.
  - inversion Fx as [|? ? F1 F2]; subst.
    destruct (Math_min_fin acc x Fa F1) as (E & L1 & L2).
    assert (Fm : fin (JS.Math_min acc x)) by (destruct E as [-> | ->]; assumption).
    destruct (IH (JS.Math_min acc x) Fm F2) as (Fr & I & L & A).
    split; [exact Fr|]. split; [|split].
    + destruct I as [I|I]; [|right; right; exact I].
      rewrite I. destruct E as [-> | ->]; [left; reflexivity|right; left; reflexivity].
    + apply (fle_trans _ (JS.Math_min acc x)); assumption.
    + constructor; [|exact A]. apply (fle_trans _ (JS.Math_min acc x)); assumption.
Qed.

Lemma fold_Math_max_fin (xs : list JS.number) (acc : JS.number) :
  fin acc -> Forall fin xs ->
  let m := fold_left JS.Math_max xs acc in
  fin m /\ (m = acc \/ In m xs) /\ fle acc m /\ Forall (fun x => fle x m) xs.
Proof.
  revert acc; induction xs as [|x xs IH]; intros acc Fa Fx; cbn [fold_left].
  - repeat split; auto; try apply Fa. apply fle_fin_refl, Fa.
  - inversion Fx as [|? ? F1 F2]; subst.
    destruct (Math_max_fin acc x Fa F1) as (E & L1 & L2).
    assert (Fm : fin (JS.Math_max acc x)) by (destruct E as [-> | ->]; assumption).
    destruct (IH (JS.Math_max acc x) Fm F2) as (Fr & I & L & A).
    split; [exact Fr|]. split; [|split].
    + destruct I as [I|I]; [|right; right; exact I].
      rewrite I. destruct E as [-> | ->]; [left; reflexivity|right; left; reflexivity].
    + apply (fle_trans _ (JS.Math_max acc x)); assumption.
    + constructor; [|exact A]. apply (fle_trans _ (JS.Math_max acc x)); assumption.
Qed.

Lemma Math_min_Infinity (x : JS.number) : fin x -> JS.Math_min JS.Infinity x = x.
Proof. intros [_ F]. destruct x as [[]|[]| |[] m e]; cbn in F; try tauto; reflexivity. Qed.

Lemma Math_max_neg_Infinity (x : JS.number) : fin x -> JS.Math_max JS.neg_Infinity x = x.
Proof. intros [_ F]. destruct x as [[]|[]| |[] m e]; cbn in F; try tauto; reflexivity. Qed.

Lemma Math_min_list_fin (xs : list JS.number) :
  xs <> [] -> Forall fin xs ->
  let m := JS.Math_min_list xs in
  fin m /\ In m xs /\ Forall (fle m) xs.
Proof.
  intros Hne Fx. destruct xs as [|x xs]; [congruence|].
  inversion Fx as [|? ? F1 F2]; subst.
  unfold JS.Math_min_list. cbn [fold_left]. rewrite Math_min_Infinity by exact F1.
  destruct (fold_Math_min_fin xs x F1 F2) as (Fm & I & L & A).
  split; [exact Fm|]. split; [destruct I as [->|I]; [left; reflexivity|right; exact I]|].
  constructor; assumption.
Qed.

Lemma Math_max_list_fin (xs : list JS.number) :
  xs <> [] -> Forall fin xs ->
  let m := JS.Math_max_list xs in
  fin m /\ In m xs /\ Forall (fun x => fle x m) xs.
Proof.
  intros Hne Fx. destruct xs as [|x xs]; [congruence|].
  inversion Fx as [|? ? F1 F2]; subst.
  unfold JS.Math_max_list. cbn [fold_left]. rewrite Math_max_neg_Infinity by exact F1.
  destruct (fold_Math_max_fin xs x F1 F2) as (Fm & I & L & A).
  split; [exact Fm|]. split; [destruct I as [->|I]; [left; reflexivity|right; exact I]|].
  constructor; assumption.
Qed.

Lemma Forall_map_iff {A B : Type} (f : A -> B) (P : B -> Prop) (xs : list A) :
  Forall P (map f xs) <-> Forall (fun x => P (f x)) xs.
Proof. rewrite !Forall_forall. setoid_rewrite in_map_iff. firstorder (subst; auto). Qed.

(** X8: when the forecast has at least one point, [stats.min] and
    [stats.max] are the values of forecast points of the series, every
    forecast value lies between them, and they lie within the range of the
    variable. *)
Theorem forecast_extremes (Math_sin : JS.number -> JS.number) (v : ForecastVariable)
    (p : ForecastParams) (seed : Z) :
  sin_ok Math_sin ->
  Z.of_nat (trainingDays p) <= 2 ^ 53 ->
  1 <= Z.of_nat (iterations (getHorizonInDays (horizon p))) <= 2 ^ 53 ->
  let r := generateSingleForecast Math_sin v p seed in
  (exists q, In q (data r) /\ type q = forecast /\ value q = stats_min (stats r))
  /\ (exists q, In q (data r) /\ type q = forecast /\ value q = stats_max (stats r))
  /\ Forall (fun q => type q = forecast ->
                      fle (stats_min (stats r)) (value q)
                      /\ fle (value q) (stats_max (stats r))) (data r)
  /\ fle (vmin v) (stats_min (stats r))
  /\ fle (stats_max (stats r)) (vmax v).
Proof.
  intros Hs Ht Hh r.
  destruct (generateSingleForecast_parts Math_sin v p seed)
    as (tr & lv & a & Hd & Hmin & Hmax & _ & Hinv).
  cbv zeta in Hd, Hmin, Hmax, Hinv. fold r in Hd, Hmin, Hmax.
  destruct (Hinv Hs Ht) as (Hhd & Btr & Hlv).
  set (hd := fst (historical_loop Math_sin v p (trainingDays p) 0 (Prng.mulberry32 seed))) in *.
  set (fd := forecast_loop Math_sin v p hd tr (iterations (getHorizonInDays (horizon p))) 0 lv a)
    in *.
  assert (Rfd : Forall (fun q => in_range v (value q)) fd).
  { apply forecast_loop_in_range; auto. cbn [Nat.add]. lia. }
  assert (Tfd : Forall (fun q => type q = forecast) fd) by apply forecast_loop_types.
  assert (Ffd : Forall fin (map value fd)).
  { apply Forall_map_iff. eapply Forall_impl; [|exact Rfd]. now intros q [F _]. }
  assert (Nfd : map value fd <> []).
  { intros E. apply (f_equal (@List.length _)) in E.
    unfold fd in E. rewrite length_map, forecast_loop_length in E. cbn in E. lia. }
  destruct (Math_min_list_fin _ Nfd Ffd) as (Fmin & Imin & Amin).
  destruct (Math_max_list_fin _ Nfd Ffd) as (Fmax & Imax & Amax).
  rewrite <- Hmin in Fmin, Imin, Amin. rewrite <- Hmax in Fmax, Imax, Amax.
  apply in_map_iff in Imin, Imax.
  destruct Imin as (qmin & Emin & Imin), Imax as (qmax & Emax & Imax).
  rewrite Forall_forall in Rfd, Tfd.
  split; [exists qmin; rewrite Hd, in_app_iff; auto|].
  split; [exists qmax; rewrite Hd, in_app_iff; auto|].
  split.
  - rewrite Hd. apply Forall_app; split.
    + eapply Forall_impl; [|apply historical_loop_types].
      intros q [Hq _] Hf. congruence.
    + rewrite Forall_forall in Amin, Amax.
      apply Forall_forall. intros q Hq _.
      split; [apply Amin|apply Amax]; apply in_map, Hq.
  - rewrite <- Emin, <- Emax.
    destruct (Rfd qmin Imin) as (_ & L & _), (Rfd qmax Imax) as (_ & _ & U). auto.
Qed.

Lemma forecast_extremes_witness :
  let r := generateSingleForecast sin_taylor temperature example_params 30 in
  (exists q, In q (data r) /\ type q = forecast /\ value q = stats_min (stats r))
  /\ (exists q, In q (data r) /\ type q = forecast /\ value q = stats_max (stats r))
  /\ Forall (fun q => type q = forecast ->
                      fle (stats_min (stats r)) (value q)
                      /\ fle (value q) (stats_max (stats r))) (data r)
  /\ fle (vmin temperature) (stats_min (stats r))
  /\ fle (stats_max (stats r)) (vmax temperature).
Proof.
  apply (forecast_extremes sin_taylor temperature example_params 30);
    [exact sin_taylor_ok|vm_compute; discriminate|split; vm_compute; discriminate].
Defined.

Lemma number_at_In (xs : list JS.number) (i : Z) :
  0 <= i < Z.of_nat (List.length xs) -> In (number_at xs i) xs.
Proof.
  intros H. unfold number_at.
  destruct (Z.ltb_spec i 0) as [?|_]; [lia|]. apply nth_In. lia.
Qed.

(** The quotient of a difference of two values of the range by a number
    that is at least 1. *)
Lemma range_quotient_bound (v : ForecastVariable) (x y c : JS.number) :
  in_range v x -> in_range v y -> fin c -> (1 <= val c)%Q ->
  fin (JS.div (JS.sub x y) c)
  /\ fle (JS.div (JS.sub (vmin v) (vmax v)) c) (JS.div (JS.sub x y) c)
  /\ fle (JS.div (JS.sub x y) c) (JS.div (JS.sub (vmax v) (vmin v)) c).
Proof.
  intros Hx Hy Fc Hc.
  pose proof (in_range_bounded8 v x Hx) as Bx. pose proof (in_range_bounded8 v y Hy) as By.
  destruct (range_facts v) as (Bmin & Bmax & _).
  destruct Hx as ([Vx Fx] & Lx & Ux), Hy as ([Vy Fy] & Ly & Uy).
  destruct (bounded_fin _ _ Bmin) as [Vmin Fmin]. destruct (bounded_fin _ _ Bmax) as [Vmax Fmax].
  apply val_mono in Lx, Ux, Ly, Uy; auto.
  pose proof (bounded_sub _ _ _ _ Bx By ltac:(lia)) as Bd.
  pose proof (bounded_sub _ _ _ _ Bmin Bmax ltac:(lia)) as Bl.
  pose proof (bounded_sub _ _ _ _ Bmax Bmin ltac:(lia)) as Bu.
  destruct (bounded_fin _ _ Bd) as [Vd Fd]. destruct (bounded_fin _ _ Bl) as [Vl Fl].
  destruct (bounded_fin _ _ Bu) as [Vu Fu].
  assert (Hl : fle (JS.sub (vmin v) (vmax v)) (JS.sub x y)).
  { eapply Rnd_mono; [apply SFsub_Rnd; assumption|apply SFsub_Rnd; assumption|]. lra. }
  assert (Hu : fle (JS.sub x y) (JS.sub (vmax v) (vmin v))).
  { eapply Rnd_mono; [apply SFsub_Rnd; assumption|apply SFsub_Rnd; assumption|]. lra. }
  apply val_mono in Hl, Hu; auto.
  destruct Fc as [Vc Fc].
  assert (Nc : is_nonzero_finite c).
  { destruct c as [s|s| |s m e]; cbn in *; try tauto; lra. }
  assert (Pc : (0 < / val c)%Q) by (apply Qinv_lt_0_compat; lra).
  split; [eapply bounded_fin, (bounded_div 9); [exact Bd|split; assumption|exact Hc|lia]|].
  split; (eapply Rnd_mono; [apply SFdiv_Rnd; assumption|apply SFdiv_Rnd; assumption|]);
    unfold Qdiv; apply Qmult_le_compat_r; lra.
Qed.

(** X9: over a horizon of [z >= 1] days, [stats.trend] is finite and lies
    between [(min - max) / z] and [(max - min) / z]. *)
Theorem forecast_trend_bound (Math_sin : JS.number -> JS.number) (v : ForecastVariable)
    (p : ForecastParams) (seed z : Z) :
  sin_ok Math_sin ->
  Z.of_nat (trainingDays p) <= 2 ^ 53 ->
  getHorizonInDays (horizon p) = int z -> 1 <= z <= 2 ^ 53 ->
  let r := generateSingleForecast Math_sin v p seed in
  fin (stats_trend (stats r))
  /\ fle (JS.div (JS.sub (vmin v) (vmax v)) (int z)) (stats_trend (stats r))
  /\ fle (stats_trend (stats r)) (JS.div (JS.sub (vmax v) (vmin v)) (int z)).
Proof.
  intros Hs Ht Hh Hz r.
  destruct (generateSingleForecast_parts Math_sin v p seed)
    as (tr & lv & a & _ & _ & _ & Htr & Hinv).
  cbv zeta in Htr, Hinv. fold r in Htr. rewrite Htr, Hh, iterations_int by lia.
  destruct (Hinv Hs Ht) as (Hhd & Btr & Hlv).
  set (hd := fst (historical_loop Math_sin v p (trainingDays p) 0 (Prng.mulberry32 seed))) in *.
  set (fd := forecast_loop Math_sin v p hd tr (Z.to_nat z) 0 lv a).
  assert (Rfd : Forall (fun q => in_range v (value q)) fd).
  { apply forecast_loop_in_range; auto. cbn [Nat.add]. lia. }
  assert (Lfd : List.length (map value fd) = Z.to_nat z).
  { unfold fd. now rewrite length_map, forecast_loop_length. }
  assert (Rv : forall x, In x (map value fd) -> in_range v x).
  { intros x Hx. apply in_map_iff in Hx. destruct Hx as (q & <- & Hq).
    rewrite Forall_forall in Rfd. auto. }
  apply range_quotient_bound.
  - apply Rv, number_at_In. lia.
  - apply Rv, number_at_In. lia.
  - eapply bounded_fin, (bounded_Z2num z 53); lia.
  - apply (const_ge 0); [eapply bounded_fin, (bounded_Z2num z 53); lia|lia|].
    exact (Z2num_mono 1 z ltac:(lia)).
Qed.

Lemma forecast_trend_bound_witness :
  let r := generateSingleForecast sin_taylor temperature example_params 30 in
  fin (stats_trend (stats r))
  /\ fle (JS.div (JS.sub (vmin temperature) (vmax temperature)) (int 7)) (stats_trend (stats r))
  /\ fle (stats_trend (stats r)) (JS.div (JS.sub (vmax temperature) (vmin temperature)) (int 7)).
Proof.
  apply (forecast_trend_bound sin_taylor temperature example_params 30 7);
    [exact sin_taylor_ok|vm_compute; discriminate|reflexivity|split; vm_compute; discriminate].
Defined.

(** ** The range table *)

(** X10: every row of the range table holds finite numbers with
    [0 < min < max]; and the start value used for an empty history,
    [min + range / 2], lies within [[min, max]]. *)
Theorem ARGO_RANGES_ordered (v : ForecastVariable) :
  let min := fst (ARGO_RANGES v) in
  let max := snd (ARGO_RANGES v) in
  fin min /\ fin max
  /\ JS.ltb (int 0) min = true /\ JS.ltb min max = true
  /\ JS.ltb (int 0) (max - min)%js = true
  /\ JS.leb min (min + (max - min) / int 2)%js = true
  /\ JS.leb (min + (max - min) / int 2)%js max = true.
Proof. destruct v; vm_compute; repeat split. Qed.

(** ** The band at 120 training days *)

Lemma Math_max_pos_le m1 e1 m2 e2 :
  fle (S754_finite false m1 e1) (S754_finite false m2 e2) ->
  JS.Math_max (S754_finite false m1 e1) (S754_finite false m2 e2) = S754_finite false m2 e2.
Proof.
  unfold fle, SFleb, JS.Math_max.
  destruct (SFcompare _ _) as [[]|] eqn:E; try discriminate; intros _; [|reflexivity].
  now apply SFcompare_Eq_pos.
Qed.

Lemma Math_min_pos_ge m1 e1 m2 e2 :
  fle (S754_finite false m2 e2) (S754_finite false m1 e1) ->
  JS.Math_min (S754_finite false m1 e1) (S754_finite false m2 e2) = S754_finite false m2 e2.
Proof.
  unfold fle, SFleb, JS.Math_min. rewrite (SFcompare_antisym (S754_finite false m1 e1)).
  destruct (SFcompare (S754_finite false m1 e1) _) as [[]|] eqn:E; cbn; try discriminate;
    intros _; [|reflexivity].
  now apply SFcompare_Eq_pos.
Qed.

(** A number of the range of a variable is a positive finite number. *)
Lemma in_range_pos v x : in_range v x -> exists m e, x = S754_finite false m e.
Proof.
  intros ([_ F] & L & _).
  destruct x as [s|s| |[] m e]; cbn in F; try tauto; [| |eauto];
    destruct v; vm_compute in L; discriminate L.
Qed.

Lemma confidenceRange_120 v p :
  trainingDays p = 120%nat -> confidenceRange v p = S754_zero false.
Proof. intros H. unfold confidenceRange, shrink. rewrite H. now destruct v. Qed.

Lemma band_120 v p x :
  trainingDays p = 120%nat -> in_range v x -> band v p x = (x, x).
Proof.
  intros H Hx. unfold band. rewrite (confidenceRange_120 v p H).
  destruct (in_range_pos v x Hx) as (m & e & ->).
  destruct Hx as (_ & L & U). unfold vmin, vmax in L, U.
  change (JS.sub (S754_finite false m e) (S754_zero false)) with (S754_finite false m e).
  change (JS.add (S754_finite false m e) (S754_zero false)) with (S754_finite false m e).
  destruct (range_facts v) as (Bmin & Bmax & _).
  destruct (in_range_pos v (vmin v)) as (m1 & e1 & E1).
  { split; [exact (bounded_fin _ _ Bmin)|]. destruct v; split; reflexivity. }
  destruct (in_range_pos v (vmax v)) as (m2 & e2 & E2).
  { split; [exact (bounded_fin _ _ Bmax)|]. destruct v; split; reflexivity. }
  unfold vmin in E1. unfold vmax in E2. rewrite E1, E2 in *.
  now rewrite Math_max_pos_le, Math_min_pos_ge.
Qed.

Lemma data_kinds (Math_sin : JS.number -> JS.number) v p seed :
  Forall (fun q => match type q with
                   | forecast => confidence q = Some (band v p (value q))
                   | historical => confidence q = None
                   end)
         (data (generateSingleForecast Math_sin v p seed)).
Proof.
  destruct (data_decomposition Math_sin v p seed) as (tr & lv & a & ->).
  apply Forall_app; split.
  - eapply Forall_impl; [|apply historical_loop_types]. now intros q [-> Hc].
  - eapply Forall_impl; [|apply forecast_loop_band]. now intros q [-> Hc].
Qed.

(** X11: with exactly 120 training days the half-width of the band is zero:
    both sides of the confidence pair of every forecast point are the value
    of the point. *)
Theorem band_collapses_at_120 (Math_sin : JS.number -> JS.number) (v : ForecastVariable)
    (p : ForecastParams) (seed : Z) :
  sin_ok Math_sin ->
  trainingDays p = 120%nat ->
  Z.of_nat (iterations (getHorizonInDays (horizon p))) <= 2 ^ 53 ->
  confidenceRange v p = int 0
  /\ Forall (fun q => type q = forecast -> confidence q = Some (value q, value q))
            (data (generateSingleForecast Math_sin v p seed)).
Proof.
  intros Hs Ht Hh. split; [now apply confidenceRange_120|].
  assert (Ht' : Z.of_nat (trainingDays p) <= 2 ^ 53) by (rewrite Ht; vm_compute; discriminate).
  pose proof (data_in_range Math_sin Hs v p Ht' seed Hh) as H1.
  pose proof (data_kinds Math_sin v p seed) as H2.
  rewrite Forall_forall in *. intros q Hq Hf.
  specialize (H1 q Hq). specialize (H2 q Hq). rewrite Hf in H2.
  now rewrite H2, band_120.
Qed.

Lemma band_collapses_at_120_witness :
  Forall (fun q => type q = forecast -> confidence q = Some (value q, value q))
         (data (generateSingleForecast sin_taylor salinity
                  {| trainingDays := 120; horizon := "7d"; variables := [salinity] |} 120)).
Proof.
  apply (band_collapses_at_120 sin_taylor salinity
           {| trainingDays := 120; horizon := "7d"; variables := [salinity] |} 120);
    [exact sin_taylor_ok|reflexivity|vm_compute; discriminate].
Defined.

(** ** The confidence percentage *)

(** X12: [stats.confidence] is at least 20 for every training window; it is
    at most 100 for a window of at most 100 days and at least 101 beyond. *)
Theorem confidence_percent_bounds (Math_sin : JS.number -> JS.number) (v : ForecastVariable)
    (p : ForecastParams) (seed : Z) :
  let c := stats_confidence (stats (generateSingleForecast Math_sin v p seed)) in
  JS.leb (int 20) c = true
  /\ ((trainingDays p <= 100)%nat -> JS.leb c (int 100) = true)
  /\ ((100 < trainingDays p)%nat -> JS.leb (int 101) c = true).
Proof.
  cbv zeta. rewrite generateSingleForecast_confidence. repeat split.
  - exact (confidence_percent_mono 0 (trainingDays p) ltac:(lia)).
  - intros H. exact (confidence_percent_mono (trainingDays p) 100 H).
  - intros H. exact (confidence_percent_mono 101 (trainingDays p) H).
Qed.

(** ** The result the overall narrative reads for a variable *)

Lemma ForecastVariable_eqb_eq (a b : ForecastVariable) :
  ForecastVariable_eqb a b = true <-> a = b.
Proof. destruct a, b; cbn; split; intros H; congruence. Qed.

Lemma find_variable_map_index (Math_sin : JS.number -> JS.number) p v (k : nat)
    (vs : list ForecastVariable) :
  let g := fun x index => generateSingleForecast Math_sin x p (Z.of_nat (trainingDays p + index)) in
  (~ In v vs -> find_variable v (map_index g k vs) = None)
  /\ (forall pre post, vs = pre ++ v :: post -> ~ In v pre ->
        find_variable v (map_index g k vs) = Some (g v (k + List.length pre)%nat)).
Proof.
  intros g. unfold find_variable.
  assert (Hvar : forall x i, variable (g x i) = x)
    by (intros; apply generateSingleForecast_variable).
  revert k; induction vs as [|x vs IH]; intros k.
  - split; [reflexivity|]. intros [|? ?] post E; discriminate E.
  - cbn [map_index find]. rewrite Hvar.
    destruct (ForecastVariable_eqb x v) eqn:E.
    + apply ForecastVariable_eqb_eq in E. subst x. split.
      * intros H. elim H. now left.
      * intros [|y pre] post Hv Hn;
          [cbn [List.length]; rewrite Nat.add_0_r; reflexivity|].
        injection Hv as -> _. elim Hn. now left.
    + assert (Hx : x <> v) by (intros ->; rewrite (proj2 (ForecastVariable_eqb_eq v v)) in E;
                               [discriminate|reflexivity]).
      destruct (IH (S k)) as [IH1 IH2]. split.
      * intros H. apply IH1. intros Hin. apply H. now right.
      * intros [|y pre] post Hv Hn; injection Hv as Hy Hv; [congruence|].
        rewrite (IH2 pre post Hv); [|intros Hin; apply Hn; now right].
        cbn [List.length]. now rewrite Nat.add_succ_r.
Qed.

(** X13: the result that the overall narrative reads for a variable is the
    one of the first occurrence of the variable in the request, generated
    with the seed [trainingDays + index]; there is none when the variable
    is not requested. *)
Theorem first_occurrence_result (Math_sin : JS.number -> JS.number) (p : ForecastParams)
    (v : ForecastVariable) :
  let rs := results (generateAllForecasts Math_sin p) in
  (~ In v (variables p) -> find_variable v rs = None)
  /\ (forall pre post, variables p = pre ++ v :: post -> ~ In v pre ->
        find_variable v rs
        = Some (generateSingleForecast Math_sin v p
                  (Z.of_nat (trainingDays p) + Z.of_nat (List.length pre)))).
Proof.
  cbn [generateAllForecasts results].
  destruct (find_variable_map_index Math_sin p v 0 (variables p)) as [H1 H2].
  split; [exact H1|].
  intros pre post E Hn. rewrite (H2 pre post E Hn). cbn [Nat.add].
  now rewrite Nat2Z.inj_add.
Qed.

(** ** The overall confidence *)

(** The confidence percentage is an integer between 20 and 2^40. *)
Lemma confidence_percent_int (t : nat) :
  Z.of_nat t <= 2 ^ 32 -> exists n, 20 <= n <= 2 ^ 40 /\ confidence_percent t = int n.
Proof.
  intros Ht.
  pose proof (confidence_percent_mono 0 t ltac:(lia)) as H20.
  change (confidence_percent 0) with (int 20) in H20.
  unfold confidence_percent in *.
  set (y := JS.add (JS.mul (JS.div (int (Z.of_nat t)) (int 100)) (int 80)) (int 20)) in *.
  assert (By : bounded 40 y).
  { destruct const_100 as [F100 G100].
    assert (B80 : bounded 7 (int 80)) by const_bounded.
    assert (B20 : bounded 5 (int 20)) by const_bounded.
    pose proof (bounded_Z2num (Z.of_nat t) 32 ltac:(lia) ltac:(lia)) as B1.
    pose proof (bounded_div _ _ _ B1 F100 G100 ltac:(lia)) as B2.
    pose proof (bounded_mul _ _ _ _ B2 B80 ltac:(lia)) as B3.
    exact (bounded_add _ _ _ _ B3 B20 ltac:(lia)). }
  destruct By as [[Vy Fy] [Ly Uy]].
  destruct y as [s|s| |s m e]; cbn in Fy; try tauto; [discriminate H20|].
  pose proof (round_half_up_nearest s m e) as Hn.
  unfold JS.Math_round in *. set (n := JS.round_half_up s m e) in *.
  destruct (Z.eqb_spec n 0) as [E|E]; [destruct s; discriminate H20|].
  assert (Hb : - 2 ^ 40 - 1 <= n <= 2 ^ 40).
  { unfold nearest_up in Hn. apply (f_equal Qnum) in Hn. cbn [inject_Z Qnum] in Hn.
    pose proof (Qfloor_le (val (S754_finite s m e) + (1 # 2))) as F1.
    pose proof (Qlt_floor (val (S754_finite s m e) + (1 # 2))) as F2.
    rewrite <- Hn in F1, F2. rewrite P2_nonneg in Ly, Uy by lia.
    assert (A : (inject_Z n < inject_Z (2 ^ 40 + 1))%Q)
      by (rewrite inject_Z_plus; change (inject_Z 1) with 1%Q; lra).
    assert (B : (inject_Z (- 2 ^ 40 - 2) < inject_Z n)%Q).
    { rewrite inject_Z_plus in F2. change (inject_Z 1) with 1%Q in F2.
      change (inject_Z (- 2 ^ 40 - 2)) with (- inject_Z (2 ^ 40) - 2)%Q. lra. }
    rewrite <- Zlt_Qlt in A, B. lia. }
  exists n. split; [|reflexivity]. split; [|lia].
  destruct (Z_le_gt_dec 20 n) as [?|Hlt]; [assumption|exfalso].
  destruct (Z_le_gt_dec 0 n) as [Hp|Hneg].
  - pose proof (Z2num_mono n 19 ltac:(lia)) as H19.
    assert (H : fle (int 20) (int 19)).
    { apply (fle_trans _ (int n)); auto; try const_fin. apply int_fin. lia. }
    discriminate H.
  - pose proof (Z2num_mono n 0 ltac:(lia)) as H0.
    assert (H : fle (int 20) (int 0)).
    { apply (fle_trans _ (int n)); auto; try const_fin.
      eapply bounded_fin, (bounded_Z2num n 53); lia. }
    discriminate H.
Qed.

(** ** The error of a rounding *)

(** The multiples of a power of two, up to 2^53 of them, are binary64
    numbers. *)
Lemma grid_representable (j e : Z) :
  0 <= j < 2 ^ 53 -> -1000 <= e <= 900 ->
  exists y, fin y /\ (val y == inject_Z j * P2 e)%Q.
Proof.
  intros Hj He. destruct (Z.eq_dec j 0) as [->|Hn].
  - exists (S754_zero false). split; [split; [reflexivity|exact I]|]. cbn [val]. ring.
  - destruct (Z2num_normal j ltac:(lia)) as (k & Hk & Hm & _).
    exists (S754_finite false (Z.to_pos (j * 2 ^ k)) (e - k)). split.
    + split; [|exact I]. apply finite_valid; lia.
    + cbn [val]. rewrite Z2Pos.id by lia. rewrite <- (inject_P2 j k) by lia.
      rewrite <- Qmult_assoc, <- P2_add. replace (k + (e - k)) with e by lia. reflexivity.
Qed.

(** The rounding of a real between 0 and [2^(e+52)] is within [2^e] of it. *)
Lemma Rnd_grid (r : Q) (x : spec_float) (e : Z) :
  Rnd r x -> (0 <= r)%Q -> (r <= P2 (e + 52))%Q -> -1000 <= e <= 900 ->
  fin x /\ (r - P2 e <= val x)%Q /\ (val x <= r + P2 e)%Q.
Proof.
  intros R H0 H1 He.
  pose proof (P2_pos e) as Pe. pose proof (P2_pos (- e)) as Pe'.
  pose proof (P2_inv e) as Pi.
  set (j := Qfloor (r * P2 (- e))).
  pose proof (Qfloor_le (r * P2 (- e))) as F1. pose proof (Qlt_floor (r * P2 (- e))) as F2.
  fold j in F1, F2. rewrite inject_Z_plus in F2. change (inject_Z 1) with 1%Q in F2.
  assert (Hr : (r == r * P2 (- e) * P2 e)%Q) by (rewrite <- Qmult_assoc, Pi; ring).
  assert (L : (inject_Z j * P2 e <= r)%Q).
  { apply Qle_trans with (r * P2 (- e) * P2 e)%Q; [|rewrite <- Hr; apply Qle_refl].
    apply Qmult_le_compat_r; [exact F1|lra]. }
  assert (U : (r <= (inject_Z j + 1) * P2 e)%Q).
  { apply Qle_trans with (r * P2 (- e) * P2 e)%Q; [rewrite <- Hr; apply Qle_refl|].
    apply Qmult_le_compat_r; [lra|lra]. }
  assert (J0 : 0 <= j).
  { unfold j. rewrite <- (Qfloor_Z 0). apply Qfloor_resp_le.
    apply Qmult_le_0_compat; lra. }
  assert (J1 : j <= 2 ^ 52).
  { assert (A : (inject_Z j <= inject_Z (2 ^ 52))%Q).
    { apply Qle_trans with (r * P2 (- e))%Q; [exact F1|].
      apply Qle_trans with (P2 (e + 52) * P2 (- e))%Q;
        [apply Qmult_le_compat_r; lra|].
      rewrite <- P2_add. replace (e + 52 + - e) with 52 by lia. apply Qle_refl. }
    now rewrite <- Zle_Qle in A. }
  destruct (grid_representable j e ltac:(lia) He) as (y1 & [V1 Fy1] & E1).
  destruct (grid_representable (j + 1) e ltac:(lia) He) as (y2 & [V2 Fy2] & E2).
  rewrite inject_Z_plus in E2. change (inject_Z 1) with 1%Q in E2.
  pose proof (Rnd_mono _ _ _ _ (Rnd_ext _ _ _ E1 (Rnd_val y1 V1 Fy1)) R L) as M1.
  pose proof (Rnd_mono _ _ _ _ R (Rnd_ext _ _ _ E2 (Rnd_val y2 V2 Fy2)) U) as M2.
  pose proof (Rnd_valid _ _ R) as Vx.
  assert (Fx : is_finite x).
  { destruct (fle_finite_l _ _ M2 Fy2) as [A B].
    destruct (fle_finite_r _ _ M1 Fy1) as [C D].
    destruct x as [s|[]| |s m e0]; cbn; auto; congruence. }
  split; [split; assumption|].
  apply val_mono in M1, M2; auto. rewrite E1 in M1. rewrite E2 in M2.
  split; lra.
Qed.

(** ** The confidence percentage is the nearest integer *)

Lemma P2_value (e : Z) (q : Q) : Qpower 2 e = q -> (P2 e == q)%Q.
Proof. intros <-. reflexivity. Qed.

(** The confidence percentage is the integer nearest to
    [0.8 * trainingDays + 20]: five times it is within 2 of
    [4 * trainingDays + 100]. *)
Lemma confidence_percent_nearest (t : nat) :
  Z.of_nat t <= 2 ^ 32 ->
  exists n, confidence_percent t = int n
            /\ -2 <= 5 * n - (4 * Z.of_nat t + 100) <= 2.
Proof.
  intros Ht.
  destruct (confidence_percent_int t Ht) as (n & Hn & En).
  exists n. split; [exact En|].
  unfold confidence_percent in En.
  destruct const_100 as [F100 G100].
  assert (F80 : fin (int 80)) by const_fin.
  assert (F20 : fin (int 20)) by const_fin.
  assert (Ft : fin (int (Z.of_nat t))) by (apply int_fin; lia).
  pose proof (Z2num_exact (Z.of_nat t) ltac:(lia)) as Et.
  assert (E100 : (val (int 100) == 100)%Q) by reflexivity.
  assert (E80 : (val (int 80) == 80)%Q) by reflexivity.
  assert (E20 : (val (int 20) == 20)%Q) by reflexivity.
  set (T := inject_Z (Z.of_nat t)) in *.
  assert (T0 : (0 <= T)%Q) by (unfold T; rewrite <- (Zle_Qle 0); lia).
  assert (T1 : (T <= 4294967296)%Q).
  { unfold T. change 4294967296%Q with (inject_Z (2 ^ 32)). now rewrite <- Zle_Qle. }
  pose proof (P2_value (-26) _ eq_refl) as Q26. cbn in Q26.
  pose proof (P2_value (-19) _ eq_refl) as Q19. cbn in Q19.
  pose proof (P2_value (-18) _ eq_refl) as Q18. cbn in Q18.
  pose proof (P2_value 26 _ eq_refl) as R26. cbn in R26.
  pose proof (P2_value 33 _ eq_refl) as R33. cbn in R33.
  pose proof (P2_value 34 _ eq_refl) as R34. cbn in R34.
  (* the division *)
  set (q1 := JS.div (int (Z.of_nat t)) (int 100)) in *.
  assert (D : Rnd (T / 100) q1).
  { apply (Rnd_ext (val (int (Z.of_nat t)) / val (int 100))).
    - now rewrite Et, E100.
    - apply SFdiv_Rnd; try apply Ft; try apply F100. }
  assert (D0 : (0 <= T / 100)%Q) by (apply Qle_shift_div_l; lra).
  assert (D1 : (T / 100 <= P2 (-26 + 52))%Q).
  { change (-26 + 52) with 26. rewrite R26. apply Qle_shift_div_r; lra. }
  destruct (Rnd_grid _ _ (-26) D D0 D1 ltac:(lia)) as ([V1 F1] & L1 & U1).
  assert (X1 : (T / 100 == T * (1 # 100))%Q) by (field).
  rewrite X1, Q26 in L1, U1.
  (* the product *)
  set (q2 := JS.mul q1 (int 80)) in *.
  assert (M : Rnd (val q1 * 80) q2).
  { apply (Rnd_ext (val q1 * val (int 80))); [now rewrite E80|].
    apply SFmul_Rnd; auto; apply F80. }
  assert (N1 : (0 <= val q1)%Q).
  { pose proof (Rnd_nonneg _ _ D ltac:(rewrite X1; lra)) as Nq.
    destruct q1 as [s|[]| |[] m e]; cbn in Nq, F1 |- *; try tauto; try discriminate; try lra.
    apply Qmult_le_0_compat; [easy|apply Qlt_le_weak, P2_pos]. }
  assert (M0 : (0 <= val q1 * 80)%Q) by lra.
  assert (M1 : (val q1 * 80 <= P2 (-19 + 52))%Q).
  { change (-19 + 52) with 33. rewrite R33. lra. }
  destruct (Rnd_grid _ _ (-19) M M0 M1 ltac:(lia)) as ([V2 F2] & L2 & U2).
  rewrite Q19 in L2, U2.
  (* the sum *)
  set (y := JS.add q2 (int 20)) in *.
  assert (A : Rnd (val q2 + 20) y).
  { apply (Rnd_ext (val q2 + val (int 20))); [now rewrite E20|].
    apply SFadd_Rnd; auto; apply F20. }
  assert (A0 : (0 <= val q2 + 20)%Q) by lra.
  assert (A1 : (val q2 + 20 <= P2 (-18 + 52))%Q).
  { change (-18 + 52) with 34. rewrite R34. lra. }
  destruct (Rnd_grid _ _ (-18) A A0 A1 ltac:(lia)) as ([V3 F3] & L3 & U3).
  rewrite Q18 in L3, U3.
  (* the rounding to an integer *)
  pose proof (Math_round_Rnd y F3) as R. rewrite En in R.
  assert (Pn : posfin (int n)) by (apply posfin_int; lia).
  assert (Vn : (val (int n) == inject_Z n)%Q) by (apply Z2num_exact; lia).
  pose proof (Qfloor_le (val y + (1 # 2))) as G1.
  pose proof (Qlt_floor (val y + (1 # 2))) as G2.
  rewrite inject_Z_plus in G2. change (inject_Z 1) with 1%Q in G2.
  unfold nearest_up in R. set (k := Qfloor (val y + (1 # 2))) in *.
  assert (K : 0 <= k < 2 ^ 53).
  { assert (K0 : (inject_Z (-1) < inject_Z k)%Q) by (change (inject_Z (-1)) with (-1)%Q; lra).
    assert (K1 : (inject_Z k < inject_Z (2 ^ 53))%Q).
    { change (inject_Z (2 ^ 53)) with 9007199254740992%Q. lra. }
    rewrite <- Zlt_Qlt in K0, K1. lia. }
  assert (Ek : int n = int k) by exact (Rnd_unique _ _ _ R (Z2num_Rnd k) Pn).
  assert (Nu : (inject_Z k == inject_Z n)%Q).
  { rewrite <- Vn, Ek. symmetry. now apply Z2num_exact. }
  rewrite Nu in G1, G2.
  assert (B1 : (inject_Z (5 * n - (4 * Z.of_nat t + 100)) < inject_Z 3)%Q).
  { unfold Z.sub. rewrite !inject_Z_plus, inject_Z_opp, !inject_Z_plus, !inject_Z_mult. fold T.
    change (inject_Z 5) with 5%Q. change (inject_Z 4) with 4%Q.
    change (inject_Z 100) with 100%Q. change (inject_Z 3) with 3%Q. lra. }
  assert (B2 : (inject_Z (-3) < inject_Z (5 * n - (4 * Z.of_nat t + 100)))%Q).
  { unfold Z.sub. rewrite !inject_Z_plus, inject_Z_opp, !inject_Z_plus, !inject_Z_mult. fold T.
    change (inject_Z 5) with 5%Q. change (inject_Z 4) with 4%Q.
    change (inject_Z 100) with 100%Q. change (inject_Z (-3)) with (-3)%Q. lra. }
  rewrite <- Zlt_Qlt in B1, B2. lia.
Qed.

(** C7: [stats.confidence] is [Math.round(trainingDays / 100 * 80 + 20)], an
    integer percentage: for a training window of at most 2^32 days (no array
    is longer) it is the integer nearest to [0.8 * trainingDays + 20], at
    least 20 and above 100 beyond 100 training days; it does not decrease
    when [trainingDays] grows; it is 28, 68 and 100 for 10, 60 and 100
    training days (21 for 1 day, where [0.8 * 1 + 20] is rounded up, 46 for
    33 days, where 46.4 is rounded down, and 180 for 200 days). *)
Theorem C7_confidence_percent (Math_sin : JS.number -> JS.number) (v : ForecastVariable)
    (p : ForecastParams) (seed : Z) :
  stats_confidence (stats (generateSingleForecast Math_sin v p seed))
  = JS.Math_round (int (Z.of_nat (trainingDays p)) / int 100 * int 80 + int 20)%js
  /\ stats_confidence (stats (generateSingleForecast Math_sin v p seed))
     = confidence_percent (trainingDays p)
  /\ (forall t : nat, Z.of_nat t <= 2 ^ 32 ->
        exists n : Z,
          confidence_percent t = int n
          /\ integer_value (confidence_percent t) = Some n
          /\ -2 <= 5 * n - (4 * Z.of_nat t + 100) <= 2
          /\ 20 <= n
          /\ ((100 < t)%nat -> 100 < n))
  /\ (forall a b : nat, (a <= b)%nat ->
        JS.leb (confidence_percent a) (confidence_percent b) = true)
  /\ confidence_percent 10 = int 28
  /\ confidence_percent 60 = int 68
  /\ confidence_percent 100 = int 100
  /\ confidence_percent 200 = int 180
  /\ confidence_percent 1 = int 21
  /\ confidence_percent 33 = int 46
  /\ confidence_percent 57 = int 66.
Proof.
  split; [apply generateSingleForecast_confidence|].
  split; [apply generateSingleForecast_confidence|].
  split.
  { intros t Ht. destruct (confidence_percent_nearest t Ht) as (n & En & Hn).
    exists n. split; [exact En|]. rewrite En.
    split; [apply integer_value_int; lia|]. repeat split; lia. }
  split; [exact confidence_percent_mono|].
  repeat split; reflexivity.
Qed.

(** ** The mean of the confidence percentages *)

Lemma sum_of_equal (rs : list ForecastResult) (n j : Z) :
  Forall (fun r => stats_confidence (stats r) = int n) rs ->
  1 <= n -> 0 <= j -> (j + Z.of_nat (List.length rs)) * n < 2 ^ 53 ->
  fold_left (fun acc r => JS.add acc (stats_confidence (stats r))) rs (int (j * n))
  = int ((j + Z.of_nat (List.length rs)) * n).
Proof.
  intros H Hn. revert j; induction H as [|r rs Hr _ IH]; intros j Hj Hs.
  - cbn [fold_left List.length Z.of_nat]. now rewrite Z.add_0_r.
  - cbn [fold_left]. rewrite Hr. cbn [List.length] in *. rewrite Nat2Z.inj_succ in *.
    rewrite add_int by nia.
    replace (j * n + n) with ((j + 1) * n) by ring.
    rewrite IH by nia. f_equal. ring.
Qed.

Lemma map_index_Forall {A B : Type} (P : B -> Prop) (f : A -> nat -> B) (k : nat)
    (xs : list A) :
  (forall x i, P (f x i)) -> Forall P (map_index f k xs).
Proof.
  intros H. revert k; induction xs as [|x xs IH]; intros k; cbn [map_index]; constructor; auto.
Qed.

(** X14: when at least one variable is requested, the overall confidence
    printed at the end of the overall narrative is the confidence percentage
    of each of the results: averaging does not change it. *)
Theorem overall_confidence (Math_sin : JS.number -> JS.number) (p : ForecastParams) :
  variables p <> [] ->
  Z.of_nat (trainingDays p) <= 2 ^ 32 ->
  Z.of_nat (List.length (variables p)) <= 2 ^ 12 ->
  let rs := results (generateAllForecasts Math_sin p) in
  Forall (fun r => stats_confidence (stats r) = confidence_percent (trainingDays p)) rs
  /\ JS.Math_round
       (JS.div (fold_left (fun acc r => JS.add acc (stats_confidence (stats r))) rs (int 0))
               (int (Z.of_nat (List.length rs))))
     = confidence_percent (trainingDays p)
  /\ exists body,
       narrative (generateAllForecasts Math_sin p)
       = (body ++ "**Confidence:** The overall confidence in this forecast is **"
          ++ Str.Number_toString (confidence_percent (trainingDays p))
          ++ "%**. Longer training periods generally yield higher confidence.")%string.
Proof.
  intros Hne Ht Hk. cbv zeta. unfold generateAllForecasts. cbn [results narrative].
  set (rs := map_index _ 0%nat (variables p)).
  assert (Hc : Forall (fun r => stats_confidence (stats r)
                                = confidence_percent (trainingDays p)) rs).
  { apply map_index_Forall. intros x i. apply generateSingleForecast_confidence. }
  assert (Hl : List.length rs = List.length (variables p)) by apply map_index_length.
  assert (Hpos : 1 <= Z.of_nat (List.length rs)).
  { rewrite Hl. destruct (variables p); [congruence|cbn [List.length]; lia]. }
  destruct (confidence_percent_int (trainingDays p) Ht) as (n & Hn & En).
  assert (Hs : Z.of_nat (List.length rs) * n < 2 ^ 53).
  { rewrite Hl. apply Z.le_lt_trans with (2 ^ 12 * 2 ^ 40); [nia|reflexivity]. }
  assert (E : JS.Math_round
                (JS.div (fold_left (fun acc r => JS.add acc (stats_confidence (stats r))) rs
                           (int 0))
                        (int (Z.of_nat (List.length rs))))
              = confidence_percent (trainingDays p)).
  { rewrite En in Hc |- *.
    pose proof (sum_of_equal rs n 0 Hc ltac:(lia) ltac:(lia) ltac:(lia)) as S.
    change (0 * n) with 0 in S. rewrite S, Z.add_0_l, div_int by lia.
    apply Math_round_int. lia. }
  split; [exact Hc|]. split; [exact E|].
  unfold generateOverallNarrative. cbv zeta. rewrite E.
  rewrite <- (StrFacts.append_assoc _ nl). eexists. reflexivity.
Qed.

Lemma overall_confidence_witness :
  let p := {| trainingDays := 60; horizon := "7d"; variables := [temperature; salinity] |} in
  JS.Math_round
    (JS.div (fold_left (fun acc r => JS.add acc (stats_confidence (stats r)))
               (results (generateAllForecasts sin_taylor p)) (int 0))
            (int (Z.of_nat (List.length (results (generateAllForecasts sin_taylor p))))))
  = confidence_percent 60.
Proof.
  intros p.
  destruct (overall_confidence sin_taylor p) as (_ & H & _);
    [discriminate|vm_compute; discriminate|vm_compute; discriminate|exact H].
Defined.

(** ** A horizon of one day *)

Lemma sub_self (x : JS.number) : fin x -> exists s, JS.sub x x = S754_zero s.
Proof.
  intros [V F].
  destruct (SFsub_Rnd x x V V F F) as [(_ & H)|[(H & _)|(H & _)]]; [exact H|lra|lra].
Qed.

(** X15: over a horizon of one day the forecast has one point: [stats.min]
    and [stats.max] are both its value, [stats.trend] is zero, and the
    narrative ends with [The trend appears stable.] *)
Theorem one_day_forecast (Math_sin : JS.number -> JS.number) (v : ForecastVariable)
    (p : ForecastParams) (seed : Z) :
  sin_ok Math_sin ->
  Z.of_nat (trainingDays p) <= 2 ^ 53 ->
  getHorizonInDays (horizon p) = int 1 ->
  let r := generateSingleForecast Math_sin v p seed in
  exists q,
    data r = firstn (trainingDays p) (data r) ++ [q]
    /\ type q = forecast
    /\ stats_min (stats r) = value q
    /\ stats_max (stats r) = value q
    /\ (exists s, stats_trend (stats r) = S754_zero s)
    /\ exists text,
         stats_narrative (stats r) = (text ++ "The trend appears stable.")%string.
Proof.
  intros Hs Ht Hh r.
  destruct (generateSingleForecast_parts Math_sin v p seed)
    as (tr & lv & a & Hd & Hmin & Hmax & Htr & Hinv).
  cbv zeta in Hd, Hmin, Hmax, Htr, Hinv. fold r in Hd, Hmin, Hmax, Htr.
  destruct (Hinv Hs Ht) as (Hhd & Btr & Hlv).
  rewrite Hh in *. change (iterations (int 1)) with 1%nat in *.
  pose proof (historical_loop_length Math_sin v p (trainingDays p) 0 (Prng.mulberry32 seed))
    as Lhd.
  set (hd := fst (historical_loop Math_sin v p (trainingDays p) 0 (Prng.mulberry32 seed))) in *.
  pose proof (forecast_point_in_range Math_sin Hs v p Ht hd tr 0 lv a Hhd Btr Hlv
                ltac:(cbn; lia)) as Hq.
  pose proof (forecast_loop_types Math_sin v p hd tr 1 0 lv a) as Tq.
  cbn [forecast_loop] in Hd, Hmin, Hmax, Htr, Tq.
  destruct (forecast_point Math_sin v p hd tr 0 lv a) as [q a1]. cbn [fst] in Hq.
  apply Forall_inv in Tq.
  cbn [map List.length Z.of_nat Pos.of_succ_nat Z.sub Z.add Z.opp Z.pos_sub number_at
       Z.ltb Z.compare Z.to_nat nth] in Hmin, Hmax, Htr.
  destruct Hq as (Fq & _).
  unfold JS.Math_min_list in Hmin. unfold JS.Math_max_list in Hmax.
  cbn [fold_left] in Hmin, Hmax.
  rewrite Math_min_Infinity in Hmin by exact Fq.
  rewrite Math_max_neg_Infinity in Hmax by exact Fq.
  destruct (sub_self (value q) Fq) as [s Es]. rewrite Es in Htr.
  assert (Etr : stats_trend (stats r) = S754_zero s) by (rewrite Htr; now destruct s).
  exists q. split; [|split; [exact Tq|split; [exact Hmin|split; [exact Hmax|split]]]].
  - rewrite Hd at 2. rewrite firstn_app, Lhd, Nat.sub_diag, firstn_all2 by lia.
    cbn [firstn]. rewrite app_nil_r. exact Hd.
  - eauto.
  - assert (En : stats_narrative (stats r)
                 = single_narrative p (stats_confidence (stats r)) (stats_min (stats r))
                     (stats_max (stats r)) (stats_trend (stats r))).
    { unfold r, generateSingleForecast.
      destruct (historical_loop Math_sin v p (trainingDays p) 0 (Prng.mulberry32 seed)).
      destruct (30 <? trainingDays p)%nat; [destruct (Prng.mulberry32_next _)|]; reflexivity. }
    rewrite En, Etr. unfold single_narrative.
    replace (JS.gtb (JS.Math_abs (JS.mul (S754_zero s) (int 100))) (dec 1 2)) with false
      by (now destruct s).
    rewrite <- !StrFacts.append_assoc. eexists. reflexivity.
Qed.

Lemma one_day_forecast_witness :
  let r := generateSingleForecast sin_taylor temperature zero_sin_point 1 in
  exists q,
    data r = firstn 1 (data r) ++ [q]
    /\ type q = forecast
    /\ stats_min (stats r) = value q
    /\ stats_max (stats r) = value q
    /\ (exists s, stats_trend (stats r) = S754_zero s)
    /\ exists text,
         stats_narrative (stats r) = (text ++ "The trend appears stable.")%string.
Proof.
  apply (one_day_forecast sin_taylor temperature zero_sin_point 1);
    [exact sin_taylor_ok|vm_compute; discriminate|reflexivity].
Defined.

(** ** Variables the overall narrative does not read *)


